(** * Curva A (Mercado Livre scraper): the extraction pipeline of
    [curva_a_ml.py], embedded and verified.

    The embedding follows the Python source function by function.

    - A Python [str] is a list of Unicode code points ([str := list N]).
      The character tables (case mappings, [\w], [\d]) are CPython's for
      U+0000..U+00FF, the repertoire of the Portuguese catalogue titles the
      program reads, together with the two upper-case images that leave
      that range (U+0178, U+039C); white space is CPython's full set.
    - A Python [float] is an IEEE 754 binary64 number: [spec_float] of the
      Standard Library with precision 53 and [emax] 1024, rounding to
      nearest even.  [float(s)] is the correctly rounded decimal reading.
    - A Python exception is an explicit result ([Raise e]); [try]/[except]
      blocks appear where the source has them.
    - [re] patterns are values of [regex], run by a backtracking matcher
      with the priorities of Python's engine (leftmost match, greedy
      quantifiers, ordered alternation).
    - The browser, its pages and the cancellation flag are an environment
      of answers indexed by the moment they are asked for; [open_pdp] and
      [ScraperThread.run] are state-and-exception computations over the
      trace of what the worker did, the run buffer [todos] and the two
      artifacts it writes. *)

From Stdlib Require Import List ZArith NArith Bool Lia Ascii String.
From Stdlib Require Import Floats.SpecFloat Numbers.DecimalPos.
From Stdlib Require Import Sorting.Permutation Sorting.Sorted.
Import ListNotations.

Set Implicit Arguments.
Local Open Scope bool_scope.
Local Open Scope N_scope.

(** ** Python strings *)

Definition char := N.
Definition str := list char.

Fixpoint bytes_of (s : string) : list N :=
  match s with
  | EmptyString => []
  | String a s' => N_of_ascii a :: bytes_of s'
  end.

(** Literals of this file are written in UTF-8; [utf8_decode] reads the
    code points back ([need] continuation bytes pending, [acc] the bits
    read so far). *)
Fixpoint utf8_decode (need : nat) (acc : N) (bs : list N) : str :=
  match bs with
  | [] => []
  | b :: bs' =>
      match need with
      | O =>
          if (b <? 128) then b :: utf8_decode 0%nat 0 bs'
          else if (b <? 224) then utf8_decode 1%nat (b - 192) bs'
          else if (b <? 240) then utf8_decode 2%nat (b - 224) bs'
          else utf8_decode 3%nat (b - 240) bs'
      | S O => (acc * 64 + (b - 128)) :: utf8_decode 0%nat 0 bs'
      | S n => utf8_decode n (acc * 64 + (b - 128)) bs'
      end
  end.

Definition lit (s : string) : str := utf8_decode 0%nat 0 (bytes_of s).

Definition ch (s : string) : char :=
  match lit s with c :: _ => c | [] => 0 end.

Definition in_range (lo hi c : char) : bool := ((lo <=? c) && (c <=? hi)).

Fixpoint eqb_str (a b : str) : bool :=
  match a, b with
  | [], [] => true
  | x :: a', y :: b' => (x =? y) && eqb_str a' b'
  | _, _ => false
  end.

(** [str.isspace] per character. *)
Definition is_space (c : char) : bool :=
  in_range 9 13 c || in_range 28 32 c || (c =? 133) || (c =? 160)
  || (c =? 5760) || in_range 8192 8202 c || in_range 8232 8233 c
  || (c =? 8239) || (c =? 8287) || (c =? 12288).

(** Decimal digits (category Nd). *)
Definition is_digit (c : char) : bool := in_range 48 57 c.

Definition is_ascii_upper (c : char) : bool := in_range 65 90 c.
Definition is_ascii_lower (c : char) : bool := in_range 97 122 c.

(** Letters of the Latin-1 supplement with a lower-case image
    (U+00C0..U+00DE without the multiplication sign) and with an
    upper-case image in the same block (U+00E0..U+00FE without the
    division sign). *)
Definition is_latin1_upper (c : char) : bool :=
  in_range 192 222 c && negb (c =? 215).
Definition is_latin1_lower (c : char) : bool :=
  in_range 224 254 c && negb (c =? 247).

(** [str.isalnum] per character: what [\w] accepts besides the underscore. *)
Definition is_alnum (c : char) : bool :=
  is_digit c || is_ascii_upper c || is_ascii_lower c
  || (c =? 170) || (c =? 178) || (c =? 179) || (c =? 181)
  || (c =? 185) || (c =? 186) || in_range 188 190 c
  || is_latin1_upper c || (c =? 223) || is_latin1_lower c || (c =? 255)
  || (c =? 376) || (c =? 924) || (c =? 956).

Definition is_word (c : char) : bool := is_alnum c || (c =? 95).

(** Characters with a case ([str.title] looks at this). *)
Definition is_cased (c : char) : bool :=
  is_ascii_upper c || is_ascii_lower c || (c =? 170) || (c =? 181)
  || (c =? 186) || is_latin1_upper c || (c =? 223) || is_latin1_lower c
  || (c =? 255) || (c =? 376) || (c =? 924) || (c =? 956).

(** Simple lower-case mapping (one code point to one code point). *)
Definition lower_char (c : char) : char :=
  if is_ascii_upper c || is_latin1_upper c then (c + 32)
  else if (c =? 376) then 255
  else if (c =? 924) then 956
  else c.

(** Full upper-case mapping: the sharp s becomes two letters. *)
Definition upper_char (c : char) : str :=
  if is_ascii_lower c || is_latin1_lower c then [(c - 32)]
  else if (c =? 181) then [924]
  else if (c =? 223) then [83; 83]
  else if (c =? 255) then [376]
  else if (c =? 956) then [924]
  else [c].

(** Title-case mapping: as upper case, but the sharp s becomes "Ss". *)
Definition title_char (c : char) : str :=
  if (c =? 223) then [83; 115] else upper_char c.

Definition upper (s : str) : str := flat_map upper_char s.
Definition lower (s : str) : str := map lower_char s.

(** [str.title]: a cased character is title-cased after an uncased one
    and lower-cased after a cased one. *)
Fixpoint title_from (prev_cased : bool) (s : str) : str :=
  match s with
  | [] => []
  | c :: s' =>
      (if prev_cased then [lower_char c] else title_char c)
        ++ title_from (is_cased c) s'
  end.
Definition title (s : str) : str := title_from false s.

Fixpoint lstrip (s : str) : str :=
  match s with
  | c :: s' => if is_space c then lstrip s' else s
  | [] => []
  end.
Definition rstrip (s : str) : str := rev (lstrip (rev s)).
Definition strip (s : str) : str := rstrip (lstrip s).

Fixpoint startswith (p s : str) : bool :=
  match p, s with
  | [], _ => true
  | x :: p', y :: s' => (x =? y) && startswith p' s'
  | _ :: _, [] => false
  end.

(** [sub in s]. *)
Fixpoint contains (sub s : str) : bool :=
  startswith sub s
  || match s with
     | [] => false
     | _ :: s' => contains sub s'
     end.

(** [s.replace(old, new)]: occurrences are taken left to right and do not
    overlap; [skip] counts the characters of an occurrence still to drop. *)
Fixpoint replace_from (old new s : str) (skip : nat) : str :=
  match s with
  | [] => []
  | c :: s' =>
      match skip with
      | S n => replace_from old new s' n
      | O =>
          if startswith old s
          then new ++ replace_from old new s' (List.length old - 1)%nat
          else c :: replace_from old new s' 0%nat
      end
  end.
Definition replace (old new s : str) : str :=
  match old with
  | [] => new ++ flat_map (fun c => c :: new) s
  | _ :: _ => replace_from old new s 0%nat
  end.

(** [sep.join(parts)]. *)
Fixpoint join (sep : str) (parts : list str) : str :=
  match parts with
  | [] => []
  | [p] => p
  | p :: ps => p ++ sep ++ join sep ps
  end.

(** The truth value of a string: [if s], [p for p in parts if p]. *)
Definition truthy (s : str) : bool :=
  match s with [] => false | _ :: _ => true end.

(** [str(n)] of an integer. *)
Definition digit_char (d : N) : char := 48 + d.

Fixpoint str_of_uint (u : Decimal.uint) : str :=
  match u with
  | Decimal.Nil => []
  | Decimal.D0 u' => digit_char 0 :: str_of_uint u'
  | Decimal.D1 u' => digit_char 1 :: str_of_uint u'
  | Decimal.D2 u' => digit_char 2 :: str_of_uint u'
  | Decimal.D3 u' => digit_char 3 :: str_of_uint u'
  | Decimal.D4 u' => digit_char 4 :: str_of_uint u'
  | Decimal.D5 u' => digit_char 5 :: str_of_uint u'
  | Decimal.D6 u' => digit_char 6 :: str_of_uint u'
  | Decimal.D7 u' => digit_char 7 :: str_of_uint u'
  | Decimal.D8 u' => digit_char 8 :: str_of_uint u'
  | Decimal.D9 u' => digit_char 9 :: str_of_uint u'
  end.

Definition str_of_Z (z : Z) : str :=
  match z with
  | Z0 => [digit_char 0]
  | Zpos p => str_of_uint (Pos.to_uint p)
  | Zneg p => 45 :: str_of_uint (Pos.to_uint p)
  end.

(** ** Python exceptions *)

Inductive exn : Set := ValueError | OverflowError | PlaywrightTimeout | OtherError.

Inductive py (A : Type) : Type :=
| Ret (a : A)
| Raise (e : exn).
Arguments Ret {A} a.
Arguments Raise {A} e.

Definition bind {A B : Type} (c : py A) (k : A -> py B) : py B :=
  match c with
  | Ret a => k a
  | Raise e => Raise e
  end.

Notation "x <- c ;; k" := (bind c (fun x => k))
  (at level 61, c at next level, right associativity).

(** [try: c / except: h] with a handler that catches every exception. *)
Definition try_except {A : Type} (c : py A) (h : py A) : py A :=
  match c with
  | Ret a => Ret a
  | Raise _ => h
  end.

(** ** Python floats (binary64) *)

Definition float := spec_float.
Definition prec : Z := 53.
Definition emax : Z := 1024.

Definition flt (x y : float) : bool := SFltb x y.
Definition feq (x y : float) : bool := SFeqb x y.
Definition fsub (x y : float) : float := SFsub prec emax x y.
Definition fabs (x : float) : float := SFabs x.

(** The float nearest to [n * 10^e], ties to even, signed by [neg]. *)
Definition float_of_scaled (neg : bool) (n : N) (e : Z) : float :=
  match n with
  | N0 => S754_zero neg
  | Npos p =>
      match e with
      | Zneg k =>
          let '(q, e', l) :=
            SFdiv_core_binary prec emax (Zpos p) 0 (Z.pow 10 (Zpos k)) 0 in
          binary_round_aux prec emax neg q e' l
      | _ => binary_normalize prec emax
               (cond_Zopp neg (Zpos p * Z.pow 10 e)) 0 neg
      end
  end.

Definition digit_val (c : char) : N := c - 48.

(** [digitpart ::= digit (["_"] digit)*]; [digits_more] reads what may
    follow the first digit. *)
Fixpoint digits_more (s : str) : list N * str :=
  match s with
  | [] => ([], [])
  | c :: s' =>
      if is_digit c then
        let '(ds, r) := digits_more s' in (digit_val c :: ds, r)
      else if c =? ch "_" then
        match s' with
        | d :: s'' =>
            if is_digit d then
              let '(ds, r) := digits_more s'' in (digit_val d :: ds, r)
            else ([], s)
        | [] => ([], s)
        end
      else ([], s)
  end.

Definition digitpart (s : str) : option (list N * str) :=
  match s with
  | c :: s' =>
      if is_digit c then
        let '(ds, r) := digits_more s' in Some (digit_val c :: ds, r)
      else None
  | [] => None
  end.

Definition N_of_digits (ds : list N) : N :=
  fold_left (fun a d => a * 10 + d) ds 0.

Definition parse_sign (s : str) : bool * str :=
  match s with
  | c :: s' =>
      if c =? ch "-" then (true, s')
      else if c =? ch "+" then (false, s')
      else (false, s)
  | [] => (false, [])
  end.

(** [number ::= [digitpart] "." digitpart | digitpart ["."]]: the digits
    before the point, the digits after it, and the rest. *)
Definition parse_number (s : str) : option (list N * list N * str) :=
  match digitpart s with
  | Some (ip, r) =>
      match r with
      | c :: r' =>
          if c =? ch "." then
            match digitpart r' with
            | Some (fp, r'') => Some (ip, fp, r'')
            | None => Some (ip, [], r')
            end
          else Some (ip, [], r)
      | [] => Some (ip, [], [])
      end
  | None =>
      match s with
      | c :: r' =>
          if c =? ch "." then
            match digitpart r' with
            | Some (fp, r'') => Some ([], fp, r'')
            | None => None
            end
          else None
      | [] => None
      end
  end.

(** [exponent ::= ("e" | "E") [sign] digitpart], optional. *)
Definition parse_exponent (s : str) : option (Z * str) :=
  match s with
  | [] => Some (0%Z, [])
  | c :: s' =>
      if (c =? ch "e") || (c =? ch "E") then
        let '(neg, s'') := parse_sign s' in
        match digitpart s'' with
        | Some (ds, r) => Some (cond_Zopp neg (Z.of_N (N_of_digits ds)), r)
        | None => None
        end
      else Some (0%Z, s)
  end.

(** White space that [float] strips: [str.isspace] without the four
    ASCII separators U+001C..U+001F. *)
Definition is_float_space (c : char) : bool :=
  is_space c && negb (in_range 28 31 c).

Fixpoint lstrip_by (p : char -> bool) (s : str) : str :=
  match s with
  | c :: s' => if p c then lstrip_by p s' else s
  | [] => []
  end.
Definition strip_by (p : char -> bool) (s : str) : str :=
  rev (lstrip_by p (rev (lstrip_by p s))).

(** [float(s)] for a string [s]. *)
Definition float_of_str (s : str) : py float :=
  let '(neg, body) := parse_sign (strip_by is_float_space s) in
  let low := lower body in
  if eqb_str low (lit "inf") || eqb_str low (lit "infinity")
  then Ret (S754_infinity neg)
  else if eqb_str low (lit "nan") then Ret S754_nan
  else
    match parse_number body with
    | Some (ip, fp, r) =>
        match parse_exponent r with
        | Some (e, []) =>
            Ret (float_of_scaled neg (N_of_digits (ip ++ fp))
                   (e - Z.of_nat (List.length fp)))
        | _ => Raise ValueError
        end
    | None => Raise ValueError
    end.

(** [v.is_integer()]. *)
Definition is_integer (v : float) : bool :=
  match v with
  | S754_zero _ => true
  | S754_finite _ m e =>
      (0 <=? e)%Z || (Z.land (Zpos m) (Z.ones (- e)) =? 0)%Z
  | S754_infinity _ | S754_nan => false
  end.

(** [int(v)]: truncation toward zero. *)
Definition int_of_float (v : float) : py Z :=
  match v with
  | S754_zero _ => Ret 0%Z
  | S754_finite s m e => Ret (cond_Zopp s (Z.shiftl (Zpos m) e))
  | S754_infinity _ => Raise OverflowError
  | S754_nan => Raise ValueError
  end.

(** The literals [1.0] and [1e-6] of the source. *)
Definition f_one : float := S754_finite false 4503599627370496 (-52).
Definition f_1e_6 : float := S754_finite false 4722366482869645 (-72).

(** ** Regular expressions ([re]) *)

(** The constructs the patterns of the program use.  A quantifier applies
    to one character class ([Rep p lo hi] is the greedy [p{lo,hi}], with
    [hi = None] for no upper bound); groups do not nest, so the groups of
    a match are listed in the order they close. *)
Inductive regex : Type :=
| Eps
| Chr (p : char -> bool)
| Rep (p : char -> bool) (lo : nat) (hi : option nat)
| Seq (r1 r2 : regex)
| Alt (r1 r2 : regex)
| Grp (r : regex)
| Bnd.

(** [\b]: exactly one side of the position is a word character. *)
Definition at_boundary (prev : option char) (s : str) : bool :=
  xorb (match prev with Some c => is_word c | None => false end)
       (match s with c :: _ => is_word c | [] => false end).

Definition room (hi : option nat) : bool :=
  match hi with Some O => false | _ => true end.

Section Matcher.
Variable R : Type.

Definition rep_stop (lo : nat) (k : option char -> str -> option R)
    (prev : option char) (s : str) : option R :=
  match lo with O => k prev s | S _ => None end.

(** Greedy repetition: take one more character when possible, and fall
    back to stopping here when the rest of the pattern then fails. *)
Fixpoint rep (p : char -> bool) (lo : nat) (hi : option nat)
    (prev : option char) (s : str)
    (k : option char -> str -> option R) : option R :=
  match s with
  | c :: s' =>
      if p c && room hi then
        match rep p (Nat.pred lo) (option_map Nat.pred hi) (Some c) s' k with
        | Some x => Some x
        | None => rep_stop lo k prev s
        end
      else rep_stop lo k prev s
  | [] => rep_stop lo k prev s
  end.

(** The backtracking matcher, in continuation-passing style: [prev] is the
    character before the position, [s] the text from the position on, [g]
    the groups closed so far. *)
Fixpoint rmatch (r : regex) (prev : option char) (s : str) (g : list str)
    (k : option char -> str -> list str -> option R) : option R :=
  match r with
  | Eps => k prev s g
  | Chr p =>
      match s with
      | c :: s' => if p c then k (Some c) s' g else None
      | [] => None
      end
  | Rep p lo hi => rep p lo hi prev s (fun prev' s' => k prev' s' g)
  | Seq r1 r2 =>
      rmatch r1 prev s g (fun prev' s' g' => rmatch r2 prev' s' g' k)
  | Alt r1 r2 =>
      match rmatch r1 prev s g k with
      | Some x => Some x
      | None => rmatch r2 prev s g k
      end
  | Grp r1 =>
      rmatch r1 prev s g
        (fun prev' s' g' =>
           k prev' s' (g' ++ [firstn (List.length s - List.length s') s]))
  | Bnd => if at_boundary prev s then k prev s g else None
  end.
End Matcher.

(** A match anchored at the position: the text after it and its groups. *)
Definition match_at (r : regex) (prev : option char) (s : str)
  : option (str * list str) :=
  rmatch r prev s [] (fun _ s' g => Some (s', g)).

Definition consumed (s s' : str) : str :=
  firstn (List.length s - List.length s') s.

Record rematch : Type := {
  m_pre : str;            (* the text before the match *)
  m_text : str;           (* group 0 *)
  m_groups : list str;    (* groups 1, 2, ... *)
  m_post : str            (* the text after the match *)
}.

Definition group (m : rematch) (i : nat) : str :=
  match i with
  | O => m_text m
  | S j => nth j (m_groups m) []
  end.

(** [re.search]: the leftmost position with a match. *)
Fixpoint search_from (r : regex) (prev : option char) (pre_rev s : str)
  : option rematch :=
  match match_at r prev s with
  | Some (s', g) =>
      Some {| m_pre := rev pre_rev; m_text := consumed s s';
              m_groups := g; m_post := s' |}
  | None =>
      match s with
      | [] => None
      | c :: s1 => search_from r (Some c) (c :: pre_rev) s1
      end
  end.
Definition search (r : regex) (s : str) : option rematch :=
  search_from r None [] s.

(** [m.group(0) for m in re.finditer(r, s)]: matches from left to right
    without overlap; [skip] counts the characters of the last match still
    to pass.  (No pattern run through [finditer] or [sub] here can match
    the empty string.) *)
Fixpoint findall_from (r : regex) (prev : option char) (s : str)
    (skip : nat) : list str :=
  match skip with
  | S n =>
      match s with
      | c :: s1 => findall_from r (Some c) s1 n
      | [] => []
      end
  | O =>
      match match_at r prev s with
      | Some (s', _) =>
          consumed s s'
            :: match s with
               | c :: s1 =>
                   findall_from r (Some c) s1
                     (List.length (consumed s s') - 1)
               | [] => []
               end
      | None =>
          match s with
          | c :: s1 => findall_from r (Some c) s1 0
          | [] => []
          end
      end
  end.
Definition findall (r : regex) (s : str) : list str :=
  findall_from r None s 0.

(** [re.sub(r, repl, s)] for a literal replacement. *)
Fixpoint sub_from (r : regex) (repl : str) (prev : option char) (s : str)
    (skip : nat) : str :=
  match skip with
  | S n =>
      match s with
      | c :: s1 => sub_from r repl (Some c) s1 n
      | [] => []
      end
  | O =>
      match match_at r prev s with
      | Some (s', _) =>
          repl
            ++ match s with
               | c :: s1 =>
                   (if Nat.eqb (List.length (consumed s s')) 0
                    then [c] else [])
                     ++ sub_from r repl (Some c) s1
                          (List.length (consumed s s') - 1)
               | [] => []
               end
      | None =>
          match s with
          | c :: s1 => c :: sub_from r repl (Some c) s1 0
          | [] => []
          end
      end
  end.
Definition re_sub (r : regex) (repl s : str) : str :=
  sub_from r repl None s 0.

(** *** Pattern combinators *)

Definition seqs (rs : list regex) : regex := fold_right Seq Eps rs.
Definition alts (r : regex) (rs : list regex) : regex := fold_left Alt rs r.

Definition is_char (c x : char) : bool := x =? c.
(** A literal under [re.I]: equal after the simple lower-case mapping. *)
Definition is_char_i (c x : char) : bool := lower_char x =? lower_char c.

Definition word (s : string) : regex := seqs (map (fun c => Chr (is_char c)) (lit s)).
Definition word_i (s : string) : regex := seqs (map (fun c => Chr (is_char_i c)) (lit s)).

Definition opt (p : char -> bool) : regex := Rep p 0 (Some 1%nat).
Definition star (p : char -> bool) : regex := Rep p 0 None.
Definition plus (p : char -> bool) : regex := Rep p 1 None.
Definition times (p : char -> bool) (lo hi : nat) : regex := Rep p lo (Some hi).

(** ** The query synthesizer: [title_to_user_query] *)

Definition BRANDS : list str :=
  map lit ["LIQUI MOLY"; "ALPINESTARS"; "CASTROL"; "TIRRENO"; "MOTUL";
           "FRAM"; "DID"]%string.

(** [sorted(BRANDS, key=len, reverse=True)]: longest first, and brands of
    equal length in the order of [BRANDS] (Python's sort is stable, also
    when reversed). *)
Fixpoint insert_longest_first (b : str) (l : list str) : list str :=
  match l with
  | [] => [b]
  | x :: l' =>
      if (List.length x <=? List.length b)%nat then b :: l
      else x :: insert_longest_first b l'
  end.
Definition sorted_longest_first (l : list str) : list str :=
  fold_right insert_longest_first [] l.

(** The pattern "\b[A-ZÁ-Ú]{3,}\b". *)
Definition re_brand : regex :=
  seqs [Bnd;
        Rep (fun c => in_range (ch "A") (ch "Z") c
                      || in_range (ch "Á") (ch "Ú") c) 3 None;
        Bnd].

(** The pattern "\b(\d{1,2})\s*[W]\s*(\d{2})\b", with [re.I]. *)
Definition re_vis : regex :=
  seqs [Bnd; Grp (times is_digit 1 2); star is_space;
        Chr (is_char_i (ch "W")); star is_space;
        Grp (times is_digit 2 2); Bnd].

(** The pattern "\b(\d+[.,]?\d*)\s*(LITROS?|L|ML|M[L])\b", with [re.I]. *)
Definition re_cap : regex :=
  seqs [Bnd;
        Grp (seqs [plus is_digit;
                   opt (fun c => is_char (ch ".") c || is_char (ch ",") c);
                   star is_digit]);
        star is_space;
        Grp (alts (Seq (word_i "LITRO") (opt (is_char_i (ch "S"))))
                  [word_i "L"; word_i "ML";
                   Seq (word_i "M") (Chr (is_char_i (ch "L")))]);
        Bnd].

(** The pattern "\b\d{3,4}\+?\b". *)
Definition re_num : regex :=
  seqs [Bnd; times is_digit 3 4; opt (is_char (ch "+")); Bnd].

(** The pattern "\bX[- ]?CESS\b". *)
Definition re_xcess : regex :=
  seqs [Bnd; word "X";
        opt (fun c => is_char (ch "-") c || is_char (ch " ") c);
        word "CESS"; Bnd].
(** The patterns "\bGEN2\b", "\b2T\b", "\bC2\s*PLUS\b" and "\bC2\b". *)
Definition re_gen2 : regex := seqs [Bnd; word "GEN2"; Bnd].
Definition re_2t : regex := seqs [Bnd; word "2T"; Bnd].
Definition re_c2plus : regex :=
  seqs [Bnd; word "C2"; star is_space; word "PLUS"; Bnd].
Definition re_c2 : regex := seqs [Bnd; word "C2"; Bnd].

(** The pattern "\b[A-Z]{1,3}\d{3,6}[A-Z]?\b". *)
Definition re_code : regex :=
  seqs [Bnd; times is_ascii_upper 1 3; times is_digit 3 6;
        opt is_ascii_upper; Bnd].

(** The pattern
    "\b(oleo|óleo|lubrificante|spray|de|do|da|para|off|road|sint[ée]tico|4t)\b",
    with [re.I]. *)
Definition re_stop : regex :=
  seqs [Bnd;
        Grp (alts (word_i "oleo")
               [word_i "óleo"; word_i "lubrificante"; word_i "spray";
                word_i "de"; word_i "do"; word_i "da"; word_i "para";
                word_i "off"; word_i "road";
                seqs [word_i "sint";
                      Chr (fun c => is_char_i (ch "é") c
                                    || is_char_i (ch "e") c);
                      word_i "tico"];
                word_i "4t"]);
        Bnd].

(** The pattern "\s+". *)
Definition re_spaces : regex := plus is_space.

Definition found (r : regex) (s : str) : bool :=
  match search r s with Some _ => true | None => false end.

Fixpoint first_brand (bs : list str) (up : str) : option str :=
  match bs with
  | [] => None
  | b :: bs' => if contains b up then Some b else first_brand bs' up
  end.

(** The brand step: the brand found and the working copy [up] after it. *)
Definition brand_of (up : str) : str * str :=
  let '(brand, up1) :=
    match first_brand (sorted_longest_first BRANDS) up with
    | Some b => (title b, strip (replace b (lit " ") up))
    | None => ([], up)
    end in
  if truthy brand then (brand, up1)
  else
    (strip (match search re_brand up1 with
            | Some m => title (group m 0)
            | None => []
            end),
     up1).

Definition viscosidade (up : str) : option str :=
  match search re_vis up with
  | Some m => Some (group m 1 ++ lit "w" ++ group m 2)
  | None => None
  end.

Definition is_liter_unit (unit : str) : bool :=
  eqb_str unit (lit "L") || eqb_str unit (lit "LITRO")
  || eqb_str unit (lit "LITROS").

(** The capacity token for the captured number text [qty] (its comma
    already a point) and the upper-cased unit. *)
Definition cap_token (qty unit : str) : py str :=
  let val := match float_of_str qty with
             | Ret v => Some v
             | Raise _ => None
             end in
  if is_liter_unit unit then
    match val with
    | Some v =>
        if flt (fabs (fsub v f_one)) f_1e_6 then Ret (lit "1 litro")
        else if is_integer v then
          n <- int_of_float v ;; Ret (str_of_Z n ++ lit " litros")
        else Ret (qty ++ lit " litros")
    | None => Ret (qty ++ lit " litro")
    end
  else
    try_except
      (v <- float_of_str qty ;;
       n <- int_of_float v ;;
       Ret (str_of_Z n ++ lit " ml"))
      (Ret (qty ++ lit " ml")).

Definition capacidade (up : str) : py (option str) :=
  match search re_cap up with
  | Some m =>
      c <- cap_token (replace (lit ",") (lit ".") (group m 1))
             (upper (group m 2)) ;;
      Ret (Some c)
  | None => Ret None
  end.

(** The model and code tokens gathered before the product-code test. *)
Definition tokens_of (up : str) : list str :=
  findall re_num up
  ++ (if found re_xcess up then [lit "X-Cess"] else [])
  ++ (if found re_gen2 up then [lit "Gen2"] else [])
  ++ (if found re_2t up then [lit "2t"] else [])
  ++ (if found re_c2plus up then [lit "C2 Plus"]
      else if found re_c2 up then [lit "C2"] else []).

Definition extra_tokens (up : str) : list str :=
  (if contains (lit "CHAIN") up && contains (lit "LUBE") up
   then [lit "Chain"; lit "Lube"] else [])
  ++ (if contains (lit "ROAD") up then [lit "Road"] else []).

Definition opt_list (o : option str) : list str :=
  match o with Some x => if truthy x then [x] else [] | None => [] end.

(** The stop-word cleaning of the original title (the last resort). *)
Definition cleaned_title (s : str) : str :=
  strip (re_sub re_spaces (lit " ") (re_sub re_stop (lit " ") s)).

Definition title_to_user_query (title_ : str) : py str :=
  let s := strip title_ in
  if negb (truthy s) then Ret []
  else
    let '(brand, up) := brand_of (upper s) in
    let vis := viscosidade up in
    cap <- capacidade up ;;
    let tokens := tokens_of up in
    match search re_code up with
    | Some m =>
        Ret (strip (join (lit " ") (filter truthy [brand; group m 0])))
    | None =>
        let parts :=
          [brand] ++ (tokens ++ extra_tokens up) ++ opt_list vis
          ++ opt_list cap in
        let consulta := strip (join (lit " ") (filter truthy parts)) in
        if negb (truthy consulta) || eqb_str (lower consulta) (lower brand)
        then Ret (cleaned_title s)
        else Ret consulta
    end.

(** ** Price text: [parse_preco_texto_to_float] *)

Definition parse_preco_texto_to_float (preco_txt : option str)
  : py (option float) :=
  match preco_txt with
  | None => Ret None
  | Some t =>
      if negb (truthy t) then Ret None
      else
        try_except
          (v <- float_of_str
                  (replace (lit ",") (lit ".") (replace (lit ".") [] t)) ;;
           Ret (Some v))
          (Ret None)
  end.

(** ** Records *)

(** A result card as [extrair_dados_card] returns it. *)
Record candidato : Type := {
  c_titulo : str;
  c_link : option str;
  c_patrocinado : bool;
  c_nota_lista : option float;
  c_avaliacoes_lista : option Z;
  c_preco_lista : option str;
  c_preco_lista_num : option float;
  c_preco_promo_lista : option str;
  c_desc_lista : option str;
  c_tipo_lista : str
}.

(** What the four detail-page extractors return. *)
Record pdp : Type := {
  preco_pdp_txt : option str;
  preco_pdp_num : option float;
  pdp_vendedor : str;
  pdp_vendidos : str;
  nota_pdp : option float;
  total_pdp : option Z
}.

(** A row of the run buffer [todos] (review counts are below 2^53, where
    the float64 column of the report is exact). *)
Record registro : Type := {
  termo_original : str;
  consulta : str;
  patrocinado : str;
  titulo : str;
  preco : option str;
  preco_num : option float;
  preco_promo_lista : option str;
  desc_lista : option str;
  tipo_anuncio : str;
  vendedor : option str;
  vendidos_pdp : str;
  nota_media : option float;
  n_avaliacoes : option Z;
  link : option str
}.

(** [a or b] on an optional text: [a] when it is a non-empty string. *)
Definition or_txt (a b : option str) : option str :=
  match a with
  | Some t => if truthy t then a else b
  | None => b
  end.

(** [a if a is not None else b]. *)
Definition if_not_none {A : Type} (a b : option A) : option A :=
  match a with
  | Some _ => a
  | None => b
  end.

(** The row appended to [todos] for a candidate and its detail page. *)
Definition montar_registro (termo consulta_ : str) (base : candidato)
    (d : pdp) : registro :=
  {| termo_original := termo;
     consulta := consulta_;
     patrocinado := if c_patrocinado base then lit "Sim" else lit "Não";
     titulo := c_titulo base;
     preco := or_txt (c_preco_lista base) (preco_pdp_txt d);
     preco_num := if_not_none (c_preco_lista_num base) (preco_pdp_num d);
     preco_promo_lista := c_preco_promo_lista base;
     desc_lista := c_desc_lista base;
     tipo_anuncio := c_tipo_lista base;
     vendedor := Some (pdp_vendedor d);
     vendidos_pdp := pdp_vendidos d;
     nota_media := if_not_none (c_nota_lista base) (nota_pdp d);
     n_avaliacoes := if_not_none (c_avaliacoes_lista base) (total_pdp d);
     link := c_link base |}.

(** ** Price comparison: [comparar_precos_por_consulta] *)

(** The value under "Nosso menor preço (num)": a number or the empty
    string. *)
Inductive menor_preco : Type :=
| SemMenor
| Menor (p : float).

Record comparado : Type := {
  reg : registro;
  e_nossa_loja : str;
  concorrente_abaixo : str;
  nosso_menor_preco : menor_preco
}.

(** [min] of a non-empty list: an item replaces the best so far when it
    is less than it. *)
Fixpoint min_from (best : float) (l : list float) : float :=
  match l with
  | [] => best
  | x :: l' => min_from (if flt x best then x else best) l'
  end.

Definition or_empty (o : option str) : str :=
  match o with Some t => t | None => [] end.

Definition na_loja (nossas_upper : list str) (r : registro) : bool :=
  existsb (eqb_str (upper (or_empty (vendedor r)))) nossas_upper.

Fixpoint numeric_prices (l : list registro) : list float :=
  match l with
  | [] => []
  | r :: l' =>
      match preco_num r with
      | Some p => p :: numeric_prices l'
      | None => numeric_prices l'
      end
  end.

(** The operator's minimum price [nosso_preco]. *)
Definition nosso_preco_de (registros : list registro)
    (nossas_lojas : list str) : option float :=
  let nossas_upper := map upper nossas_lojas in
  let nossos := filter (na_loja nossas_upper) registros in
  match nossos with
  | [] => None
  | _ :: _ =>
      match numeric_prices nossos with
      | [] => None
      | p :: ps => Some (min_from p ps)
      end
  end.

Definition comparar_um (nossas_upper : list str) (nosso_preco : option float)
    (r : registro) : comparado :=
  let nossa := if na_loja nossas_upper r then lit "Sim" else lit "Não" in
  match nosso_preco, preco_num r with
  | Some m, Some p =>
      if eqb_str nossa (lit "Não") then
        {| reg := r; e_nossa_loja := nossa;
           concorrente_abaixo := if flt p m then lit "Sim" else lit "Não";
           nosso_menor_preco := Menor m |}
      else
        {| reg := r; e_nossa_loja := nossa; concorrente_abaixo := [];
           nosso_menor_preco := Menor m |}
  | _, _ =>
      {| reg := r; e_nossa_loja := nossa; concorrente_abaixo := [];
         nosso_menor_preco :=
           match nosso_preco with Some m => Menor m | None => SemMenor end |}
  end.

Definition comparar_precos_por_consulta (registros : list registro)
    (nossas_lojas : list str) : list comparado :=
  match registros with
  | [] => []
  | _ :: _ =>
      map (comparar_um (map upper nossas_lojas)
             (nosso_preco_de registros nossas_lojas))
          registros
  end.

(** ** Selection of the first N cards: the card loop of [ScraperThread.run] *)

(** One pass of the loop sees the cancellation flag as read at its top and
    the card as [extrair_dados_card] reads it ([Raise] when the pointer
    move or the extraction raises, which the loop logs and passes).
    [selecionar] returns the candidates selected. *)
Fixpoint selecionar_from (first_n : Z) (cards : list (bool * py candidato))
    (vistos_links : list str) (selecionados : list candidato)
  : list candidato :=
  match cards with
  | [] => selecionados
  | (stop, card) :: rest =>
      if stop then selecionados
      else
        match card with
        | Raise _ => selecionar_from first_n rest vistos_links selecionados
        | Ret base =>
            match c_link base with
            | None => selecionar_from first_n rest vistos_links selecionados
            | Some l =>
                if negb (truthy l) || existsb (eqb_str l) vistos_links
                then selecionar_from first_n rest vistos_links selecionados
                else
                  let selecionados' := selecionados ++ [base] in
                  if (first_n <=? Z.of_nat (List.length selecionados'))%Z
                  then selecionados'
                  else selecionar_from first_n rest (l :: vistos_links)
                         selecionados'
            end
        end
  end.

Definition selecionar (first_n : Z) (cards : list (bool * py candidato))
  : list candidato :=
  selecionar_from first_n cards [] [].

(** ** What a pattern denotes *)

(** The character before the position reached after reading [t]. *)
Definition last_char (prev : option char) (t : str) : option char :=
  fold_left (fun _ c => Some c) t prev.

(** [matches r prev t next cs]: the pattern [r] accepts the text [t] when
    [prev] is the character before it and [next] the text after it, and
    closes the groups [cs]. *)
Fixpoint matches (r : regex) (prev : option char) (t next : str)
    (cs : list str) : Prop :=
  match r with
  | Eps => t = [] /\ cs = []
  | Chr p => exists c, t = [c] /\ p c = true /\ cs = []
  | Rep p lo hi =>
      forallb p t = true /\ (lo <= List.length t)%nat
      /\ match hi with
         | Some h => (List.length t <= h)%nat
         | None => True
         end
      /\ cs = []
  | Seq r1 r2 =>
      exists t1 t2 c1 c2,
        t = t1 ++ t2 /\ cs = c1 ++ c2
        /\ matches r1 prev t1 (t2 ++ next) c1
        /\ matches r2 (last_char prev t1) t2 next c2
  | Alt r1 r2 => matches r1 prev t next cs \/ matches r2 prev t next cs
  | Grp r1 => exists c1, cs = c1 ++ [t] /\ matches r1 prev t next c1
  | Bnd => t = [] /\ cs = [] /\ at_boundary prev next = true
  end.

(** The text [s] has an occurrence of the pattern [r]. *)
Definition occurs (r : regex) (s : str) : Prop :=
  exists pre t post cs,
    s = pre ++ t ++ post /\ matches r (last_char None pre) t post cs.

(** ** The words of the specification, for comparison with the code *)

(** "Removing every '.'" and "replacing every ',' with '.'". *)
Definition sem_pontos (t : str) : str :=
  filter (fun c => negb (c =? ch ".")) t.
Definition virgula_para_ponto (t : str) : str :=
  map (fun c => if c =? ch "," then ch "." else c) t.

(** The floats written [1234.56], [15.0] and [1.5]. *)
Definition f_1234_56 : float := S754_finite false 5429652300748554 (-42).
Definition f_15 : float := S754_finite false 8444249301319680 (-49).
Definition f_1_5 : float := S754_finite false 6755399441055744 (-52).

(** The title shows nothing the synthesizer recognises: no brand, grade,
    capacity, token or product code. *)
Definition unrecognised (s : str) : Prop :=
  let '(brand, up) := brand_of (upper s) in
  brand = [] /\ viscosidade up = None /\ search re_cap up = None
  /\ tokens_of up = [] /\ extra_tokens up = [] /\ search re_code up = None.


(** A text with no white space at its start, or at its end. *)
Definition head_not_space (s : str) : Prop :=
  match s with c :: _ => is_space c = false | [] => True end.
Definition last_not_space (s : str) : Prop := head_not_space (rev s).


(** A product code: one to three capital letters, three to six digits and
    at most one more capital letter. *)
Definition is_product_code (t : str) : Prop :=
  exists ls ds os,
    t = ls ++ ds ++ os
    /\ forallb is_ascii_upper ls = true
    /\ (1 <= List.length ls <= 3)%nat
    /\ forallb is_digit ds = true
    /\ (3 <= List.length ds <= 6)%nat
    /\ forallb is_ascii_upper os = true
    /\ (List.length os <= 1)%nat.

(** The text [up] holds the product code [code] as a token: with a word
    boundary on either side. *)
Definition code_token_in (up code : str) : Prop :=
  exists pre post,
    up = pre ++ code ++ post
    /\ is_product_code code
    /\ at_boundary (last_char None pre) (code ++ post) = true
    /\ at_boundary (last_char (last_char None pre) code) post = true.

(** A text without white space. *)
Definition no_space (t : str) : Prop := Forall (fun c => is_space c = false) t.


Definition head_not_spaceb (s : str) : bool :=
  match s with c :: _ => negb (is_space c) | [] => true end.


(** A number as the capacity pattern reads it: digits, at most one point
    or comma, and more digits. *)
Definition is_number_text (q : str) : Prop :=
  exists d1 sep d2,
    q = d1 ++ sep ++ d2
    /\ forallb is_digit d1 = true /\ (1 <= List.length d1)%nat
    /\ forallb (fun c => is_char (ch ".") c || is_char (ch ",") c) sep = true
    /\ (List.length sep <= 1)%nat
    /\ forallb is_digit d2 = true.

(** A unit as the capacity pattern reads it, in any case: LITRO, LITROS,
    L or ML. *)
Definition is_unit_text (u : str) : Prop :=
  lower u = lit "litro" \/ lower u = lit "litros" \/ lower u = lit "l"
  \/ lower u = lit "ml".

(** The text [up] holds a capacity: the number [q], white space if any and
    the unit [u], with a word boundary on either side. *)
Definition capacity_in (up q u : str) : Prop :=
  exists pre sp post,
    up = pre ++ (q ++ sp ++ u) ++ post
    /\ is_number_text q
    /\ forallb is_space sp = true
    /\ is_unit_text u
    /\ at_boundary (last_char None pre) ((q ++ sp ++ u) ++ post) = true
    /\ at_boundary (last_char (last_char None pre) (q ++ sp ++ u)) post = true.

(** The capacity token in the words of the specification: [v] is the value
    [float(qty)] of the number text and [liter] tells a litre unit from
    millilitres.  Exactly 1.0 gives "1 litro", another integer value n
    gives "n litros", a fractional value keeps the number text, and
    millilitres give the integer part of the value (the number text when
    the value has none). *)
Definition capacity_claimed (qty : str) (liter : bool) (v : float) : str :=
  if liter then
    if feq v f_one then lit "1 litro"
    else if is_integer v then
      match int_of_float v with
      | Ret n => str_of_Z n ++ lit " litros"
      | Raise _ => qty ++ lit " litros"
      end
    else qty ++ lit " litros"
  else
    match int_of_float v with
    | Ret n => str_of_Z n ++ lit " ml"
    | Raise _ => qty ++ lit " ml"
    end.

(** [abs(val - 1.0) < 1e-6] *)
Definition near_one (v : float) : bool := flt (fabs (fsub v f_one)) f_1e_6.

(** The same with the tolerance of the code: a value within 1e-6 of 1.0
    gives "1 litro". *)
Definition capacity_amended (qty : str) (liter : bool) (v : float) : str :=
  if liter then
    if near_one v then lit "1 litro"
    else if is_integer v then
      match int_of_float v with
      | Ret n => str_of_Z n ++ lit " litros"
      | Raise _ => qty ++ lit " litros"
      end
    else qty ++ lit " litros"
  else
    match int_of_float v with
    | Ret n => str_of_Z n ++ lit " ml"
    | Raise _ => qty ++ lit " ml"
    end.

(** The float read from "1.0000001". *)
Definition f_1_0000001 : float := S754_finite false 4503600077730459 (-52).

(** A token that starts a number and ends in a unit word. *)
Definition solid (s : str) : Prop :=
  s <> [] /\ head_not_space s /\ last_not_space s.


(** The seller of [r] is a monitored store, whatever the case of the
    letters. *)
Definition monitorado (nossas_lojas : list str) (r : registro) : Prop :=
  exists loja, In loja nossas_lojas
               /\ upper (or_empty (vendedor r)) = upper loja.

(** [p] is the numeric price of a monitored record of the list. *)
Definition preco_monitorado (registros : list registro)
    (nossas_lojas : list str) (p : float) : Prop :=
  exists r, In r registros /\ monitorado nossas_lojas r
            /\ preco_num r = Some p.

Definition is_nan (v : float) : bool :=
  match v with S754_nan => true | _ => false end.

Definition fle (x y : float) : bool := SFleb x y.

(** The floats written [10.0], [12.0], [9.5] and [10.5]. *)
Definition f_10 : float := S754_finite false 5629499534213120 (-49).
Definition f_12 : float := S754_finite false 6755399441055744 (-49).
Definition f_9_5 : float := S754_finite false 5348024557502464 (-49).
Definition f_10_5 : float := S754_finite false 5910974510923776 (-49).

(** The records of the comparison example: the operator's store sells at
    10.0 and 12.0, two competitors at 9.5 and 10.5. *)
Definition registro_de (vend : option str) (p : option float) : registro :=
  {| termo_original := lit "oleo 5w30"; consulta := lit "Motul 5w30";
     patrocinado := lit "Não"; titulo := lit "Oleo";
     preco := None; preco_num := p; preco_promo_lista := None;
     desc_lista := None; tipo_anuncio := lit "Clássico";
     vendedor := vend; vendidos_pdp := lit "0"; nota_media := None;
     n_avaliacoes := None; link := Some (lit "https://x/1") |}.

Definition exemplo_registros : list registro :=
  [registro_de (Some (lit "Minha Loja")) (Some f_12);
   registro_de (Some (lit "Outra")) (Some f_9_5);
   registro_de (Some (lit "MINHA LOJA")) (Some f_10);
   registro_de (Some (lit "Terceira")) (Some f_10_5)].

(** ** The selection, in the words of the specification *)

(** The card has a link (not [None], not empty), and the link. *)
Definition tem_link (c : candidato) : bool :=
  match c_link c with Some l => truthy l | None => false end.
Definition link_de (c : candidato) : str := or_empty (c_link c).

(** "First-seen-link wins; later duplicates dropped": the cards with a
    link, without those whose link is among [vistos] or was seen before. *)
Fixpoint sem_repetir (vistos : list str) (cs : list candidato)
  : list candidato :=
  match cs with
  | [] => []
  | c :: cs' =>
      if tem_link c && negb (existsb (eqb_str (link_de c)) vistos)
      then c :: sem_repetir (link_de c :: vistos) cs'
      else sem_repetir vistos cs'
  end.

(** The cards looked at before the cancellation flag is seen set, and
    those of them that were read without an error. *)
Fixpoint ate_parada (cards : list (bool * py candidato))
  : list (py candidato) :=
  match cards with
  | [] => []
  | (stop, c) :: rest => if stop then [] else c :: ate_parada rest
  end.

Fixpoint lidos (l : list (py candidato)) : list candidato :=
  match l with
  | [] => []
  | Ret c :: l' => c :: lidos l'
  | Raise _ :: l' => lidos l'
  end.

(** A list of cards read without error and with no cancellation. *)
Definition como_cards (cs : list candidato) : list (bool * py candidato) :=
  map (fun c => (false, Ret c)) cs.

(** ** The merge, in the words of the specification *)

Definition presente_txt (o : option str) : bool :=
  match o with Some t => truthy t | None => false end.
Definition presente {A : Type} (o : option A) : bool :=
  match o with Some _ => true | None => false end.

(** Which fields of a candidate are populated, and the same fields of the
    merged row, in the same order. *)
Definition campos_candidato (c : candidato) : list bool :=
  [truthy (c_titulo c); presente_txt (c_link c); true;
   presente (c_nota_lista c); presente (c_avaliacoes_lista c);
   presente_txt (c_preco_lista c); presente (c_preco_lista_num c);
   presente_txt (c_preco_promo_lista c); presente_txt (c_desc_lista c);
   truthy (c_tipo_lista c)].

Definition campos_registro (r : registro) : list bool :=
  [truthy (titulo r); presente_txt (link r); truthy (patrocinado r);
   presente (nota_media r); presente (n_avaliacoes r);
   presente_txt (preco r); presente (preco_num r);
   presente_txt (preco_promo_lista r); presente_txt (desc_lista r);
   truthy (tipo_anuncio r)].

Definition populated (fields : list bool) : nat :=
  List.length (filter (fun b => b) fields).

(** ** The final ordering: [DataFrame.sort_values] and the report *)

(** Python's order on strings: by code point, a prefix first. *)
Fixpoint str_compare (a b : str) : comparison :=
  match a, b with
  | [], [] => Eq
  | [], _ :: _ => Lt
  | _ :: _, [] => Gt
  | x :: a', y :: b' =>
      match N.compare x y with
      | Eq => str_compare a' b'
      | o => o
      end
  end.

(** [pd.to_numeric(..., errors="coerce")]: a missing value and NaN are
    the same missing key. *)
Definition chave_nota (x : option float) : option float :=
  match x with
  | Some f => if is_nan f then None else Some f
  | None => None
  end.

(** Descending order with the missing keys last ([ascending=False],
    [na_position="last"]). *)
Definition cmp_nota_desc (x y : option float) : comparison :=
  match chave_nota x, chave_nota y with
  | None, None => Eq
  | None, Some _ => Gt
  | Some _, None => Lt
  | Some a, Some b =>
      match SFcompare b a with Some o => o | None => Eq end
  end.

Definition cmp_total_desc (x y : option Z) : comparison :=
  match x, y with
  | None, None => Eq
  | None, Some _ => Gt
  | Some _, None => Lt
  | Some a, Some b => Z.compare b a
  end.

(** Lexicographic combination of two comparisons. *)
Definition lex {A : Type} (c1 c2 : A -> A -> comparison) (a b : A)
  : comparison :=
  match c1 a b with
  | Eq => c2 a b
  | o => o
  end.

(** The sort keys of the report: "Termo original" and "Patrocinado"
    ascending, then "Nota média (ord)" and "Nº avaliações (ord)"
    descending. *)
Definition cmp_registro : registro -> registro -> comparison :=
  lex (fun a b => str_compare (termo_original a) (termo_original b))
    (lex (fun a b => str_compare (patrocinado a) (patrocinado b))
       (lex (fun a b => cmp_nota_desc (nota_media a) (nota_media b))
          (fun a b => cmp_total_desc (n_avaliacoes a) (n_avaliacoes b)))).

Definition antes_ou_igual (a b : registro) : bool :=
  match cmp_registro a b with Gt => false | _ => true end.

Definition mesmas_chaves (a b : registro) : bool :=
  match cmp_registro a b with Eq => true | _ => false end.

(** [sort_values] on several columns is a stable sort: a row goes before
    the first row that does not come strictly before it, rows being
    inserted from the last to the first. *)
Fixpoint inserir (x : registro) (l : list registro) : list registro :=
  match l with
  | [] => [x]
  | y :: l' => if antes_ou_igual x y then x :: l else y :: inserir x l'
  end.

Definition sort_values (l : list registro) : list registro :=
  fold_right inserir [] l.

(** [Series.unique]: the values in the order of their first appearance. *)
Fixpoint unique (l : list str) : list str :=
  match l with
  | [] => []
  | x :: l' => x :: filter (fun y => negb (eqb_str y x)) (unique l')
  end.

Definition do_termo (t : str) (r : registro) : bool :=
  eqb_str (termo_original r) t.

(** The final report: the sorted rows, compared term by term. *)
Definition consolidar (todos : list registro) (nossas_lojas : list str)
  : list comparado :=
  let df := sort_values todos in
  flat_map
    (fun termo =>
       comparar_precos_por_consulta (filter (do_termo termo) df)
         nossas_lojas)
    (unique (map termo_original df)).

(** A comparison that is an order: symmetric, with [Eq] an equivalence it
    respects, and transitive. *)
Record is_order {A : Type} (c : A -> A -> comparison) : Prop := {
  ord_sym : forall a b, c b a = CompOpp (c a b);
  ord_eq : forall a b x, c a b = Eq -> c a x = c b x;
  ord_lt : forall a b x, c a b = Lt -> c b x = Lt -> c a x = Lt
}.

(** Sorted by the keys of the report. *)
Definition ordenado (l : list registro) : Prop :=
  StronglySorted (fun a b => antes_ou_igual a b = true) l.


Definition termo_le (a b : registro) : Prop :=
  str_compare (termo_original a) (termo_original b) <> Gt.


(** ** The browser, the observer and the run *)

(** What the worker does is kept as a trace of events.  The browser, the
    pages and the observer's cancellation flag are the environment: what
    they answer may depend on the moment they are asked, which is the
    number of events so far.  [ELaunch] stands for the set-up before the
    Term loop (the output directory, the browser, its context and its two
    pages); the cards of a listing come with what [extrair_dados_card]
    reads from each; the pauses and the pointer moves, which swallow
    their own exceptions, are single events. *)

(** A call returns, raises Playwright's timeout, or raises something
    else. *)
Inductive outcome : Set := Done | TimedOut | Failed.

Inductive log_msg : Type :=
| LogAntibot                       (* "Anti-bot na PDP; pulando link." *)
| LogNaoPronta (attempt max : nat) (* "PDP não ficou pronta (tentativa a/m)." *)
| LogErroPdp (attempt max : nat)   (* "Erro ao abrir PDP (tentativa a/m)" *)
| LogSemTermos
| LogContexto
| LogInterrompido                  (* "Interrompido pelo usuário." *)
| LogTermoVazio (termo : str)
| LogBusca (termo consulta_ : str)
| LogUrl (url : str)
| LogTimeoutBusca
| LogCards (n : nat)
| LogErroCard (i : nat)
| LogProcessando (n : nat)
| LogCandidato (j n : nat)
| LogFalhaPdp                      (* "Falha ao abrir PDP; seguindo." *)
| LogParcial
| LogErroPdps                      (* "Erro ao processar PDPs" *)
| LogNenhum
| LogFinalizado
| LogFatal.

(** The three loops of [run] that read the cancellation flag. *)
Inductive loop : Set := NoTermo | NoCard | NoCandidato.

Inductive event : Type :=
| ECheckStop (l : loop) (set : bool) (* [stop_evt.is_set()] and its answer *)
| EGoto (detail : bool) (url wait_until : str)
| ECookies
| EWheel (dy : Z)
| EInnerText (answer : py (option str))  (* [inner_text("body")] *)
| EScreenshot
| EWait (selector state : str) (timeout : Z)
| EReload
| EHumanize                        (* pointer moves, scrolls, pauses *)
| ESleep
| EGetCards
| ECard (i : nat)                  (* [extrair_dados_card] on card [i] *)
| EExtract                         (* the four detail-page extractors *)
| EAppend (r : registro)           (* [todos.append(...)] *)
| ELaunch
| EClose
| EWritePartial
| EWriteFinal
| ELog (m : log_msg)
| EProgress (cur total : nat).

Record env : Type := {
  stop_is_set : nat -> bool;
  goto_result : nat -> outcome;
  wheel_result : nat -> outcome;
  body_text : nat -> py (option str);
  screenshot_result : nat -> outcome;
  wait_result : str -> str -> nat -> outcome;
  reload_result : nat -> outcome;
  cards_at : nat -> py (list (py candidato));
  preco_pdp_at : nat -> py (option str);
  vendedor_at : nat -> str;
  vendidos_at : nat -> py str;
  avaliacoes_at : nat -> option float * option Z;
  launch_result : nat -> outcome;
  close_result : nat -> outcome;
  excel_result : nat -> outcome
}.

(** *** State and exceptions *)

Definition St (S A : Type) : Type := S -> py A * S.

Definition sret {S A : Type} (a : A) : St S A := fun s => (Ret a, s).

Definition sraise {S A : Type} (e : exn) : St S A := fun s => (Raise e, s).

Definition sbind {S A B : Type} (c : St S A) (k : A -> St S B) : St S B :=
  fun s =>
    match c s with
    | (Ret a, s') => k a s'
    | (Raise e, s') => (Raise e, s')
    end.

Notation "x <~ c ;; k" := (sbind c (fun x => k))
  (at level 61, c at next level, right associativity).
Notation "c ;;; k" := (sbind c (fun _ => k))
  (at level 61, right associativity).

(** [try: c / except Exception: h]. *)
Definition scatch {S A : Type} (c : St S A) (h : St S A) : St S A :=
  fun s =>
    match c s with
    | (Ret a, s') => (Ret a, s')
    | (Raise _, s') => h s'
    end.

(** [try: c / except PWTimeout: h]. *)
Definition scatch_timeout {S A : Type} (c : St S A) (h : St S A) : St S A :=
  fun s =>
    match c s with
    | (Ret a, s') => (Ret a, s')
    | (Raise PlaywrightTimeout, s') => h s'
    | (Raise e, s') => (Raise e, s')
    end.

(** *** The page layer: computations on the trace *)

Definition T (A : Type) : Type := St (list event) A.

Definition emit (e : event) : T unit := fun tr => (Ret tt, tr ++ [e]).

Definition raise_of (o : outcome) : py unit :=
  match o with
  | Done => Ret tt
  | TimedOut => Raise PlaywrightTimeout
  | Failed => Raise OtherError
  end.

(** A call to the browser: the event, and the answer of that moment. *)
Definition call (e : event) (answer : nat -> outcome) : T unit :=
  fun tr => (raise_of (answer (List.length tr)), tr ++ [e]).

Definition log_if (log : bool) (m : log_msg) : T unit :=
  if log then emit (ELog m) else sret tt.

Definition PDP_READY_SELECTORS : list str :=
  map lit ["h1.ui-pdp-title";
           "span.ui-pdp-price__second-line .andes-money-amount__fraction";
           "button[aria-label*='Comprar' i]";
           "button[title*='Comprar' i]";
           "div.ui-pdp-price__second-line"]%string.

Definition ANTI_BOT_HINTS : list str :=
  map lit ["verifique que você não é um robô";
           "não somos um robô";
           "acessar o mercado livre";
           "acesso temporariamente bloqueado";
           "verificação de segurança";
           "captcha"]%string.

(** [any(h in txt for h in ANTI_BOT_HINTS)] *)
Definition has_hint (txt : str) : bool :=
  existsb (fun h => contains h txt) ANTI_BOT_HINTS.

Definition aceitar_cookies : T unit := emit ECookies.

Definition looks_like_antibot (E : env) : T bool :=
  fun tr =>
    let answer := body_text E (List.length tr) in
    (match answer with
     | Ret txt => Ret (has_hint (lower (or_empty txt)))
     | Raise _ => Ret false
     end,
     tr ++ [EInnerText answer]).

(** One [wait_for_selector] per selector, the first that does not time
    out wins. *)
Fixpoint wait_first (E : env) (sels : list str) (state : str) (timeout : Z)
  : T bool :=
  match sels with
  | [] => sret false
  | sel :: rest =>
      scatch_timeout
        (call (EWait sel state timeout) (wait_result E sel state) ;;;
         sret true)
        (wait_first E rest state timeout)
  end.

Definition wait_pdp_ready (E : env) : T bool :=
  ready <~ wait_first E [lit "h1.ui-pdp-title"] (lit "visible") 8000 ;;
  if ready then sret true
  else
    ready <~ wait_first E PDP_READY_SELECTORS (lit "visible") 6000 ;;
    if ready then sret true
    else wait_first E PDP_READY_SELECTORS (lit "attached") 5000.

(** Load and settle: the navigation with its looser retry, the cookie
    prompt and the two scroll nudges. *)
Definition load_and_settle (E : env) (link_ : str) : T unit :=
  scatch_timeout
    (call (EGoto true link_ (lit "load")) (goto_result E))
    (call (EGoto true link_ (lit "networkidle")) (goto_result E)) ;;;
  scatch
    (aceitar_cookies ;;;
     call (EWheel 300) (wheel_result E) ;;;
     call (EWheel 600) (wheel_result E))
    (sret tt).

Definition try_screenshot (E : env) : T unit :=
  scatch (call EScreenshot (screenshot_result E)) (sret tt).

(** What follows load and settle in one attempt: [Some b] when
    [open_pdp] returns [b], [None] when the attempt is used up. *)
Definition after_settle (E : env) (attempt attempt_max : nat) (log : bool)
  : T (option bool) :=
  antibot <~ looks_like_antibot E ;;
  if antibot then
    try_screenshot E ;;;
    log_if log LogAntibot ;;;
    sret (Some false)
  else
    ready <~ wait_pdp_ready E ;;
    if ready then sret (Some true)
    else
      scatch_timeout (call EReload (reload_result E)) (sret tt) ;;;
      ready <~ wait_pdp_ready E ;;
      if ready then sret (Some true)
      else
        try_screenshot E ;;;
        log_if log (LogNaoPronta attempt attempt_max) ;;;
        sret None.

(** The body of the attempt loop, with its [except Exception]. *)
Definition tentativa (E : env) (link_ : str) (attempt attempt_max : nat)
    (log : bool) : T (option bool) :=
  scatch
    (load_and_settle E link_ ;;; after_settle E attempt attempt_max log)
    (log_if log (LogErroPdp attempt attempt_max) ;;; sret None).

Fixpoint open_pdp_from (E : env) (link_ : str) (attempt remaining : nat)
    (attempt_max : nat) (log : bool) : T bool :=
  match remaining with
  | O => sret false
  | S k =>
      r <~ tentativa E link_ attempt attempt_max log ;;
      match r with
      | Some b => sret b
      | None => open_pdp_from E link_ (S attempt) k attempt_max log
      end
  end.

Definition open_pdp (E : env) (link_ : str) (attempt_max : nat) (log : bool)
  : T bool :=
  open_pdp_from E link_ 1 attempt_max attempt_max log.

(** The four extractors of the detail page. *)
Definition answer_of {A : Type} (f : nat -> py A) : T A :=
  fun tr => (f (List.length tr), tr).

Definition extrair_pdp (E : env) : T pdp :=
  emit EExtract ;;;
  txt <~ answer_of (preco_pdp_at E) ;;
  num <~ (fun tr => (parse_preco_texto_to_float txt, tr)) ;;
  vend <~ answer_of (fun t => Ret (vendedor_at E t)) ;;
  vendidos <~ answer_of (vendidos_at E) ;;
  aval <~ answer_of (fun t => Ret (avaliacoes_at E t)) ;;
  sret {| preco_pdp_txt := txt; preco_pdp_num := num;
          pdp_vendedor := vend; pdp_vendidos := vendidos;
          nota_pdp := fst aval; total_pdp := snd aval |}.

Definition check_stop (E : env) (l : loop) : T bool :=
  fun tr =>
    let set := stop_is_set E (List.length tr) in
    (Ret set, tr ++ [ECheckStop l set]).

(** The card loop, with its events: the flag at the top, the pointer move
    and the extraction in a [try], the error logged and passed. *)
Fixpoint selecionar_cards (E : env) (first_n : Z) (cards : list (py candidato))
    (i : nat) (vistos_links : list str) (selecionados : list candidato)
  : T (list candidato) :=
  match cards with
  | [] => sret selecionados
  | card :: rest =>
      stop <~ check_stop E NoCard ;;
      if stop then sret selecionados
      else
        emit (ECard i) ;;;
        match card with
        | Raise _ =>
            emit (ELog (LogErroCard i)) ;;;
            selecionar_cards E first_n rest (S i) vistos_links selecionados
        | Ret base =>
            match c_link base with
            | None =>
                selecionar_cards E first_n rest (S i) vistos_links
                  selecionados
            | Some l =>
                if negb (truthy l) || existsb (eqb_str l) vistos_links
                then selecionar_cards E first_n rest (S i) vistos_links
                       selecionados
                else
                  let selecionados' := selecionados ++ [base] in
                  if (first_n <=? Z.of_nat (List.length selecionados'))%Z
                  then sret selecionados'
                  else selecionar_cards E first_n rest (S i)
                         (l :: vistos_links) selecionados'
            end
        end
  end.

(** *** The run layer: the buffer and the artifacts *)

Record JobConfig : Type := {
  first_n : Z;
  raw_queries : bool;
  mini_pausas : bool;
  scroll_pages : bool;
  nossas_lojas : list str
}.

Record world : Type := {
  trace : list event;
  todos : list registro;                  (* the run buffer *)
  parcial : option (list registro);       (* resultado_curvaA_parcial *)
  final : option (list comparado)         (* resultado_curvaA *)
}.

Definition M (A : Type) : Type := St world A.

Definition lift {A : Type} (c : T A) : M A :=
  fun w =>
    let '(r, tr) := c (trace w) in
    (r, {| trace := tr; todos := todos w; parcial := parcial w;
           final := final w |}).

Definition self_log (m : log_msg) : M unit := lift (emit (ELog m)).
Definition progress (cur total : nat) : M unit :=
  lift (emit (EProgress cur total)).

(** [todos.append(r)] *)
Definition append_todos (r : registro) : M unit :=
  lift (emit (EAppend r)) ;;;
  (fun w =>
     (Ret tt, {| trace := trace w; todos := todos w ++ [r];
                 parcial := parcial w; final := final w |})).

Definition get_todos : M (list registro) := fun w => (Ret (todos w), w).

(** [df_parcial.to_excel(parcial_path)] *)
Definition write_parcial (E : env) (rows : list registro) : M unit :=
  lift (call EWritePartial (excel_result E)) ;;;
  (fun w =>
     (Ret tt, {| trace := trace w; todos := todos w; parcial := Some rows;
                 final := final w |})).

(** [df_final.to_excel(final_path)] *)
Definition write_final (E : env) (rows : list comparado) : M unit :=
  lift (call EWriteFinal (excel_result E)) ;;;
  (fun w =>
     (Ret tt, {| trace := trace w; todos := todos w; parcial := parcial w;
                 final := Some rows |})).

Definition humanize (on : bool) : M unit :=
  if on then lift (emit EHumanize) else sret tt.

(** The candidate loop. *)
Fixpoint processar_candidatos (E : env) (cfg : JobConfig)
    (termo consulta_ : str) (selecionados : list candidato) (j total : nat)
  : M unit :=
  match selecionados with
  | [] => sret tt
  | base :: rest =>
      stop <~ lift (check_stop E NoCandidato) ;;
      if stop then sret tt
      else
        self_log (LogCandidato j total) ;;;
        ok <~ lift (open_pdp E (link_de base) 3 true) ;;
        if negb ok then
          self_log LogFalhaPdp ;;;
          processar_candidatos E cfg termo consulta_ rest (S j) total
        else
          humanize (scroll_pages cfg) ;;;
          humanize (mini_pausas cfg) ;;;
          d <~ lift (extrair_pdp E) ;;
          append_todos (montar_registro termo consulta_ base d) ;;;
          lift (emit ESleep) ;;;
          processar_candidatos E cfg termo consulta_ rest (S j) total
  end.

(** The checkpoint: [if todos:], the write and its log line. *)
Definition salvar_parcial (E : env) : M unit :=
  rows <~ get_todos ;;
  match rows with
  | [] => sret tt
  | _ :: _ => write_parcial E rows ;;; self_log LogParcial
  end.

(** The [try] around the candidate loop and the checkpoint. *)
Definition processar_selecionados (E : env) (cfg : JobConfig)
    (termo consulta_ : str) (selecionados : list candidato) : M unit :=
  scatch
    (processar_candidatos E cfg termo consulta_ selecionados 1
       (List.length selecionados) ;;;
     salvar_parcial E)
    (self_log LogErroPdps).

Definition SEARCH_BASE : str := lit "https://lista.mercadolivre.com.br/".

(** One pass of the Term loop after its cancellation check.
    ([quote_plus] is left out of the address, which no property reads.) *)
Definition processar_termo (E : env) (cfg : JobConfig) (idx total : nat)
    (termo : str) : M unit :=
  consulta_ <~ (fun w =>
                  (if raw_queries cfg then Ret (strip termo)
                   else title_to_user_query termo, w)) ;;
  if negb (truthy consulta_) then
    self_log (LogTermoVazio termo) ;;; progress idx total
  else
    self_log (LogBusca termo consulta_) ;;;
    self_log (LogUrl (SEARCH_BASE ++ consulta_)) ;;;
    found_page <~
      scatch_timeout
        (lift (call (EGoto false (SEARCH_BASE ++ consulta_)
                       (lit "domcontentloaded")) (goto_result E)) ;;;
         lift aceitar_cookies ;;;
         lift (call (EWait (lit "main") (lit "visible") 15000)
                 (wait_result E (lit "main") (lit "visible"))) ;;;
         sret true)
        (self_log LogTimeoutBusca ;;; progress idx total ;;; sret false) ;;
    if negb found_page then sret tt
    else
      humanize (scroll_pages cfg) ;;;
      humanize (mini_pausas cfg) ;;;
      lift (emit EGetCards) ;;;
      cards <~ lift (answer_of (cards_at E)) ;;
      self_log (LogCards (List.length cards)) ;;;
      match cards with
      | [] => progress idx total
      | _ :: _ =>
          selecionados <~
            lift (selecionar_cards E (first_n cfg) cards 1 [] []) ;;
          match selecionados with
          | [] => progress idx total
          | _ :: _ =>
              self_log (LogProcessando (List.length selecionados)) ;;;
              processar_selecionados E cfg termo consulta_ selecionados ;;;
              progress idx total ;;;
              lift (emit ESleep)
          end
      end.

(** The Term loop. *)
Fixpoint run_termos (E : env) (cfg : JobConfig) (termos : list str)
    (idx total : nat) : M unit :=
  match termos with
  | [] => sret tt
  | termo :: rest =>
      stop <~ lift (check_stop E NoTermo) ;;
      if stop then self_log LogInterrompido
      else
        processar_termo E cfg idx total termo ;;;
        run_termos E cfg rest (S idx) total
  end.

(** What follows the Term loop: the browser is closed and the report is
    consolidated and written. *)
Definition finalizar (E : env) (cfg : JobConfig) (total : nat) : M unit :=
  lift (call EClose (close_result E)) ;;;
  rows <~ get_todos ;;
  match rows with
  | [] => self_log LogNenhum ;;; progress total total
  | _ :: _ =>
      write_final E (consolidar rows (nossas_lojas cfg)) ;;;
      self_log LogFinalizado ;;;
      progress total total
  end.

(** [ScraperThread.run], from the list of terms the loader returned. *)
Definition run (E : env) (cfg : JobConfig) (termos : py (list str)) : M unit :=
  scatch
    (ts <~ (fun w => (termos, w)) ;;
     match ts with
     | [] => self_log LogSemTermos ;;; progress 0 0
     | _ :: _ =>
         lift (call ELaunch (launch_result E)) ;;;
         self_log LogContexto ;;;
         run_termos E cfg ts 1 (List.length ts) ;;;
         finalizar E cfg (List.length ts)
     end)
    (self_log LogFatal ;;; progress 0 0).

Definition mundo_inicial : world :=
  {| trace := []; todos := []; parcial := None; final := None |}.

(** The records the trace says were appended to the buffer. *)
Definition appended (evs : list event) : list registro :=
  flat_map (fun e => match e with EAppend r => [r] | _ => [] end) evs.

(** What the worker still does once it has read the flag as set: it
    reads the flag again, logs, reports progress, pauses between terms,
    writes the checkpoint and the report and closes the browser.  Every
    other event is work: a navigation, a card, an extraction, an append. *)
Definition quiet (e : event) : bool :=
  match e with
  | ECheckStop _ true | ELog _ | EProgress _ _ | ESleep
  | EWritePartial | EWriteFinal | EClose => true
  | _ => false
  end.

(** The flag was read as set. *)
Definition observed (evs : list event) : bool :=
  existsb (fun e => match e with ECheckStop _ true => true | _ => false end)
    evs.

(** Once the flag is set it stays set. *)
Definition stays_set (E : env) : Prop :=
  forall t t' : nat, stop_is_set E t = true -> (t <= t')%nat ->
                     stop_is_set E t' = true.

(** Events that neither read the flag, nor append, nor are the error
    handler of the candidate loop. *)
Definition inert (e : event) : bool :=
  match e with
  | ECheckStop _ _ | EAppend _ | ELog LogErroPdps => false
  | _ => true
  end.

(** The same, appends allowed. *)
Definition calado (e : event) : bool :=
  match e with
  | ECheckStop _ _ | ELog LogErroPdps => false
  | _ => true
  end.

(** The error handler of a candidate loop ran. *)
Definition erro (evs : list event) : bool :=
  existsb (fun e => match e with ELog LogErroPdps => true | _ => false end)
    evs.

(** The candidate loop read the flag as set. *)
Definition viu (evs : list event) : bool :=
  existsb
    (fun e => match e with ECheckStop NoCandidato true => true | _ => false end)
    evs.

(** What follows the first read of the flag as set. *)
Fixpoint after_observed (evs : list event) : list event :=
  match evs with
  | [] => []
  | ECheckStop _ true :: rest => rest
  | _ :: rest => after_observed rest
  end.

Definition calm (evs : list event) : bool :=
  forallb quiet (after_observed evs).

(** The checkpoint artifact holds the whole buffer. *)
Definition fresh (w : world) : Prop :=
  todos w = [] \/ parcial w = Some (todos w).

Definition excel_ok (E : env) : Prop := forall t, excel_result E t = Done.
Definition close_ok (E : env) : Prop := forall t, close_result E t = Done.

Definition returns {A : Type} (r : py A) : Prop :=
  match r with Ret _ => True | Raise _ => False end.

(** A page computation that only adds inert events to the trace. *)
Definition blind {A : Type} (c : T A) : Prop :=
  forall tr, exists evs, snd (c tr) = tr ++ evs /\ forallb inert evs = true.

(** A step of the run that leaves the artifacts alone and only adds
    events that [ok] admits. *)
Definition passa (ok : event -> bool) {A : Type} (c : M A) : Prop :=
  forall w, exists evs,
    trace (snd (c w)) = trace w ++ evs /\
    todos (snd (c w)) = todos w ++ appended evs /\
    parcial (snd (c w)) = parcial w /\
    final (snd (c w)) = final w /\
    forallb ok evs = true.

(** A stretch of the candidate loop. *)
Definition cand_ok (E : env) {A : Type} (c : M A) : Prop :=
  forall w, exists evs,
    trace (snd (c w)) = trace w ++ evs /\
    todos (snd (c w)) = todos w ++ appended evs /\
    parcial (snd (c w)) = parcial w /\
    final (snd (c w)) = final w /\
    erro evs = false /\
    calm evs = true /\
    (observed evs = true ->
     stop_is_set E (List.length (trace (snd (c w)))) = true /\
     returns (fst (c w))).

(** A stretch of the Term loop. *)
Definition termo_ok (E : env) {A : Type} (c : M A) : Prop :=
  forall w, exists evs,
    trace (snd (c w)) = trace w ++ evs /\
    todos (snd (c w)) = todos w ++ appended evs /\
    final (snd (c w)) = final w /\
    calm evs = true /\
    (observed evs = true ->
     stop_is_set E (List.length (trace (snd (c w)))) = true /\
     returns (fst (c w))) /\
    (excel_ok E -> viu evs = true -> fresh (snd (c w))) /\
    (excel_ok E -> erro evs = false -> fresh w -> fresh (snd (c w))).

(** What a stretch does when the flag is set as it starts. *)
Definition parado (E : env) {A : Type} (c : M A) : Prop :=
  forall w, stop_is_set E (List.length (trace w)) = true ->
    exists evs,
      trace (snd (c w)) = trace w ++ evs /\
      forallb quiet evs = true /\
      todos (snd (c w)) = todos w /\
      final (snd (c w)) = final w /\
      returns (fst (c w)) /\
      (excel_ok E -> fresh w -> fresh (snd (c w))).

(** ** A run, for the examples *)

Definition candidato_exemplo (t l : string) : candidato :=
  {| c_titulo := lit t; c_link := Some (lit l); c_patrocinado := false;
     c_nota_lista := None; c_avaliacoes_lista := None;
     c_preco_lista := Some (lit "10"); c_preco_lista_num := Some f_10;
     c_preco_promo_lista := Some (lit "10"); c_desc_lista := None;
     c_tipo_lista := lit "Clássico" |}.

(** A site that answers every call, whose detail pages show [corpo];
    the observer sets the flag at moment [parar_em], the page raises
    under the sold-count extractor from moment [falhar_em] on, and the
    screenshot ends as [shot]. *)
Definition env_exemplo (parar_em falhar_em : nat) (corpo : string)
    (shot : outcome) : env :=
  {| stop_is_set := fun t => (parar_em <=? t)%nat;
     goto_result := fun _ => Done;
     wheel_result := fun _ => Done;
     body_text := fun _ => Ret (Some (lit corpo));
     screenshot_result := fun _ => shot;
     wait_result := fun _ _ _ => Done;
     reload_result := fun _ => Done;
     cards_at := fun _ =>
       Ret [Ret (candidato_exemplo "Oleo A" "https://x/1");
            Ret (candidato_exemplo "Oleo B" "https://x/2")];
     preco_pdp_at := fun _ => Ret (Some (lit "10"));
     vendedor_at := fun _ => lit "Uma Loja";
     vendidos_at := fun t =>
       if (falhar_em <=? t)%nat then Raise OtherError else Ret (lit "5");
     avaliacoes_at := fun _ => (None, None);
     launch_result := fun _ => Done;
     close_result := fun _ => Done;
     excel_result := fun _ => Done |}.

Definition cfg_exemplo : JobConfig :=
  {| first_n := 2; raw_queries := true; mini_pausas := false;
     scroll_pages := false; nossas_lojas := [] |}.

Definition termos_exemplo : list str := [lit "oleo 5w30"; lit "filtro de ar"].

(** The row the first detail page of the example yields. *)
Definition registro_exemplo : registro :=
  montar_registro (lit "oleo 5w30") (lit "oleo 5w30")
    (candidato_exemplo "Oleo A" "https://x/1")
    {| preco_pdp_txt := Some (lit "10"); preco_pdp_num := Some f_10;
       pdp_vendedor := lit "Uma Loja"; pdp_vendidos := lit "5";
       nota_pdp := None; total_pdp := None |}.

(** ** Retention, in the words of the specification *)

(** The record is in the checkpoint artifact; in the final report. *)
Definition no_parcial (w : world) (r : registro) : Prop :=
  exists rows, parcial w = Some rows /\ In r rows.

Definition no_final (w : world) (r : registro) : Prop :=
  exists rows, final w = Some rows /\ In r (map reg rows).

(** The same site and pages, another observer. *)
Definition com_flag (E : env) (flag : nat -> bool) : env :=
  {| stop_is_set := flag;
     goto_result := goto_result E;
     wheel_result := wheel_result E;
     body_text := body_text E;
     screenshot_result := screenshot_result E;
     wait_result := wait_result E;
     reload_result := reload_result E;
     cards_at := cards_at E;
     preco_pdp_at := preco_pdp_at E;
     vendedor_at := vendedor_at E;
     vendidos_at := vendidos_at E;
     avaliacoes_at := avaliacoes_at E;
     launch_result := launch_result E;
     close_result := close_result E;
     excel_result := excel_result E |}.

(** ** Measures of a trace *)

(** A weight for each kind of event a visit to a detail page makes (none
    for the others), and the weight of a trace. *)
Record pesos : Set := {
  w_goto : nat; w_cookies : nat; w_wheel : nat; w_body : nat;
  w_shot : nat; w_wait : nat; w_reload : nat; w_log : nat
}.

Definition f_of (p : pesos) (e : event) : nat :=
  match e with
  | EGoto _ _ _ => w_goto p
  | ECookies => w_cookies p
  | EWheel _ => w_wheel p
  | EInnerText _ => w_body p
  | EScreenshot => w_shot p
  | EWait _ _ _ => w_wait p
  | EReload => w_reload p
  | ELog _ => w_log p
  | _ => 0%nat
  end.

Definition peso (p : pesos) (evs : list event) : nat :=
  list_sum (map (f_of p) evs).

(** How many navigations, body reads, reloads, screenshots, waits and log
    lines a trace holds. *)
Definition gotos : list event -> nat :=
  peso {| w_goto := 1; w_cookies := 0; w_wheel := 0; w_body := 0;
          w_shot := 0; w_wait := 0; w_reload := 0; w_log := 0 |}.
Definition body_reads : list event -> nat :=
  peso {| w_goto := 0; w_cookies := 0; w_wheel := 0; w_body := 1;
          w_shot := 0; w_wait := 0; w_reload := 0; w_log := 0 |}.
Definition reloads : list event -> nat :=
  peso {| w_goto := 0; w_cookies := 0; w_wheel := 0; w_body := 0;
          w_shot := 0; w_wait := 0; w_reload := 1; w_log := 0 |}.
Definition screenshots : list event -> nat :=
  peso {| w_goto := 0; w_cookies := 0; w_wheel := 0; w_body := 0;
          w_shot := 1; w_wait := 0; w_reload := 0; w_log := 0 |}.
Definition waits : list event -> nat :=
  peso {| w_goto := 0; w_cookies := 0; w_wheel := 0; w_body := 0;
          w_shot := 0; w_wait := 1; w_reload := 0; w_log := 0 |}.

Definition is_wait (e : event) : bool :=
  match e with EWait _ _ _ => true | _ => false end.

(** The time the waits of a trace may take at most: the sum of their
    [timeout] arguments, in milliseconds. *)
Definition espera (evs : list event) : Z :=
  fold_right (fun e a => match e with EWait _ _ t => t + a | _ => a end)%Z
    0%Z evs.

(** What the page answered to the waits of a trace that starts at
    moment [n]. *)
Fixpoint respostas (E : env) (n : nat) (evs : list event) : list outcome :=
  match evs with
  | [] => []
  | EWait sel st _ :: rest => wait_result E sel st n :: respostas E (S n) rest
  | _ :: rest => respostas E (S n) rest
  end.

(** A page computation adds events of weight at most [n]. *)
Definition cota (p : pesos) (n : nat) {A : Type} (c : T A) : Prop :=
  forall tr, exists evs, snd (c tr) = tr ++ evs /\ (peso p evs <= n)%nat.

(** ** What a run collects *)

(** The checkpoint artifact, when there is one, is a non-empty start of
    the buffer. *)
Definition coerente (w : world) : Prop :=
  match parcial w with
  | Some p => p <> [] /\ exists q, todos w = p ++ q
  | None => True
  end.

(** Where a row of the buffer comes from: its term, the query made from
    the term, a link and a seller text. *)
Definition origem (cfg : JobConfig) (termo : str) (r : registro) : Prop :=
  termo_original r = termo /\
  (if raw_queries cfg then Ret (strip termo) else title_to_user_query termo)
  = Ret (consulta r) /\
  consulta r <> [] /\
  (exists l, link r = Some l /\ l <> []) /\
  vendedor r <> None.

(** A stretch of the run appends at most [n] rows, all of them [Q], and
    leaves the report alone and the checkpoint a start of the buffer. *)
Definition junta (Q : registro -> Prop) (n : nat) {A : Type} (c : M A)
  : Prop :=
  forall w, exists novos,
    todos (snd (c w)) = todos w ++ novos /\
    Forall Q novos /\
    (List.length novos <= n)%nat /\
    final (snd (c w)) = final w /\
    (coerente w -> coerente (snd (c w))).

(** The cap of the selection: [first_n], and one card when [first_n] is
    less than one, since the loop compares after it appends. *)
Definition cap_of (cfg : JobConfig) : nat := Z.to_nat (Z.max 1 (first_n cfg)).

(** ** Counts read from text: [to_int] *)

(** [int(s)] of a string, in base ten: white space around, a sign, and
    digits with single underscores between them.  CPython refuses a
    string of more than 4300 digits ([sys.get_int_max_str_digits()]). *)
Definition int_max_str_digits : nat := 4300.

Definition int_of_str (s : str) : py Z :=
  let '(neg, body) := parse_sign (strip_by is_float_space s) in
  match digitpart body with
  | Some (ds, []) =>
      if (List.length ds <=? int_max_str_digits)%nat
      then Ret (cond_Zopp neg (Z.of_N (N_of_digits ds)))
      else Raise ValueError
  | _ => Raise ValueError
  end.

(** The class "[\d\.,]". *)
Definition is_count_char (c : char) : bool :=
  is_digit c || (c =? ch ".") || (c =? ch ",").

(** The pattern "(\d[\d\.,]*)". *)
Definition re_count : regex := Grp (Seq (Chr is_digit) (star is_count_char)).

(** [to_int(s, default)]; [default] is [0] or [None] at the call sites. *)
Definition to_int (s : option str) (default : option Z) : py (option Z) :=
  match s with
  | None => Ret default
  | Some t =>
      if negb (truthy t) then Ret default
      else
        let s2 := lower (replace [8239] (lit " ") (replace [160] (lit " ") t)) in
        match search re_count s2 with
        | None => Ret default
        | Some m =>
            let num :=
              replace (lit ",") [] (replace (lit ".") [] (group m 1)) in
            try_except (n <- int_of_str num ;; Ret (Some n)) (Ret default)
        end
  end.

(** What [to_int] does to a character before it searches: the two
    no-break spaces become spaces, the rest is lowered. *)
Definition count_norm_char (c : char) : char :=
  lower_char (if (c =? 160) || (c =? 8239) then 32 else c).

(** The number a run of digits and separators stands for once the
    separators are dropped. *)
Definition digits_value (run : str) : Z :=
  Z.of_N (N_of_digits (map digit_val (filter is_digit run))).

(** The text is empty or starts with a character that is no digit, point
    or comma. *)
Definition ends_count (post : str) : Prop :=
  match post with [] => True | c :: _ => is_count_char c = false end.

(** ** Pages and elements *)

(** What the extractors ask of Playwright: an element (or the page) gives
    its text and its attributes, and finds elements by selector; every
    call may raise. *)
#[local] Unset Elimination Schemes.
Inductive element : Type :=
| Element (text : py (option str))
          (attribute : str -> py (option str))
          (query : str -> py (option element))
          (query_all : str -> py (list element)).
#[local] Set Elimination Schemes.

Definition inner_text (el : element) : py (option str) :=
  match el with Element t _ _ _ => t end.
Definition get_attribute (el : element) (name : str) : py (option str) :=
  match el with Element _ a _ _ => a name end.
Definition query_selector (el : element) (sel : str) : py (option element) :=
  match el with Element _ _ q _ => q sel end.
Definition query_selector_all (el : element) (sel : str) : py (list element) :=
  match el with Element _ _ _ q => q sel end.

(** [t.strip()] on what [inner_text()] gave: [None] has no [strip]. *)
Definition strip_of (t : option str) : py str :=
  match t with
  | Some s => Ret (strip s)
  | None => Raise OtherError
  end.

(** [get_cards]: the result cards, by the first selector that finds any. *)
Definition get_cards (list_page : element) : py (list element) :=
  cards <- query_selector_all list_page
             (lit "li.poly-card, li.ui-search-layout__item") ;;
  match cards with
  | [] => query_selector_all list_page
            (lit "a.ui-search-item__group__element.ui-search-link")
  | _ :: _ => Ret cards
  end.

(** *** A card of the listing: [extrair_dados_card] *)

Definition titulo_de (title_el : option element) : py str :=
  match title_el with
  | Some el => t <- inner_text el ;; s <- strip_of t ;; Ret (strip s)
  | None => Ret (strip [])
  end.

Definition link_do_titulo (title_el : option element) : py (option str) :=
  match title_el with
  | Some el => get_attribute el (lit "href")
  | None => Ret None
  end.

Definition patrocinado_de (card : element) : bool :=
  match query_selector card (lit ".poly-component__ads-promotions") with
  | Ret (Some _) => true
  | _ => false
  end.

(** The rating and the review count of the card: what was read stays
    when a later call raises. *)
Definition avaliacoes_de (card : element) : option float * option Z :=
  match query_selector card (lit "div.poly-component__reviews") with
  | Ret (Some rv) =>
      match query_selector rv (lit ".poly-reviews__rating") with
      | Raise _ => (None, None)
      | Ret nota_txt =>
          let nota :=
            match nota_txt with
            | Some el =>
                match (t <- inner_text el ;;
                       float_of_str
                         (replace (lit ",") (lit ".") (strip (or_empty t))))
                with
                | Ret v => Some v
                | Raise _ => None
                end
            | None => None
            end in
          match query_selector rv (lit ".poly-reviews__total") with
          | Ret (Some tot) =>
              match (t <- inner_text tot ;; to_int t None) with
              | Ret total => (nota, total)
              | Raise _ => (nota, None)
              end
          | _ => (nota, None)
          end
      end
  | _ => (None, None)
  end.

(** The price text of the card. *)
Definition preco_de (card : element) : option str :=
  match query_selector card
          (lit "span.andes-money-amount__fraction, span.price-tag-fraction")
  with
  | Raise _ => None
  | Ret frac =>
      match query_selector card
              (lit "span.andes-money-amount__cents, span.price-tag-cents")
      with
      | Raise _ => None
      | Ret cents =>
          match frac with
          | None => None
          | Some f =>
              match (t <- inner_text f ;; strip_of t) with
              | Raise _ => None
              | Ret p =>
                  match cents with
                  | None => Some p
                  | Some c =>
                      match (t <- inner_text c ;; strip_of t) with
                      | Ret cs => Some (p ++ lit "," ++ cs)
                      | Raise _ => Some p
                      end
                  end
              end
          end
      end
  end.

Definition desconto_de (card : element) : option str :=
  match query_selector card
          (lit ".ui-search-price__discount, .poly-price__discount, .andes-money-amount__discount")
  with
  | Ret (Some el) =>
      match inner_text el with
      | Ret t => Some (strip (or_empty t))
      | Raise _ => None
      end
  | _ => None
  end.

Definition tipo_de (card : element) : str :=
  match query_selector card (lit "span.poly-price__installments") with
  | Ret (Some inst) =>
      match inner_text inst with
      | Ret t =>
          if contains (lit "sem juros") (lower (or_empty t))
          then lit "Premium" else lit "Clássico"
      | Raise _ => lit "Clássico"
      end
  | _ => lit "Clássico"
  end.

Definition extrair_dados_card (card : element) : py candidato :=
  title_el <- query_selector card
                (lit "a.poly-component__title, a.ui-search-link") ;;
  titulo_ <- titulo_de title_el ;;
  link_ <- link_do_titulo title_el ;;
  let preco_txt := preco_de card in
  preco_num_ <- parse_preco_texto_to_float preco_txt ;;
  Ret {| c_titulo := titulo_;
         c_link := link_;
         c_patrocinado := patrocinado_de card;
         c_nota_lista := fst (avaliacoes_de card);
         c_avaliacoes_lista := snd (avaliacoes_de card);
         c_preco_lista := preco_txt;
         c_preco_lista_num := preco_num_;
         c_preco_promo_lista := preco_txt;
         c_desc_lista := desconto_de card;
         c_tipo_lista := tipo_de card |}.

(** *** The detail page: the four extractors *)

(** The first selector of the list under which the page has an element. *)
Fixpoint first_present (page : element) (sels : list str)
  : py (option element) :=
  match sels with
  | [] => Ret None
  | sel :: rest =>
      el <- query_selector page sel ;;
      match el with
      | Some e => Ret (Some e)
      | None => first_present page rest
      end
  end.

Definition parse_preco_pdp (page : element) : py (option str * option float) :=
  el <- first_present page
          (map lit ["span.andes-money-amount__fraction";
                    "span.ui-pdp-price__second-line .andes-money-amount__fraction";
                    "span.price-tag-fraction"]%string) ;;
  preco_txt <-
    match el with
    | None => Ret None
    | Some e =>
        t <- inner_text e ;;
        let frac := strip (or_empty t) in
        cel <- first_present page
                 (map lit ["span.andes-money-amount__cents";
                           "span.ui-pdp-price__second-line .andes-money-amount__cents";
                           "span.price-tag-cents"]%string) ;;
        match cel with
        | None => Ret (Some frac)
        | Some ce =>
            tc <- inner_text ce ;;
            let cents := strip (or_empty tc) in
            Ret (Some (if truthy cents then frac ++ lit "," ++ cents
                       else frac))
        end
    end ;;
  num <- parse_preco_texto_to_float preco_txt ;;
  Ret (preco_txt, num).

Definition NAO_ENCONTRADO : str := lit "Não encontrado".

Definition extrair_vendedor_pdp (page : element) : str :=
  match
    (el <- query_selector page
             (lit "button.ui-pdp-seller__link-trigger-button") ;;
     found <-
       match el with
       | Some e =>
           spans <- query_selector_all e (lit "span") ;;
           match spans with
           | _ :: s1 :: _ =>
               t <- inner_text s1 ;; s <- strip_of t ;; Ret (Some s)
           | _ => Ret None
           end
       | None => Ret None
       end ;;
     match found with
     | Some s => Ret (Some s)
     | None =>
         el2 <- query_selector page (lit "a.ui-pdp-media__action") ;;
         match el2 with
         | Some e => t <- inner_text e ;; Ret (Some (strip (or_empty t)))
         | None => Ret None
         end
     end)
  with
  | Ret (Some s) => s
  | _ => NAO_ENCONTRADO
  end.

(** [str(qtd)]; [qtd] is an integer, the default being [0]. *)
Definition str_of_count (qtd : option Z) : str :=
  match qtd with
  | Some n => str_of_Z n
  | None => lit "None"
  end.

Definition extrair_vendidos_pdp (page : element) : py str :=
  el <- query_selector page (lit "span.ui-pdp-subtitle") ;;
  txt <- match el with
         | Some e => t <- inner_text e ;; strip_of t
         | None => Ret []
         end ;;
  qtd <- to_int (Some txt) (Some 0%Z) ;;
  Ret (str_of_count qtd).

(** The pattern "(\d+(\.\d+)?)"; only its group 1 is read. *)
Definition re_nota : regex :=
  Grp (Seq (plus is_digit)
           (Alt (Seq (Chr (is_char (ch "."))) (plus is_digit)) Eps)).

Definition nota_do_texto (ntxt : str) : option float :=
  match search re_nota ntxt with
  | Some m =>
      match float_of_str (group m 1) with
      | Ret v => Some v
      | Raise _ => None
      end
  | None => None
  end.

Definition extrair_avaliacoes_pdp (page : element) : option float * option Z :=
  match query_selector page
          (lit "span.ui-review-summary__rating, .ui-pdp-review__rating__summary")
  with
  | Raise _ => (None, None)
  | Ret nota_el =>
      match
        match nota_el with
        | Some el =>
            t <- inner_text el ;;
            Ret (nota_do_texto
                   (replace (lit ",") (lit ".") (strip (or_empty t))))
        | None => Ret None
        end
      with
      | Raise _ => (None, None)
      | Ret nota =>
          match query_selector page
                  (lit "span.ui-review-summary__average, .ui-review-capabilities__count")
          with
          | Ret (Some tot) =>
              match (t <- inner_text tot ;; to_int t None) with
              | Ret total => (nota, total)
              | Raise _ => (nota, None)
              end
          | _ => (nota, None)
          end
      end
  end.

(** The four extractors, in the order the candidate loop calls them. *)
Definition extrair_pagina (page : element) : py pdp :=
  p <- parse_preco_pdp page ;;
  let vend := extrair_vendedor_pdp page in
  vendidos <- extrair_vendidos_pdp page ;;
  let aval := extrair_avaliacoes_pdp page in
  Ret {| preco_pdp_txt := fst p; preco_pdp_num := snd p;
         pdp_vendedor := vend; pdp_vendidos := vendidos;
         nota_pdp := fst aval; total_pdp := snd aval |}.

(** ** Scrolling like a person: [human_scroll] *)

(** What the loop draws and is answered at its [i]-th pass: the step
    [int(rand( *step_px))], the jitter
    [random.randint(-jitter_px, jitter_px)], and what
    [page.mouse.wheel(0, step)] does. *)
Record rolagem : Type := {
  passo : nat -> Z;
  tremor : nat -> Z;
  roda : nat -> Z -> py unit
}.

(** The [while] loop from its [i]-th pass, [scrolled] pixels counted so
    far.  The result is the wheel calls made, in order, and the pixels
    counted; [None] when the loop needs more passes than [fuel].  The
    pause after each step takes time and nothing else. *)
Fixpoint human_scroll_loop (R : rolagem) (total_px : Z) (fuel i : nat)
    (scrolled : Z) (calls : list Z) : option (list Z * Z) :=
  if (scrolled <? total_px)%Z then
    match fuel with
    | O => None
    | S fuel' =>
        let step := (passo R i + tremor R i)%Z in
        match roda R i step with
        | Raise _ => Some (calls ++ [step], scrolled)
        | Ret _ =>
            human_scroll_loop R total_px fuel' (S i) (scrolled + step)%Z
              (calls ++ [step])
        end
    end
  else Some (calls, scrolled).

Definition human_scroll (R : rolagem) (total_px : Z) (fuel : nat)
  : option (list Z * Z) :=
  if (total_px <=? 0)%Z then Some ([], 0%Z)
  else human_scroll_loop R total_px fuel 0 0%Z [].

(** ** The terms of the sheet: [load_terms_from_excel] *)

(** A cell of the first column: missing ([pd.isna(x)]), or a value, of
    which the loop reads [str(x)]. *)
Inductive cell : Type :=
| NA
| Valor (texto : str).

(** The loop over the first column. *)
Fixpoint termos_da_coluna (col : list cell) : list str :=
  match col with
  | [] => []
  | NA :: rest => termos_da_coluna rest
  | Valor texto :: rest =>
      let s := strip texto in
      if truthy s && negb (eqb_str (lower s) (lit "nan"))
      then s :: termos_da_coluna rest
      else termos_da_coluna rest
  end.

(** [load_terms_from_excel], from what pandas read: the columns of the
    sheet, or the exception of the reader. *)
Definition load_terms_from_excel (df : py (list (list cell)))
  : py (list str) :=
  cols <- df ;;
  match cols with
  | [] => Ret []
  | col :: _ => Ret (termos_da_coluna col)
  end.

(** * Properties *)

Local Arguments N.eqb : simpl never.
Local Arguments N.leb : simpl never.
Local Arguments N.ltb : simpl never.

(** ** Strings *)

Lemma eqb_str_eq : forall a b, eqb_str a b = true <-> a = b.
Proof.
  induction a as [|x a IH]; destruct b as [|y b]; simpl; split; intro H;
    try reflexivity; try discriminate.
  - apply andb_true_iff in H. destruct H as [H1 H2].
    apply N.eqb_eq in H1. apply IH in H2. congruence.
  - inversion H; subst. rewrite N.eqb_refl. simpl. apply IH. reflexivity.
Qed.

Lemma eqb_str_refl : forall a, eqb_str a a = true.
Proof. intro a. apply eqb_str_eq. reflexivity. Qed.

Lemma last_char_app : forall t1 t2 prev,
  last_char prev (t1 ++ t2) = last_char (last_char prev t1) t2.
Proof. intros. unfold last_char. apply fold_left_app. Qed.

Lemma consumed_app : forall t s', consumed (t ++ s') s' = t.
Proof.
  intros t s'. unfold consumed. rewrite length_app.
  replace (List.length t + List.length s' - List.length s')%nat
    with (List.length t) by lia.
  rewrite firstn_app, firstn_all, Nat.sub_diag. simpl. apply app_nil_r.
Qed.

(** ** The matcher is sound and complete for [matches] *)

Section MatcherFacts.
Variable R : Type.

Lemma rep_sound : forall p s lo hi prev (k : option char -> str -> option R) x,
  rep p lo hi prev s k = Some x ->
  exists t s', s = t ++ s' /\ forallb p t = true /\ (lo <= List.length t)%nat
    /\ match hi with Some h => (List.length t <= h)%nat | None => True end
    /\ k (last_char prev t) s' = Some x.
Proof.
  induction s as [|c s IH]; intros lo hi prev k x H; simpl in H.
  - unfold rep_stop in H. destruct lo; [|discriminate].
    exists [], []. repeat split; auto. destruct hi; simpl; auto; lia.
  - assert (Hstop : rep_stop lo k prev (c :: s) = Some x ->
      exists t s', c :: s = t ++ s' /\ forallb p t = true
        /\ (lo <= List.length t)%nat
        /\ match hi with Some h => (List.length t <= h)%nat | None => True end
        /\ k (last_char prev t) s' = Some x).
    { unfold rep_stop. destruct lo; [|discriminate]. intro Hk.
      exists [], (c :: s). repeat split; auto. destruct hi; simpl; auto; lia. }
    destruct (p c && room hi) eqn:E; [|auto].
    apply andb_true_iff in E. destruct E as [Ep Er].
    destruct (rep p (Nat.pred lo) (option_map Nat.pred hi) (Some c) s k) eqn:E2;
      [|auto].
    inversion H; subst r. apply IH in E2.
    destruct E2 as (t & s' & Hs & Hall & Hlo & Hhi & Hk).
    exists (c :: t), s'. subst s. simpl. rewrite Ep, Hall. repeat split; auto.
    + lia.
    + destruct hi as [[|h]|]; simpl in *; auto; try discriminate. lia.
Qed.

Lemma rmatch_sound : forall r prev s g (k : option char -> str -> list str -> option R) x,
  rmatch r prev s g k = Some x ->
  exists t s' cs, s = t ++ s' /\ matches r prev t s' cs
    /\ k (last_char prev t) s' (g ++ cs) = Some x.
Proof.
  induction r as [|p|p lo hi|r1 IH1 r2 IH2|r1 IH1 r2 IH2|r1 IH1|];
    intros prev s g k x H; simpl in H.
  - exists [], s, []. simpl. rewrite app_nil_r. auto.
  - destruct s as [|c s]; [discriminate|]. destruct (p c) eqn:E; [|discriminate].
    exists [c], s, []. simpl. rewrite app_nil_r. repeat split; eauto.
  - apply rep_sound in H. destruct H as (t & s' & Hs & Hall & Hlo & Hhi & Hk).
    exists t, s', []. rewrite app_nil_r. simpl. repeat split; auto.
  - apply IH1 in H. destruct H as (t1 & s1 & c1 & Hs & Hm1 & Hk).
    apply IH2 in Hk. destruct Hk as (t2 & s2 & c2 & Hs2 & Hm2 & Hk).
    exists (t1 ++ t2), s2, (c1 ++ c2). subst.
    rewrite last_char_app, (app_assoc g c1 c2).
    split; [apply app_assoc|]. split; [|exact Hk].
    simpl. exists t1, t2, c1, c2. auto.
  - destruct (rmatch r1 prev s g k) eqn:E.
    + inversion H; subst r. apply IH1 in E.
      destruct E as (t & s' & cs & ? & ? & ?). exists t, s', cs. simpl. auto.
    + apply IH2 in H.
      destruct H as (t & s' & cs & ? & ? & ?). exists t, s', cs. simpl. auto.
  - apply IH1 in H. destruct H as (t & s' & cs & Hs & Hm & Hk).
    exists t, s', (cs ++ [t]). subst s. fold (consumed (t ++ s') s') in Hk; rewrite consumed_app in Hk.
    rewrite (app_assoc g cs [t]). repeat split; auto. simpl. eauto.
  - destruct (at_boundary prev s) eqn:E; [|discriminate].
    exists [], s, []. simpl. rewrite app_nil_r. auto.
Qed.

Lemma rep_complete : forall p t s' lo hi prev (k : option char -> str -> option R),
  forallb p t = true -> (lo <= List.length t)%nat ->
  match hi with Some h => (List.length t <= h)%nat | None => True end ->
  k (last_char prev t) s' <> None ->
  rep p lo hi prev (t ++ s') k <> None.
Proof.
  induction t as [|c t IH]; intros s' lo hi prev k Hall Hlo Hhi Hk.
  - simpl in *. assert (lo = 0)%nat by lia. subst lo.
    destruct s' as [|c s]; simpl; [exact Hk|].
    destruct (p c && room hi); [|exact Hk].
    destruct (rep p _ _ (Some c) s k); [congruence|exact Hk].
  - simpl in Hall. apply andb_true_iff in Hall. destruct Hall as [Hc Hall].
    simpl. rewrite Hc.
    assert (Hroom : room hi = true).
    { destruct hi as [[|h]|]; simpl in *; auto; lia. }
    rewrite Hroom. simpl.
    assert (Hin : rep p (Nat.pred lo) (option_map Nat.pred hi) (Some c)
                    (t ++ s') k <> None).
    { apply IH; auto.
      - simpl in Hlo. lia.
      - destruct hi as [h|]; simpl in *; auto. lia. }
    destruct (rep p (Nat.pred lo) (option_map Nat.pred hi) (Some c) (t ++ s') k);
      [congruence|contradiction].
Qed.

Lemma rmatch_complete : forall r prev t s' cs
    (k : option char -> str -> list str -> option R),
  matches r prev t s' cs ->
  (forall g, k (last_char prev t) s' g <> None) ->
  forall g, rmatch r prev (t ++ s') g k <> None.
Proof.
  induction r as [|p|p lo hi|r1 IH1 r2 IH2|r1 IH1 r2 IH2|r1 IH1|];
    intros prev t s' cs k Hm Hk g; simpl in Hm.
  - destruct Hm as [-> _]. simpl. apply Hk.
  - destruct Hm as (c & -> & Hp & _). simpl. rewrite Hp. apply Hk.
  - destruct Hm as (Hall & Hlo & Hhi & _). simpl.
    apply rep_complete; auto.
  - destruct Hm as (t1 & t2 & c1 & c2 & -> & _ & Hm1 & Hm2). simpl.
    rewrite <- app_assoc. apply IH1 with (cs := c1); auto.
    intro g'. apply IH2 with (cs := c2); auto.
    intro g''. rewrite <- last_char_app. apply Hk.
  - simpl. destruct Hm as [Hm|Hm].
    + specialize (IH1 _ _ _ _ _ Hm Hk g).
      destruct (rmatch r1 prev (t ++ s') g k); [congruence|contradiction].
    + destruct (rmatch r1 prev (t ++ s') g k); [congruence|].
      apply IH2 with (cs := cs); auto.
  - destruct Hm as (c1 & _ & Hm). simpl.
    apply IH1 with (cs := c1); auto.
  - destruct Hm as (-> & _ & Hb). simpl. rewrite Hb. apply Hk.
Qed.
End MatcherFacts.

Lemma match_at_sound : forall r prev s s' g,
  match_at r prev s = Some (s', g) ->
  exists t, s = t ++ s' /\ matches r prev t s' g.
Proof.
  intros r prev s s' g H. unfold match_at in H.
  apply rmatch_sound in H. destruct H as (t & s1 & cs & Hs & Hm & Hk).
  simpl in Hk. inversion Hk; subst. eauto.
Qed.

Lemma match_at_complete : forall r prev t s' cs,
  matches r prev t s' cs -> match_at r prev (t ++ s') <> None.
Proof.
  intros. unfold match_at. eapply rmatch_complete; eauto.
  intros; discriminate.
Qed.

Lemma match_at_here : forall r prev s s' g,
  match_at r prev s = Some (s', g) ->
  s = consumed s s' ++ s' /\ matches r prev (consumed s s') s' g.
Proof.
  intros r prev s s' g H. apply match_at_sound in H.
  destruct H as (t & Hs & Hm). subst s. rewrite consumed_app. auto.
Qed.

Lemma search_from_sound : forall r s prev pre_rev m,
  search_from r prev pre_rev s = Some m ->
  exists skipped,
    s = skipped ++ m_text m ++ m_post m
    /\ m_pre m = rev pre_rev ++ skipped
    /\ matches r (last_char prev skipped) (m_text m) (m_post m) (m_groups m).
Proof.
  induction s as [|c s IH]; intros prev pre_rev m H; simpl in H.
  - destruct (match_at r prev []) as [[s' g]|] eqn:E; [|discriminate].
    inversion H; subst m; simpl. apply match_at_here in E.
    destruct E as (Hs & Hm). exists []. simpl. rewrite app_nil_r. auto.
  - destruct (match_at r prev (c :: s)) as [[s' g]|] eqn:E.
    + inversion H; subst m; simpl. apply match_at_here in E.
      destruct E as (Hs & Hm). exists []. simpl. rewrite app_nil_r. auto.
    + apply IH in H. destruct H as (sk & Hs & Hpre & Hm).
      exists (c :: sk). simpl. rewrite Hs at 1. split; [reflexivity|].
      split; [|exact Hm]. rewrite Hpre. simpl. rewrite <- app_assoc.
      reflexivity.
Qed.

Lemma search_from_complete : forall r pre t post cs prev pre_rev,
  matches r (last_char prev pre) t post cs ->
  search_from r prev pre_rev (pre ++ t ++ post) <> None.
Proof.
  induction pre as [|c pre IH]; intros t post cs prev pre_rev Hm.
  - simpl in *. apply match_at_complete in Hm.
    destruct (t ++ post) as [|c s]; simpl;
      destruct (match_at r prev _) as [[s' g]|]; try congruence.
  - simpl. destruct (match_at r prev (c :: pre ++ t ++ post)) as [[s' g]|];
      [congruence|].
    eapply IH. exact Hm.
Qed.

(** [re.search] finds a match exactly when the text has an occurrence of
    the pattern, and what it returns is one. *)
Lemma search_sound : forall r s m,
  search r s = Some m ->
  s = m_pre m ++ m_text m ++ m_post m
  /\ matches r (last_char None (m_pre m)) (m_text m) (m_post m) (m_groups m).
Proof.
  intros r s m H. apply search_from_sound in H.
  destruct H as (sk & Hs & Hpre & Hm). simpl in Hpre. subst sk. auto.
Qed.

Lemma search_complete : forall r s, occurs r s -> search r s <> None.
Proof.
  intros r s (pre & t & post & cs & -> & Hm).
  eapply search_from_complete; eauto.
Qed.

Lemma search_none : forall r s, search r s = None -> ~ occurs r s.
Proof. intros r s H Ho. apply search_complete in Ho. contradiction. Qed.

(** ** Strings: [replace], [strip] *)

Lemma replace_single : forall a new t,
  replace [a] new t = flat_map (fun c => if c =? a then new else [c]) t.
Proof.
  intros a new t. unfold replace.
  induction t as [|c t IH]; [reflexivity|].
  cbn [replace_from startswith flat_map List.length Nat.sub].
  rewrite andb_true_r, N.eqb_sym.
  destruct (c =? a); rewrite IH; reflexivity.
Qed.

Lemma replace_dot_nothing : forall t, replace (lit ".") [] t = sem_pontos t.
Proof.
  intro t. change (lit ".") with [ch "."]. rewrite replace_single.
  unfold sem_pontos. induction t as [|c t IH]; [reflexivity|].
  simpl. rewrite IH. destruct (c =? ch "."); reflexivity.
Qed.

Lemma replace_comma_dot : forall t,
  replace (lit ",") (lit ".") t = virgula_para_ponto t.
Proof.
  intro t. change (lit ",") with [ch ","]. rewrite replace_single.
  unfold virgula_para_ponto. induction t as [|c t IH]; [reflexivity|].
  simpl. rewrite IH. destruct (c =? ch ","); reflexivity.
Qed.

Lemma lstrip_head : forall s, head_not_space (lstrip s).
Proof.
  induction s as [|c s IH]; simpl; [exact I|].
  destruct (is_space c) eqn:E; [exact IH|exact E].
Qed.

Lemma lstrip_id : forall s, head_not_space s -> lstrip s = s.
Proof. intros [|c s] H; simpl in *; [reflexivity|]. rewrite H. reflexivity. Qed.

Lemma lstrip_snoc : forall s c,
  is_space c = false -> lstrip (s ++ [c]) = lstrip s ++ [c].
Proof.
  induction s as [|x s IH]; intros c H; simpl.
  - rewrite H. reflexivity.
  - destruct (is_space x); [apply IH; exact H|reflexivity].
Qed.

Lemma rstrip_last : forall s, last_not_space (rstrip s).
Proof.
  intro s. unfold last_not_space, rstrip. rewrite rev_involutive.
  apply lstrip_head.
Qed.

Lemma rstrip_id : forall s, last_not_space s -> rstrip s = s.
Proof.
  intros s H. unfold rstrip. rewrite lstrip_id by exact H.
  apply rev_involutive.
Qed.

Lemma rstrip_cons : forall c s,
  is_space c = false -> rstrip (c :: s) = c :: rstrip s.
Proof.
  intros c s H. unfold rstrip. simpl. rewrite lstrip_snoc by exact H.
  rewrite rev_app_distr. reflexivity.
Qed.

Lemma strip_head : forall s, head_not_space (strip s).
Proof.
  intro s. unfold strip. pose proof (lstrip_head s) as H.
  destruct (lstrip s) as [|c r]; simpl in *.
  - exact I.
  - rewrite rstrip_cons by exact H. exact H.
Qed.

Lemma strip_last : forall s, last_not_space (strip s).
Proof. intro s. apply rstrip_last. Qed.

Lemma strip_id : forall s,
  head_not_space s -> last_not_space s -> strip s = s.
Proof.
  intros s H1 H2. unfold strip. rewrite lstrip_id by exact H1.
  apply rstrip_id. exact H2.
Qed.

Lemma last_not_space_app : forall a b,
  b <> [] -> last_not_space b -> last_not_space (a ++ b).
Proof.
  intros a b Hb H. unfold last_not_space in *. rewrite rev_app_distr.
  destruct (rev b) as [|c r] eqn:E.
  - apply (f_equal (@rev char)) in E. rewrite rev_involutive in E.
    simpl in E. contradiction.
  - exact H.
Qed.

Lemma head_not_space_app : forall a b,
  a <> [] -> head_not_space a -> head_not_space (a ++ b).
Proof. intros [|c a] b Ha H; [contradiction|exact H]. Qed.

Lemma truthy_true : forall s, truthy s = true <-> s <> [].
Proof. intros [|c s]; simpl; split; congruence. Qed.

Lemma truthy_false : forall s, truthy s = false <-> s = [].
Proof. intros [|c s]; simpl; split; congruence. Qed.

(** ** Price text (C10) *)

Lemma parse_preco_spec : forall x,
  parse_preco_texto_to_float x =
  Ret match x with
      | None => None
      | Some t =>
          if truthy t then
            match float_of_str (virgula_para_ponto (sem_pontos t)) with
            | Ret v => Some v
            | Raise _ => None
            end
          else None
      end.
Proof.
  intros [t|]; [|reflexivity]. unfold parse_preco_texto_to_float.
  destruct (truthy t); [|reflexivity]. simpl negb. cbv iota.
  rewrite replace_dot_nothing, replace_comma_dot.
  destruct (float_of_str _); reflexivity.
Qed.


(** ** The query synthesizer never raises (C9) *)

Lemma is_integer_int : forall v,
  is_integer v = true -> exists n, int_of_float v = Ret n.
Proof. intros [s|s| |s m e] H; simpl in *; try discriminate; eauto. Qed.

Lemma cap_token_ret : forall qty unit_, exists c, cap_token qty unit_ = Ret c.
Proof.
  intros qty unit_. unfold cap_token.
  destruct (is_liter_unit unit_).
  - destruct (float_of_str qty) as [v|e]; [|eauto].
    destruct (flt (fabs (fsub v f_one)) f_1e_6); [eauto|].
    destruct (is_integer v) eqn:E; [|eauto].
    apply is_integer_int in E. destruct E as [n ->]. simpl. eauto.
  - destruct (float_of_str qty) as [v|e]; simpl; [|eauto].
    destruct (int_of_float v); simpl; eauto.
Qed.

Lemma capacidade_ret : forall up, exists c, capacidade up = Ret c.
Proof.
  intro up. unfold capacidade. destruct (search re_cap up) as [m|]; [|eauto].
  destruct (cap_token_ret (replace (lit ",") (lit ".") (group m 1))
              (upper (group m 2))) as [c E].
  rewrite E. simpl. eauto.
Qed.


(** ** The product-code short circuit (C2) *)

Lemma matches_re_code : forall prev t next cs,
  matches re_code prev t next cs <->
  (is_product_code t /\ cs = []
   /\ at_boundary prev (t ++ next) = true
   /\ at_boundary (last_char prev t) next = true).
Proof.
  intros prev t next cs. unfold re_code, seqs, times, opt.
  cbn [fold_right matches]. split.
  - intros (t1 & t2 & c1 & c2 & -> & -> & (-> & -> & Hb1) & H).
    destruct H as (t3 & t4 & c3 & c4 & -> & -> & (Hl & Hl1 & Hl2 & ->) & H).
    destruct H as (t5 & t6 & c5 & c6 & -> & -> & (Hd & Hd1 & Hd2 & ->) & H).
    destruct H as (t7 & t8 & c7 & c8 & -> & -> & (Ho & _ & Ho2 & ->) & H).
    destruct H as (t9 & t10 & c9 & c10 & -> & -> & (-> & -> & Hb2) & (-> & ->)).
    simpl in *. rewrite !app_nil_r in *.
    split; [|split; [reflexivity|split]].
    + exists t3, t5, t7. repeat split; auto; lia.
    + exact Hb1.
    + rewrite !last_char_app. exact Hb2.
  - intros ((ls & ds & os & -> & Hl & Hl1 & Hd & Hd1 & Ho & Ho1) & -> & Hb1 & Hb2).
    exists [], (ls ++ ds ++ os), [], []. simpl.
    split; [reflexivity|]. split; [reflexivity|]. split; [auto|].
    exists ls, (ds ++ os), [], []. split; [reflexivity|]. split; [reflexivity|].
    split; [repeat split; auto; lia|].
    exists ds, os, [], []. split; [reflexivity|]. split; [reflexivity|].
    split; [repeat split; auto; lia|].
    exists os, [], [], []. rewrite app_nil_r. split; [reflexivity|].
    split; [reflexivity|]. split; [repeat split; auto; lia|].
    exists [], [], [], []. simpl. rewrite !last_char_app in Hb2.
    repeat split; auto.
Qed.

Ltac nbool :=
  unfold is_space, is_digit, is_ascii_upper, is_ascii_lower, in_range in *;
  repeat match goal with
  | H : (_ && _) = true |- _ => apply andb_true_iff in H; destruct H
  | H : (_ || _) = true |- _ => apply orb_true_iff in H; destruct H
  | H : (_ <=? _) = true |- _ => apply N.leb_le in H
  | H : (_ =? _) = true |- _ => apply N.eqb_eq in H
  end.

Lemma upper_not_space : forall c, is_ascii_upper c = true -> is_space c = false.
Proof.
  intros c H. destruct (is_space c) eqn:E; [exfalso|reflexivity].
  nbool; lia.
Qed.

Lemma digit_not_space : forall c, is_digit c = true -> is_space c = false.
Proof.
  intros c H. destruct (is_space c) eqn:E; [exfalso|reflexivity].
  nbool; lia.
Qed.

Lemma no_space_head : forall t, no_space t -> head_not_space t.
Proof. intros [|c t] H; simpl; [exact I|]. inversion H; assumption. Qed.

Lemma no_space_last : forall t, no_space t -> last_not_space t.
Proof.
  intros t H. apply no_space_head. unfold no_space in *.
  apply Forall_rev. exact H.
Qed.

Lemma forallb_no_space : forall (p : char -> bool) t,
  (forall c, p c = true -> is_space c = false) ->
  forallb p t = true -> no_space t.
Proof.
  intros p t Hp H. apply Forall_forall. intros c Hc.
  apply Hp. rewrite forallb_forall in H. apply H. exact Hc.
Qed.

Lemma product_code_no_space : forall t, is_product_code t -> no_space t.
Proof.
  intros t (ls & ds & os & -> & Hl & _ & Hd & _ & Ho & _).
  unfold no_space. rewrite !Forall_app. repeat split.
  - apply (forallb_no_space _ _ upper_not_space Hl).
  - apply (forallb_no_space _ _ digit_not_space Hd).
  - apply (forallb_no_space _ _ upper_not_space Ho).
Qed.

Lemma product_code_not_nil : forall t, is_product_code t -> t <> [].
Proof.
  intros t (ls & ds & os & -> & _ & Hl & _) E.
  apply (f_equal (@List.length char)) in E. rewrite length_app in E.
  simpl in E. lia.
Qed.

Lemma first_brand_in : forall bs up b, first_brand bs up = Some b -> In b bs.
Proof.
  induction bs as [|x bs IH]; intros up b H; simpl in H; [discriminate|].
  destruct (contains x up).
  - inversion H; subst. left. reflexivity.
  - right. eapply IH. exact H.
Qed.

Lemma head_not_spaceb_ok : forall s, head_not_spaceb s = true -> head_not_space s.
Proof.
  intros [|c s] H; simpl in *; [exact I|].
  destruct (is_space c); [discriminate|reflexivity].
Qed.

Lemma brand_of_head : forall u brand up,
  brand_of u = (brand, up) -> head_not_space brand.
Proof.
  intros u brand up H. unfold brand_of in H.
  destruct (first_brand (sorted_longest_first BRANDS) u) as [b|] eqn:E.
  - destruct (truthy (title b)) eqn:Et.
    + inversion H; subst. apply first_brand_in in E.
      assert (Hall : forallb (fun b => head_not_spaceb (title b))
                       (sorted_longest_first BRANDS) = true)
        by (vm_compute; reflexivity).
      rewrite forallb_forall in Hall. apply head_not_spaceb_ok.
      apply Hall. exact E.
    + inversion H; subst. apply strip_head.
  - simpl in H. inversion H; subst. apply strip_head.
Qed.

Lemma occurs_re_code : forall up,
  occurs re_code up <-> exists code, code_token_in up code.
Proof.
  intro up. split.
  - intros (pre & t & post & cs & -> & Hm). apply matches_re_code in Hm.
    destruct Hm as (Hc & _ & Hb1 & Hb2). exists t, pre, post. auto.
  - intros (code & pre & post & -> & Hc & Hb1 & Hb2).
    exists pre, code, post, []. split; [reflexivity|].
    apply matches_re_code. auto.
Qed.



(** ** The capacity token (C5) *)

Lemma matches_literal_i : forall l prev t next cs,
  matches (seqs (map (fun c => Chr (is_char_i c)) l)) prev t next cs <->
  (lower t = lower l /\ cs = []).
Proof.
  induction l as [|x l IH]; intros prev t next cs; cbn [map seqs fold_right matches].
  - split.
    + intros [-> ->]. auto.
    + intros [H ->]. destruct t; [auto|discriminate].
  - fold (seqs (map (fun c => Chr (is_char_i c)) l)). split.
    + intros (t1 & t2 & c1 & c2 & -> & -> & (c & -> & Hc & ->) & H).
      apply IH in H. destruct H as [H ->]. split; [|reflexivity].
      unfold is_char_i in Hc. apply N.eqb_eq in Hc.
      unfold lower in *. simpl. rewrite Hc, H. reflexivity.
    + intros [H ->]. destruct t as [|c t]; [discriminate|].
      unfold lower in H. simpl in H. inversion H as [[Hc Ht]].
      exists [c], t, [], []. split; [reflexivity|]. split; [reflexivity|].
      split.
      * exists c. unfold is_char_i. rewrite Hc, N.eqb_refl. auto.
      * apply IH. auto.
Qed.

Lemma matches_word_i : forall s prev t next cs,
  matches (word_i s) prev t next cs <-> (lower t = lower (lit s) /\ cs = []).
Proof. intros. apply matches_literal_i. Qed.

Lemma matches_re_cap : forall prev t next cs,
  matches re_cap prev t next cs <->
  exists q sp u,
    t = q ++ sp ++ u /\ cs = [q; u]
    /\ is_number_text q /\ forallb is_space sp = true /\ is_unit_text u
    /\ at_boundary prev (t ++ next) = true
    /\ at_boundary (last_char prev t) next = true.
Proof.
  intros prev t next cs. unfold re_cap, alts, plus, star, opt.
  cbn [seqs fold_right fold_left matches]. split.
  - intros (t1 & t2 & c1 & c2 & -> & -> & (-> & -> & Hb1) & H).
    destruct H as (q & t4 & c3 & c4 & -> & -> & (cq & -> & Hq) & H).
    destruct Hq as (d1 & r1 & e1 & e2 & -> & -> & (Hd1 & Hl1 & _ & ->) & Hq).
    destruct Hq as (sep & r2 & e3 & e4 & -> & -> & (Hsep & _ & Hl2 & ->) & Hq).
    destruct Hq as (d2 & r3 & e5 & e6 & -> & -> & (Hd2 & _ & _ & ->) & (-> & ->)).
    destruct H as (sp & t5 & c5 & c6 & -> & -> & (Hsp & _ & _ & ->) & H).
    destruct H as (u & t6 & c7 & c8 & -> & -> & (cu & -> & Hu) & H).
    destruct H as (t7 & t8 & c9 & c10 & -> & -> & (-> & -> & Hb2) & (-> & ->)).
    simpl in Hb1, Hb2 |- *. rewrite !app_nil_r in *.
    assert (Hunit : is_unit_text u /\ cu = []).
    { unfold is_unit_text.
      destruct Hu as [[[Hu|Hu]|Hu]|Hu].
      - destruct Hu as (a & b & ca & cb & -> & -> & Ha & (Hb & _ & Hlb & ->)).
        apply matches_word_i in Ha. destruct Ha as [Ha ->].
        split; [|reflexivity]. unfold lower in *. rewrite map_app, Ha.
        destruct b as [|x [|y b]]; simpl in Hlb; try lia.
        + left. reflexivity.
        + right. left. simpl in Hb. rewrite andb_true_r in Hb.
          unfold is_char_i in Hb. apply N.eqb_eq in Hb. simpl. rewrite Hb.
          reflexivity.
      - apply matches_word_i in Hu. destruct Hu as [Hu ->]. auto.
      - apply matches_word_i in Hu. destruct Hu as [Hu ->]. auto.
      - destruct Hu as (a & b & ca & cb & -> & -> & Ha & (x & -> & Hx & ->)).
        apply matches_word_i in Ha. destruct Ha as [Ha ->].
        split; [|reflexivity]. right. right. right.
        unfold lower in *. rewrite map_app, Ha. simpl.
        unfold is_char_i in Hx. apply N.eqb_eq in Hx. rewrite Hx. reflexivity. }
    destruct Hunit as [Hunit ->].
    exists (d1 ++ sep ++ d2), sp, u. simpl.
    split; [reflexivity|]. split; [reflexivity|].
    split; [exists d1, sep, d2; repeat split; auto|].
    split; [exact Hsp|]. split; [exact Hunit|].
    split; [exact Hb1|]. rewrite !last_char_app in *. exact Hb2.
  - intros (q & sp & u & -> & -> & Hq & Hsp & Hu & Hb1 & Hb2).
    destruct Hq as (d1 & sep & d2 & -> & Hd1 & Hl1 & Hsep & Hl2 & Hd2).
    exists [], ((d1 ++ sep ++ d2) ++ sp ++ u), [], [d1 ++ sep ++ d2; u].
    split; [reflexivity|]. split; [reflexivity|]. split; [auto|].
    exists (d1 ++ sep ++ d2), (sp ++ u), [d1 ++ sep ++ d2], [u].
    split; [reflexivity|]. split; [reflexivity|]. split.
    { exists []. split; [reflexivity|].
      exists d1, (sep ++ d2), [], []. repeat split; auto.
      exists sep, d2, [], []. repeat split; auto; try lia.
      exists d2, [], [], []. rewrite app_nil_r. repeat split; auto. lia. }
    exists sp, u, [], [u]. split; [reflexivity|]. split; [reflexivity|].
    split; [repeat split; auto; lia|].
    exists u, [], [u], []. rewrite app_nil_r. split; [reflexivity|].
    split; [reflexivity|]. split.
    { exists []. split; [reflexivity|].
      destruct Hu as [Hu|[Hu|[Hu|Hu]]].
      - left. left. left. exists u, [], [], []. rewrite app_nil_r.
        repeat split; auto. apply matches_word_i. auto.
      - left. left. left.
        unfold lower in Hu.
        destruct u as [|a [|b [|c [|d [|e [|f [|g u]]]]]]]; try discriminate.
        exists [a; b; c; d; e], [f], [], []. simpl in Hu.
        inversion Hu as [[Ha Hb Hc Hd He Hf]].
        split; [reflexivity|]. split; [reflexivity|]. split.
        { apply matches_word_i. unfold lower. simpl.
          rewrite Ha, Hb, Hc, Hd, He. auto. }
        cbn [forallb List.length]. unfold is_char_i. rewrite Hf.
        repeat split; auto; lia.
      - left. left. right. apply matches_word_i. auto.
      - left. right. apply matches_word_i. auto. }
    exists [], [], [], []. simpl. rewrite !last_char_app in Hb2.
    rewrite !last_char_app. repeat split; auto.
Qed.

Ltac nb :=
  unfold is_space, is_float_space, is_digit, is_ascii_upper, is_ascii_lower,
    is_latin1_upper, is_latin1_lower, is_char, in_range in *;
  repeat match goal with
  | H : (_ && _) = true |- _ => apply andb_true_iff in H; destruct H
  | H : (_ || _) = true |- _ => apply orb_true_iff in H; destruct H
  | H : (_ && _) = false |- _ => apply andb_false_iff in H; destruct H
  | H : (_ || _) = false |- _ => apply orb_false_iff in H; destruct H
  | H : negb _ = true |- _ => apply negb_true_iff in H
  | H : negb _ = false |- _ => apply negb_false_iff in H
  | H : (_ <=? _) = true |- _ => apply N.leb_le in H
  | H : (_ <=? _) = false |- _ => apply N.leb_gt in H
  | H : (_ =? _) = true |- _ => apply N.eqb_eq in H
  | H : (_ =? _) = false |- _ => apply N.eqb_neq in H
  end.

(** A character whose lower case is a small ASCII letter has the matching
    capital as its upper case. *)
Lemma upper_of_lower_ascii : forall c x,
  is_ascii_lower c = true -> lower_char x = c -> upper_char x = [c - 32].
Proof.
  intros c x Hc Hx. unfold lower_char in Hx. unfold upper_char.
  destruct (is_ascii_upper x || is_latin1_upper x) eqn:E1.
  - destruct (is_ascii_lower x || is_latin1_lower x) eqn:E2;
      [exfalso; nb; lia|].
    destruct (x =? 181) eqn:E3; [exfalso; nb; lia|].
    destruct (x =? 223) eqn:E4; [exfalso; nb; lia|].
    destruct (x =? 255) eqn:E5; [exfalso; nb; lia|].
    destruct (x =? 956) eqn:E6; [exfalso; nb; lia|].
    f_equal. nb; lia.
  - destruct (x =? 376) eqn:E7; [exfalso; nb; lia|].
    destruct (x =? 924) eqn:E8; [exfalso; nb; lia|].
    subst x. rewrite Hc. reflexivity.
Qed.

Lemma upper_of_lower_text : forall l u,
  forallb is_ascii_lower l = true -> lower u = l ->
  upper u = map (fun c => c - 32) l.
Proof.
  induction l as [|c l IH]; intros u Hl Hu; destruct u as [|x u];
    try discriminate; [reflexivity|].
  unfold lower in Hu. simpl in Hu. injection Hu as Hx Ht.
  simpl in Hl. apply andb_true_iff in Hl. destruct Hl as [Hc Hl].
  unfold upper. cbn [flat_map]. fold (upper u).
  rewrite (@upper_of_lower_ascii c x Hc Hx).
  rewrite (IH u Hl Ht). reflexivity.
Qed.

Lemma unit_text_liter : forall u,
  is_unit_text u ->
  is_liter_unit (upper u) = negb (eqb_str (lower u) (lit "ml")).
Proof.
  intros u [H|[H|[H|H]]]; rewrite H.
  - rewrite (@upper_of_lower_text (lit "litro") u eq_refl H). reflexivity.
  - rewrite (@upper_of_lower_text (lit "litros") u eq_refl H). reflexivity.
  - rewrite (@upper_of_lower_text (lit "l") u eq_refl H). reflexivity.
  - rewrite (@upper_of_lower_text (lit "ml") u eq_refl H). reflexivity.
Qed.

(** [float] reads every number text of the capacity pattern. *)

Lemma digits_more_digits : forall d rest,
  forallb is_digit d = true ->
  digits_more (d ++ rest) =
  (map digit_val d ++ fst (digits_more rest), snd (digits_more rest)).
Proof.
  induction d as [|a d IH]; intros rest H.
  - simpl. destruct (digits_more rest); reflexivity.
  - simpl in H. apply andb_true_iff in H. destruct H as [Ha Hd].
    cbn [app digits_more]. rewrite Ha, (IH rest Hd). reflexivity.
Qed.

Lemma digits_more_point : forall r,
  digits_more (ch "." :: r) = ([], ch "." :: r).
Proof. intro r. reflexivity. Qed.

Lemma lstrip_by_id : forall p c s, p c = false -> lstrip_by p (c :: s) = c :: s.
Proof. intros p c s H. simpl. rewrite H. reflexivity. Qed.

Lemma strip_by_id : forall p s,
  Forall (fun c => p c = false) s -> strip_by p s = s.
Proof.
  intros p s H. unfold strip_by.
  assert (Hl : forall t, Forall (fun c => p c = false) t -> lstrip_by p t = t).
  { intros [|c t] Ht; [reflexivity|]. inversion Ht; subst.
    apply lstrip_by_id. assumption. }
  rewrite (Hl s H). rewrite Hl by (apply Forall_rev; exact H).
  apply rev_involutive.
Qed.

Lemma digit_not_float_space : forall c,
  is_digit c = true -> is_float_space c = false.
Proof.
  intros c H. unfold is_float_space. rewrite (digit_not_space c H).
  reflexivity.
Qed.

Lemma number_text_point : forall q,
  is_number_text q ->
  exists c d1 sep d2,
    virgula_para_ponto q = (c :: d1) ++ sep ++ d2
    /\ forallb is_digit (c :: d1) = true
    /\ (sep = [] \/ sep = [ch "."])
    /\ forallb is_digit d2 = true.
Proof.
  intros q (d1 & sep & d2 & -> & Hd1 & Hl1 & Hsep & Hl2 & Hd2).
  assert (Hid : forall d, forallb is_digit d = true ->
                          virgula_para_ponto d = d).
  { induction d as [|a d IH]; intro H; [reflexivity|].
    simpl in H. apply andb_true_iff in H. destruct H as [Ha Hd].
    unfold virgula_para_ponto in *. simpl. rewrite (IH Hd).
    destruct (a =? ch ",") eqn:E; [exfalso|reflexivity].
    change (ch ",") with 44 in E. nb. lia. }
  destruct d1 as [|c d1]; [simpl in Hl1; lia|].
  exists c, d1, (virgula_para_ponto sep), d2.
  split.
  { rewrite <- (Hid (c :: d1) Hd1) at 2. rewrite <- (Hid d2 Hd2) at 2.
    unfold virgula_para_ponto. rewrite !map_app. reflexivity. }
  split; [exact Hd1|]. split; [|exact Hd2]. unfold virgula_para_ponto.
  destruct sep as [|x [|y sep]]; [left; reflexivity| |simpl in Hl2; lia].
  right. simpl in Hsep. rewrite andb_true_r in Hsep. simpl.
  destruct (x =? ch ",") eqn:E; [reflexivity|].
  apply orb_true_iff in Hsep. destruct Hsep as [Hx|Hx].
  - unfold is_char in Hx. apply N.eqb_eq in Hx. rewrite Hx. reflexivity.
  - unfold is_char in Hx. rewrite Hx in E. discriminate.
Qed.

Lemma point_not_float_space : is_float_space (ch ".") = false.
Proof. reflexivity. Qed.

Lemma digit_head_facts : forall c,
  is_digit c = true ->
  (c =? ch "-") = false /\ (c =? ch "+") = false
  /\ lower_char c = c /\ (c =? ch "i") = false /\ (c =? ch "n") = false
  /\ (c =? ch ".") = false /\ (c =? ch "_") = false.
Proof.
  intros c H.
  change (ch "-") with 45. change (ch "+") with 43. change (ch "i") with 105.
  change (ch "n") with 110. change (ch ".") with 46. change (ch "_") with 95.
  assert (48 <= c <= 57) by (nb; lia).
  repeat split; try (apply N.eqb_neq; lia).
  unfold lower_char.
  destruct (is_ascii_upper c || is_latin1_upper c) eqn:E1; [exfalso; nb; lia|].
  destruct (c =? 376) eqn:E2; [exfalso; nb; lia|].
  destruct (c =? 924) eqn:E3; [exfalso; nb; lia|]. reflexivity.
Qed.

Lemma float_of_number_shape : forall c d1 sep d2,
  forallb is_digit (c :: d1) = true ->
  sep = [] \/ sep = [ch "."] ->
  forallb is_digit d2 = true ->
  exists v, float_of_str ((c :: d1) ++ sep ++ d2) = Ret v.
Proof.
  intros c d1 sep d2 Hd1 Hsep Hd2.
  assert (Hc : is_digit c = true).
  { simpl in Hd1. apply andb_true_iff in Hd1. tauto. }
  assert (Hd1' : forallb is_digit d1 = true).
  { simpl in Hd1. apply andb_true_iff in Hd1. tauto. }
  destruct (digit_head_facts c Hc) as (Hm & Hp & Hlow & Hi & Hn & Hpt & Hus).
  unfold float_of_str.
  rewrite strip_by_id.
  2:{ rewrite !Forall_app. repeat split.
      - apply Forall_forall. intros x Hx. apply digit_not_float_space.
        rewrite forallb_forall in Hd1. apply Hd1. exact Hx.
      - destruct Hsep as [->| ->]; [constructor|].
        constructor; [reflexivity|constructor].
      - apply Forall_forall. intros x Hx. apply digit_not_float_space.
        rewrite forallb_forall in Hd2. apply Hd2. exact Hx. }
  cbn [app parse_sign]. rewrite Hm, Hp.
  cbn [lower map eqb_str]. rewrite Hlow.
  change (lit "inf") with [ch "i"; ch "n"; ch "f"].
  change (lit "infinity") with
    [ch "i"; ch "n"; ch "f"; ch "i"; ch "n"; ch "i"; ch "t"; ch "y"].
  change (lit "nan") with [ch "n"; ch "a"; ch "n"].
  cbn [eqb_str]. rewrite Hi, Hn. cbn [andb orb].
  unfold parse_number, digitpart. rewrite Hc.
  rewrite (digits_more_digits d1 (sep ++ d2) Hd1').
  destruct Hsep as [->| ->].
  - cbn [app]. rewrite <- (app_nil_r d2).
    rewrite (digits_more_digits d2 [] Hd2). cbn [digits_more fst snd].
    cbn [parse_exponent]. eauto.
  - cbn [app]. rewrite digits_more_point. cbn [fst snd].
    rewrite N.eqb_refl.
    destruct d2 as [|x d2].
    + cbn [parse_exponent]. eauto.
    + simpl in Hd2. apply andb_true_iff in Hd2. destruct Hd2 as [Hx Hd2].
      rewrite Hx. rewrite <- (app_nil_r d2).
      rewrite (digits_more_digits d2 [] Hd2). cbn [digits_more fst snd].
      cbn [parse_exponent]. eauto.
Qed.

Lemma float_of_number_text : forall q,
  is_number_text q -> exists v, float_of_str (virgula_para_ponto q) = Ret v.
Proof.
  intros q H. apply number_text_point in H.
  destruct H as (c & d1 & sep & d2 & -> & Hd1 & Hsep & Hd2).
  apply float_of_number_shape; assumption.
Qed.

Lemma str_of_uint_head : forall u,
  u <> Decimal.Nil ->
  str_of_uint u <> [] /\ head_not_space (str_of_uint u).
Proof.
  intros [|u|u|u|u|u|u|u|u|u|u] H; try contradiction;
    (split; [discriminate|reflexivity]).
Qed.

Lemma str_of_Z_head : forall n,
  str_of_Z n <> [] /\ head_not_space (str_of_Z n).
Proof.
  intros [|p|p]; simpl.
  - split; [discriminate|reflexivity].
  - apply str_of_uint_head. apply DecimalPos.Unsigned.to_uint_nonnil.
  - split; [discriminate|reflexivity].
Qed.

Lemma number_text_head : forall q,
  is_number_text q ->
  virgula_para_ponto q <> [] /\ head_not_space (virgula_para_ponto q).
Proof.
  intros q H. apply number_text_point in H.
  destruct H as (c & d1 & sep & d2 & -> & Hd1 & _).
  split; [discriminate|]. simpl. apply digit_not_space.
  simpl in Hd1. apply andb_true_iff in Hd1. tauto.
Qed.

Lemma solid_app : forall a b,
  a <> [] -> head_not_space a -> b <> [] -> last_not_space b ->
  solid (a ++ b).
Proof.
  intros a b Ha Hh Hb Hl. split; [|split].
  - destruct a; [contradiction|discriminate].
  - apply head_not_space_app; assumption.
  - apply last_not_space_app; assumption.
Qed.

Lemma capacity_amended_solid : forall q liter v,
  is_number_text q ->
  solid (capacity_amended (virgula_para_ponto q) liter v).
Proof.
  intros q liter v Hq. destruct (number_text_head Hq) as [Hq1 Hq2].
  unfold capacity_amended.
  destruct liter.
  - destruct (near_one v).
    + split; [discriminate|split; reflexivity].
    + destruct (is_integer v).
      * destruct (int_of_float v) as [n|e].
        -- destruct (str_of_Z_head n). apply solid_app; auto.
           ++ discriminate.
           ++ reflexivity.
        -- apply solid_app; auto; [discriminate|reflexivity].
      * apply solid_app; auto; [discriminate|reflexivity].
  - destruct (int_of_float v) as [n|e].
    + destruct (str_of_Z_head n). apply solid_app; auto.
      * discriminate.
      * reflexivity.
    + apply solid_app; auto; [discriminate|reflexivity].
Qed.

Lemma cap_token_amended : forall q u v,
  is_unit_text u ->
  float_of_str (virgula_para_ponto q) = Ret v ->
  cap_token (virgula_para_ponto q) (upper u) =
  Ret (capacity_amended (virgula_para_ponto q)
         (negb (eqb_str (lower u) (lit "ml"))) v).
Proof.
  intros q u v Hu Hv. unfold cap_token, capacity_amended, near_one.
  rewrite Hv, (unit_text_liter Hu).
  destruct (negb (eqb_str (lower u) (lit "ml"))).
  - destruct (flt (fabs (fsub v f_one)) f_1e_6); [reflexivity|].
    destruct (is_integer v) eqn:E; [|reflexivity].
    apply is_integer_int in E. destruct E as [n ->]. reflexivity.
  - cbn [bind]. destruct (int_of_float v); reflexivity.
Qed.

Lemma join_cons : forall (sep p : str) (ps : list str),
  ps <> [] -> join sep (p :: ps) = p ++ sep ++ join sep ps.
Proof. intros sep p [|q ps] H; [contradiction|reflexivity]. Qed.

Lemma join_snoc : forall (sep : str) (X : list str) (c : str),
  X <> [] -> join sep (X ++ [c]) = join sep X ++ sep ++ c.
Proof.
  intros sep X c. induction X as [|p X IH]; intro H; [contradiction|].
  destruct X as [|q X].
  - reflexivity.
  - change ((p :: q :: X) ++ [c]) with (p :: ((q :: X) ++ [c])).
    rewrite join_cons by discriminate. rewrite IH by discriminate.
    rewrite (join_cons sep p (ps := q :: X)) by discriminate.
    rewrite <- !app_assoc. reflexivity.
Qed.

Lemma join_ends : forall (sep : str) (X : list str) (c : str),
  join sep (X ++ [c]) = c \/ exists pre, join sep (X ++ [c]) = pre ++ sep ++ c.
Proof.
  intros sep X c. destruct X as [|p X].
  - left. reflexivity.
  - right. exists (join sep (p :: X)). apply join_snoc. discriminate.
Qed.

Lemma lstrip_before : forall (Y c : str),
  c <> [] -> head_not_space c ->
  lstrip (Y ++ lit " " ++ c) = c
  \/ exists Y', lstrip (Y ++ lit " " ++ c) = Y' ++ lit " " ++ c.
Proof.
  intros Y c Hc Hh. induction Y as [|y Y IH].
  - left. change ([] ++ lit " " ++ c) with (32 :: c). cbn [lstrip].
    change (is_space 32) with true. cbv iota. apply lstrip_id. exact Hh.
  - cbn [app lstrip]. destruct (is_space y); [exact IH|].
    right. exists (y :: Y). reflexivity.
Qed.

Lemma consulta_form : forall (X : list str) (cap : str),
  solid cap ->
  strip (join (lit " ") (X ++ [cap])) = cap
  \/ exists pre, strip (join (lit " ") (X ++ [cap])) = pre ++ lit " " ++ cap.
Proof.
  intros X cap (Hne & Hh & Hl).
  destruct (join_ends (lit " ") X cap) as [E|[pre E]]; rewrite E.
  - left. apply strip_id; assumption.
  - unfold strip.
    destruct (lstrip_before pre Hne Hh) as [E2|[Y' E2]]; rewrite E2.
    + left. apply rstrip_id. exact Hl.
    + right. exists Y'. apply rstrip_id. rewrite app_assoc.
      apply last_not_space_app; assumption.
Qed.

Lemma consulta_after_brand : forall (brand : str) (X : list str) (cap : str),
  brand <> [] -> head_not_space brand -> solid cap ->
  exists rest,
    strip (join (lit " ") ((brand :: X) ++ [cap])) = brand ++ lit " " ++ rest.
Proof.
  intros brand X cap Hb Hh (Hne & Hch & Hl).
  change ((brand :: X) ++ [cap]) with (brand :: (X ++ [cap])).
  rewrite join_cons by (destruct X; discriminate).
  exists (join (lit " ") (X ++ [cap])).
  apply strip_id.
  - apply head_not_space_app; assumption.
  - destruct (join_ends (lit " ") X cap) as [E|[pre E]]; rewrite E.
    + rewrite app_assoc. apply last_not_space_app; assumption.
    + rewrite !app_assoc. apply last_not_space_app; assumption.
Qed.

Lemma eqb_str_length : forall a b,
  List.length a <> List.length b -> eqb_str a b = false.
Proof.
  intros a b H. destruct (eqb_str a b) eqn:E; [|reflexivity].
  apply eqb_str_eq in E. subst. contradiction.
Qed.

Lemma no_code_search : forall up,
  (forall code, ~ code_token_in up code) -> search re_code up = None.
Proof.
  intros up H. destruct (search re_code up) as [m|] eqn:E; [|reflexivity].
  exfalso. apply search_sound in E. destruct E as [Hup Hm].
  apply matches_re_code in Hm. destruct Hm as (Hc & _ & Hb1 & Hb2).
  apply (H (m_text m)). exists (m_pre m), (m_post m). auto.
Qed.

Lemma capacity_found : forall up,
  (exists q u, capacity_in up q u) ->
  exists m q u,
    search re_cap up = Some m /\ group m 1 = q /\ group m 2 = u
    /\ capacity_in up q u.
Proof.
  intros up (q & u & pre & sp & post & Hup & Hq & Hsp & Hu & Hb1 & Hb2).
  assert (Ho : occurs re_cap up).
  { exists pre, (q ++ sp ++ u), post, [q; u]. split; [exact Hup|].
    apply matches_re_cap. exists q, sp, u. auto 10. }
  apply search_complete in Ho.
  destruct (search re_cap up) as [m|] eqn:E; [|contradiction].
  apply search_sound in E as Hs. destruct Hs as [Hup' Hm].
  apply matches_re_cap in Hm.
  destruct Hm as (q' & sp' & u' & Ht & Hg & Hq' & Hsp' & Hu' & Hb1' & Hb2').
  exists m, q', u'. split; [reflexivity|].
  unfold group. rewrite Hg. split; [reflexivity|]. split; [reflexivity|].
  exists (m_pre m), sp', (m_post m). rewrite <- Ht. auto 10.
Qed.

Lemma query_with_capacity : forall (title_ brand up : str) (cap : str),
  brand_of (upper (strip title_)) = (brand, up) ->
  strip title_ <> [] ->
  capacidade up = Ret (Some cap) ->
  solid cap ->
  search re_code up = None ->
  exists query,
    title_to_user_query title_ = Ret query
    /\ (query = cap \/ exists pre, query = pre ++ lit " " ++ cap).
Proof.
  intros title_ brand up cap Eb Hs Ec Hsolid Hcode.
  unfold title_to_user_query.
  apply truthy_true in Hs. rewrite Hs. cbn [negb]. rewrite Eb, Ec.
  cbn [bind]. rewrite Hcode.
  assert (Hne : cap <> []) by (destruct Hsolid; assumption).
  assert (Hcap : opt_list (Some cap) = [cap]).
  { unfold opt_list. apply truthy_true in Hne. rewrite Hne. reflexivity. }
  rewrite Hcap.
  set (mid := (tokens_of up ++ extra_tokens up) ++ opt_list (viscosidade up)).
  assert (Hparts : filter truthy ([brand] ++ (tokens_of up ++ extra_tokens up)
                     ++ opt_list (viscosidade up) ++ [cap])
                   = filter truthy [brand] ++ filter truthy mid ++ [cap]).
  { unfold mid. rewrite !filter_app. cbn [filter].
    apply truthy_true in Hne. rewrite Hne.
    rewrite <- !app_assoc. reflexivity. }
  rewrite Hparts. clear Hparts.
  set (M := filter truthy mid).
  assert (Hform : forall X : list str,
            let c := strip (join (lit " ") (X ++ [cap])) in
            c <> [] /\ (c = cap \/ exists pre, c = pre ++ lit " " ++ cap)).
  { intros X c. pose proof (@consulta_form X cap Hsolid) as Hf. fold c in Hf.
    split; [|exact Hf]. destruct Hf as [->|[pre ->]]; [exact Hne|].
    intro E. apply (f_equal (@List.length char)) in E.
    rewrite !length_app in E. simpl in E. lia. }
  destruct (truthy brand) eqn:Etb.
  - cbn [filter]. rewrite Etb.
    change ([brand] ++ M ++ [cap]) with ((brand :: M) ++ [cap]).
    assert (Hb : brand <> []) by (apply truthy_true; exact Etb).
    destruct (@consulta_after_brand brand M cap Hb (brand_of_head _ Eb) Hsolid)
      as [rest Er].
    destruct (Hform (brand :: M)) as [Hc1 Hc2].
    set (c := strip (join (lit " ") ((brand :: M) ++ [cap]))) in *.
    apply truthy_true in Hc1. rewrite Hc1. cbn [negb orb].
    rewrite eqb_str_length.
    + eexists. split; [reflexivity|exact Hc2].
    + unfold lower. rewrite !length_map, Er, !length_app. simpl. lia.
  - cbn [filter]. rewrite Etb. cbn [app].
    destruct (Hform M) as [Hc1 Hc2].
    set (c := strip (join (lit " ") (M ++ [cap]))) in *.
    apply truthy_true in Hc1 as Hc1'. rewrite Hc1'. cbn [negb orb].
    rewrite eqb_str_length.
    + eexists. split; [reflexivity|exact Hc2].
    + apply truthy_false in Etb. subst brand. unfold lower.
      rewrite length_map. simpl. destruct c; [contradiction|simpl; lia].
Qed.




(** ** The order of floats *)

Ltac fcmp :=
  repeat match goal with
  | H : context [Z.compare ?a ?b] |- _ => destruct (Z.compare_spec a b)
  | |- context [Z.compare ?a ?b] => destruct (Z.compare_spec a b)
  | H : context [Pos.compare_cont Eq ?a ?b] |- _ =>
      change (Pos.compare_cont Eq a b) with (Pos.compare a b) in *;
      destruct (Pos.compare_spec a b)
  | |- context [Pos.compare_cont Eq ?a ?b] =>
      change (Pos.compare_cont Eq a b) with (Pos.compare a b) in *;
      destruct (Pos.compare_spec a b)
  end;
  simpl in *; try congruence; try lia.

Lemma SFcompare_trans : forall a b c o,
  SFcompare a b = Some o -> SFcompare b c = Some o -> SFcompare a c = Some o.
Proof.
  intros [[]|[]| |[] ma ea] [[]|[]| |[] mb eb] [[]|[]| |[] mc ec] o H1 H2;
    simpl in *; try congruence; fcmp.
Qed.

Lemma SFcompare_Eq_l : forall a b c o,
  SFcompare a b = Some Eq -> SFcompare b c = Some o -> SFcompare a c = Some o.
Proof.
  intros [[]|[]| |[] ma ea] [[]|[]| |[] mb eb] [[]|[]| |[] mc ec] o H1 H2;
    simpl in *; try congruence; fcmp.
Qed.

Lemma SFcompare_Eq_r : forall a b c o,
  SFcompare a b = Some o -> SFcompare b c = Some Eq -> SFcompare a c = Some o.
Proof.
  intros [[]|[]| |[] ma ea] [[]|[]| |[] mb eb] [[]|[]| |[] mc ec] o H1 H2;
    simpl in *; try congruence; fcmp.
Qed.

Lemma SFcompare_sym : forall a b o,
  SFcompare a b = Some o -> SFcompare b a = Some (CompOpp o).
Proof.
  intros [[]|[]| |[] ma ea] [[]|[]| |[] mb eb] o H;
    simpl in *; try congruence; try (inversion H; subst; reflexivity); fcmp;
    inversion H; subst; reflexivity.
Qed.

Lemma flt_irrefl : forall a, flt a a = false.
Proof.
  intros [[]|[]| |[] m e]; unfold flt, SFltb; simpl; try reflexivity;
    rewrite Z.compare_refl;
    change (Pos.compare_cont Eq m m) with (Pos.compare m m);
    rewrite Pos.compare_refl; reflexivity.
Qed.

Lemma flt_compare : forall a b, flt a b = true <-> SFcompare a b = Some Lt.
Proof.
  intros a b. unfold flt, SFltb.
  destruct (SFcompare a b) as [[]|]; split; congruence.
Qed.

Lemma flt_trans : forall a b c,
  flt a b = true -> flt b c = true -> flt a c = true.
Proof.
  intros a b c H1 H2. apply flt_compare in H1, H2. apply flt_compare.
  eapply SFcompare_trans; eassumption.
Qed.

Lemma flt_asym : forall a b, flt a b = true -> flt b a = false.
Proof.
  intros a b H. destruct (flt b a) eqn:E; [|reflexivity].
  pose proof (flt_trans _ _ _ H E) as Hc. rewrite flt_irrefl in Hc.
  discriminate.
Qed.

Lemma SFcompare_not_nan : forall a b,
  is_nan a = false -> is_nan b = false -> exists o, SFcompare a b = Some o.
Proof.
  intros [[]|[]| |[] ma ea] [[]|[]| |[] mb eb] Ha Hb; simpl in *;
    try discriminate; eauto.
Qed.

Lemma fle_of_not_flt : forall a b,
  is_nan a = false -> is_nan b = false -> flt a b = false -> fle b a = true.
Proof.
  intros a b Ha Hb H. destruct (SFcompare_not_nan a b Ha Hb) as [o Ho].
  unfold flt, SFltb in H. unfold fle, SFleb.
  rewrite (SFcompare_sym _ _ Ho). rewrite Ho in H.
  destruct o; simpl; congruence.
Qed.

(** [min]: the result is the first item or an item strictly below it, and
    no item is less than it. *)
Lemma min_from_spec : forall l best,
  (min_from best l = best
   \/ (flt (min_from best l) best = true /\ In (min_from best l) l))
  /\ (forall p, In p (best :: l) -> flt p (min_from best l) = false).
Proof.
  induction l as [|x l IH]; intro best; simpl.
  - split; [left; reflexivity|]. intros p [<-|[]]. apply flt_irrefl.
  - destruct (flt x best) eqn:E.
    + destruct (IH x) as [Hm Hall]. split.
      * right. destruct Hm as [->|[Hlt Hin]]; [auto|].
        split; [eapply flt_trans; eassumption|auto].
      * intros p [<-|Hp]; [|apply Hall; exact Hp].
        destruct (flt best (min_from x l)) eqn:E2; [|reflexivity].
        exfalso. destruct Hm as [Hm|[Hlt _]].
        -- rewrite Hm in E2. rewrite (flt_asym _ _ E) in E2. discriminate.
        -- pose proof (flt_trans _ _ _ E2 Hlt) as H3.
           rewrite (flt_asym _ _ E) in H3. discriminate.
    + destruct (IH best) as [Hm Hall]. split.
      * destruct Hm as [->|[Hlt Hin]]; [left; reflexivity|right; auto].
      * intros p [<-|[<-|Hp]].
        -- apply Hall. left. reflexivity.
        -- destruct (flt x (min_from best l)) eqn:E2; [|reflexivity].
           exfalso. destruct Hm as [Hm|[Hlt _]].
           ++ rewrite Hm in E2. congruence.
           ++ pose proof (flt_trans _ _ _ E2 Hlt). congruence.
        -- apply Hall. right. exact Hp.
Qed.

Lemma na_loja_monitorado : forall lojas r,
  na_loja (map upper lojas) r = true <-> monitorado lojas r.
Proof.
  intros lojas r. unfold na_loja, monitorado. rewrite existsb_exists. split.
  - intros (x & Hx & E). apply in_map_iff in Hx. destruct Hx as (l & <- & Hl).
    apply eqb_str_eq in E. eauto.
  - intros (l & Hl & E). exists (upper l). split.
    + apply in_map. exact Hl.
    + apply eqb_str_eq. exact E.
Qed.

Lemma in_numeric_prices : forall l p,
  In p (numeric_prices l) <-> exists r, In r l /\ preco_num r = Some p.
Proof.
  induction l as [|r l IH]; intro p; simpl.
  - split; [intros []|intros (r & [] & _)].
  - destruct (preco_num r) as [x|] eqn:E; simpl; rewrite IH; split.
    + intros [<-|(r' & Hr & Hp)]; eauto.
    + intros (r' & [<-|Hr] & Hp); [left; congruence|right; eauto].
    + intros (r' & Hr & Hp). eauto.
    + intros (r' & [<-|Hr] & Hp); [congruence|eauto].
Qed.

Lemma in_precos_monitorados : forall registros lojas p,
  In p (numeric_prices (filter (na_loja (map upper lojas)) registros))
  <-> preco_monitorado registros lojas p.
Proof.
  intros registros lojas p. rewrite in_numeric_prices.
  unfold preco_monitorado. split.
  - intros (r & Hr & Hp). apply filter_In in Hr. destruct Hr as [Hr Hf].
    apply na_loja_monitorado in Hf. eauto.
  - intros (r & Hr & Hm & Hp). exists r. split; [|exact Hp].
    apply filter_In. split; [exact Hr|]. apply na_loja_monitorado. exact Hm.
Qed.

Lemma nosso_preco_de_prices : forall registros lojas,
  nosso_preco_de registros lojas =
  match numeric_prices (filter (na_loja (map upper lojas)) registros) with
  | [] => None
  | p :: ps => Some (min_from p ps)
  end.
Proof.
  intros registros lojas. unfold nosso_preco_de.
  destruct (filter (na_loja (map upper lojas)) registros); reflexivity.
Qed.

(** The operator's minimum is a monitored price that no monitored price is
    less than; it is below or equal to every monitored price when none of
    them is NaN; and there is none exactly when no monitored record has a
    numeric price. *)
Lemma nosso_preco_de_spec : forall registros lojas,
  (nosso_preco_de registros lojas = None <->
   forall p, ~ preco_monitorado registros lojas p)
  /\ forall m, nosso_preco_de registros lojas = Some m ->
       preco_monitorado registros lojas m
       /\ (forall p, preco_monitorado registros lojas p -> flt p m = false)
       /\ ((forall p, preco_monitorado registros lojas p -> is_nan p = false) ->
           forall p, preco_monitorado registros lojas p -> fle m p = true).
Proof.
  intros registros lojas. rewrite nosso_preco_de_prices.
  pose proof (in_precos_monitorados registros lojas) as Hin.
  destruct (numeric_prices (filter (na_loja (map upper lojas)) registros))
    as [|p ps].
  - split.
    + split; [|reflexivity]. intros _ q Hq. apply Hin in Hq. exact Hq.
    + intros m H. discriminate.
  - split.
    + split; [discriminate|]. intro H. exfalso. apply (H p). apply Hin.
      left. reflexivity.
    + intros m H. inversion H; subst m. clear H.
      destruct (min_from_spec ps p) as [Hm Hall].
      assert (Hmem : preco_monitorado registros lojas (min_from p ps)).
      { apply Hin. destruct Hm as [->|[_ Hm]]; [left; reflexivity|right; exact Hm]. }
      split; [exact Hmem|]. split.
      * intros q Hq. apply Hall. apply Hin. exact Hq.
      * intros Hnan q Hq. apply fle_of_not_flt; auto.
        apply Hall. apply Hin. exact Hq.
Qed.

Lemma comparar_map : forall registros lojas,
  comparar_precos_por_consulta registros lojas =
  map (comparar_um (map upper lojas) (nosso_preco_de registros lojas))
      registros.
Proof. intros [|r l] lojas; reflexivity. Qed.

Lemma comparar_um_spec : forall lojas m r,
  let c := comparar_um (map upper lojas) m r in
  reg c = r
  /\ (e_nossa_loja c = lit "Sim" <-> monitorado lojas r)
  /\ (e_nossa_loja c = lit "Não" <-> ~ monitorado lojas r)
  /\ (forall x p, m = Some x -> preco_num r = Some p -> ~ monitorado lojas r ->
      (concorrente_abaixo c = lit "Sim" <-> flt p x = true)
      /\ (concorrente_abaixo c = lit "Não" <-> flt p x = false)
      /\ nosso_menor_preco c = Menor x)
  /\ (m = None \/ preco_num r = None \/ monitorado lojas r ->
      concorrente_abaixo c = []
      /\ nosso_menor_preco c =
         match m with Some x => Menor x | None => SemMenor end).
Proof.
  intros lojas m r c. subst c. unfold comparar_um.
  pose proof (na_loja_monitorado lojas r) as Hmon.
  destruct (na_loja (map upper lojas) r) eqn:En.
  - assert (Hyes : monitorado lojas r) by (apply Hmon; reflexivity).
    change (eqb_str (lit "Sim") (lit "Não")) with false.
    destruct m as [x|]; destruct (preco_num r) as [p|]; simpl;
      (split; [reflexivity|]);
      (split; [split; [intros _; exact Hyes|reflexivity]|]);
      (split; [split; [intro H; vm_compute in H; discriminate
                      |intro H; contradiction]|]);
      (split; [intros x' p' _ _ Hn; contradiction|]);
      intros _; auto.
  - assert (Hno : ~ monitorado lojas r).
    { intro H. apply Hmon in H. discriminate. }
    change (eqb_str (lit "Não") (lit "Não")) with true.
    destruct m as [x|]; destruct (preco_num r) as [p|]; simpl;
      (split; [reflexivity|]);
      (split; [split; [intro H; vm_compute in H; discriminate
                      |intro H; contradiction]|]);
      (split; [split; [intros _; exact Hno|reflexivity]|]).
    + split.
      * intros x' p' Hx Hp _. inversion Hx; inversion Hp; subst x' p'.
        destruct (flt p x); repeat split; try reflexivity;
          intro H; try discriminate; vm_compute in H; discriminate.
      * intros [H|[H|H]]; [discriminate|discriminate|contradiction].
    + split; [intros x' p' _ Hp; discriminate|]. auto.
    + split; [intros x' p' Hx; discriminate|]. auto.
    + split; [intros x' p' Hx; discriminate|]. auto.
Qed.


(** ** The merge of list page and detail page (C6) *)

(** C6. In the merged row the price text, the numeric price, the rating
    and the review count are the list-page values whenever those are
    present, and the detail-page values only when the list-page value is
    absent ([None], or empty for the text); so every field populated in
    the candidate is populated in the row, which never has fewer populated
    fields. *)
Theorem montar_registro_C6 :
  forall (termo consulta_ : str) (base : candidato) (d : pdp),
    let r := montar_registro termo consulta_ base d in
    (presente_txt (c_preco_lista base) = true -> preco r = c_preco_lista base)
    /\ (presente_txt (c_preco_lista base) = false -> preco r = preco_pdp_txt d)
    /\ (presente (c_preco_lista_num base) = true ->
        preco_num r = c_preco_lista_num base)
    /\ (presente (c_preco_lista_num base) = false ->
        preco_num r = preco_pdp_num d)
    /\ (presente (c_nota_lista base) = true -> nota_media r = c_nota_lista base)
    /\ (presente (c_nota_lista base) = false -> nota_media r = nota_pdp d)
    /\ (presente (c_avaliacoes_lista base) = true ->
        n_avaliacoes r = c_avaliacoes_lista base)
    /\ (presente (c_avaliacoes_lista base) = false ->
        n_avaliacoes r = total_pdp d)
    /\ Forall2 (fun antes depois => antes = true -> depois = true)
         (campos_candidato base) (campos_registro r)
    /\ (populated (campos_candidato base) <= populated (campos_registro r))%nat.
Proof.
  intros termo consulta_ base d r. subst r.
  destruct base as [ti li pa no av pl pn pp de tp].
  unfold montar_registro, campos_candidato, campos_registro, populated.
  cbn [c_titulo c_link c_patrocinado c_nota_lista c_avaliacoes_lista
       c_preco_lista c_preco_lista_num c_preco_promo_lista c_desc_lista
       c_tipo_lista titulo link patrocinado nota_media n_avaliacoes preco
       preco_num preco_promo_lista desc_lista tipo_anuncio].
  assert (Hp : truthy (if pa then lit "Sim" else lit "Não") = true)
    by (destruct pa; reflexivity).
  rewrite Hp.
  unfold or_txt, if_not_none, presente_txt, presente.
  destruct pl as [t|]; [destruct (truthy t) eqn:Et|];
    destruct pn, no, av;
    repeat split; try congruence;
    repeat (constructor; try congruence; try (intros _; assumption));
    cbn [filter List.length]; rewrite ?Et;
    repeat match goal with
    | |- context [if ?b then _ else _] => destruct b
    end; cbn [filter List.length]; lia.
Qed.

(** ** The selection of the first N cards (C4) *)

Lemma selecionar_from_spec : forall (n : Z) cards vistos sel,
  (Z.of_nat (List.length sel) < n)%Z ->
  selecionar_from n cards vistos sel =
  sel ++ firstn (Z.to_nat n - List.length sel)
           (sem_repetir vistos (lidos (ate_parada cards))).
Proof.
  intros n cards. induction cards as [|[stop card] rest IH];
    intros vistos sel Hlt; simpl.
  - rewrite firstn_nil, app_nil_r. reflexivity.
  - destruct stop; simpl.
    { rewrite firstn_nil, app_nil_r. reflexivity. }
    destruct card as [base|e]; simpl; [|apply IH; exact Hlt].
    unfold tem_link, link_de.
    destruct (c_link base) as [l|] eqn:El; simpl; [|apply IH; exact Hlt].
    destruct (truthy l) eqn:Et; simpl; [|apply IH; exact Hlt].
    destruct (existsb (eqb_str l) vistos) eqn:Ev; simpl; [apply IH; exact Hlt|].
    rewrite length_app. simpl.
    destruct (n <=? Z.of_nat (List.length sel + 1))%Z eqn:Ec.
    + apply Z.leb_le in Ec.
      replace (Z.to_nat n - List.length sel)%nat with 1%nat by lia.
      reflexivity.
    + apply Z.leb_gt in Ec.
      rewrite IH by (rewrite length_app; simpl; lia).
      rewrite length_app. simpl.
      replace (Z.to_nat n - List.length sel)%nat
        with (S (Z.to_nat n - (List.length sel + 1)))%nat by lia.
      simpl. rewrite <- app_assoc. reflexivity.
Qed.

Lemma selecionar_spec : forall (n : Z) cards,
  (1 <= n)%Z ->
  selecionar n cards =
  firstn (Z.to_nat n) (sem_repetir [] (lidos (ate_parada cards))).
Proof.
  intros n cards Hn. unfold selecionar.
  rewrite selecionar_from_spec by (simpl; lia).
  simpl. rewrite Nat.sub_0_r. reflexivity.
Qed.

(** What [sem_repetir] keeps: cards of the input with a link, no link
    twice and none of [vistos], each one before any other card with its
    link. *)
Lemma sem_repetir_facts : forall cs vistos,
  let out := sem_repetir vistos cs in
  NoDup (map link_de out)
  /\ (forall c, In c out ->
      tem_link c = true /\ ~ In (link_de c) vistos
      /\ exists pre post,
           cs = pre ++ c :: post
           /\ forall c', In c' pre -> c_link c' <> c_link c).
Proof.
  induction cs as [|c0 cs IH]; intro vistos; simpl.
  - split; [constructor|intros c []].
  - destruct (tem_link c0 && negb (existsb (eqb_str (link_de c0)) vistos))
      eqn:E.
    + apply andb_true_iff in E. destruct E as [Hl Hv].
      apply negb_true_iff in Hv.
      destruct (IH (link_de c0 :: vistos)) as [Hnd Hin]. simpl. split.
      * constructor; [|exact Hnd]. intro Hc. apply in_map_iff in Hc.
        destruct Hc as (c & Hlk & Hc). apply Hin in Hc.
        destruct Hc as (_ & Hni & _). apply Hni. left. symmetry. exact Hlk.
      * intros c [<-|Hc].
        -- split; [exact Hl|]. split.
           ++ intro Hi.
              assert (Hex : existsb (eqb_str (link_de c0)) vistos = true).
              { apply existsb_exists. exists (link_de c0). split; [exact Hi|].
                apply eqb_str_refl. }
              congruence.
           ++ exists [], cs. split; [reflexivity|]. intros c' [].
        -- apply Hin in Hc. destruct Hc as (Ht & Hni & pre & post & -> & Hpre).
           split; [exact Ht|]. split; [intro Hi; apply Hni; right; exact Hi|].
           exists (c0 :: pre), post. split; [reflexivity|].
           intros c' [<-|Hc']; [|apply Hpre; exact Hc'].
           intro Heq. apply Hni. left. unfold link_de. rewrite Heq.
           reflexivity.
    + destruct (IH vistos) as [Hnd Hin]. split; [exact Hnd|].
      intros c Hc. apply Hin in Hc.
      destruct Hc as (Ht & Hni & pre & post & -> & Hpre).
      split; [exact Ht|]. split; [exact Hni|].
      exists (c0 :: pre), post. split; [reflexivity|].
      intros c' [<-|Hc']; [|apply Hpre; exact Hc'].
      intro Heq. apply andb_false_iff in E. destruct E as [E|E].
      * unfold tem_link in *. rewrite Heq in E. congruence.
      * apply negb_false_iff in E. apply existsb_exists in E.
        destruct E as (x & Hx & Hxe). apply eqb_str_eq in Hxe. subst x.
        apply Hni. unfold link_de in *. rewrite <- Heq. exact Hx.
Qed.

(** A list that already has a link on every card and no link twice is
    kept as it is. *)
Lemma sem_repetir_id : forall cs vistos,
  forallb tem_link cs = true ->
  NoDup (map link_de cs) ->
  (forall c, In c cs -> ~ In (link_de c) vistos) ->
  sem_repetir vistos cs = cs.
Proof.
  induction cs as [|c cs IH]; intros vistos Hl Hnd Hv; simpl; [reflexivity|].
  simpl in Hl. apply andb_true_iff in Hl. destruct Hl as [Hc Hl].
  inversion Hnd as [|x xs Hni Hnd']; subst.
  rewrite Hc. simpl.
  assert (Hex : existsb (eqb_str (link_de c)) vistos = false).
  { destruct (existsb (eqb_str (link_de c)) vistos) eqn:E; [|reflexivity].
    exfalso. apply existsb_exists in E. destruct E as (x & Hx & Hxe).
    apply eqb_str_eq in Hxe. subst x. apply (Hv c); [left; reflexivity|exact Hx]. }
  rewrite Hex. simpl. f_equal. apply IH; auto.
  intros c' Hc' [Heq|Hi].
  - apply Hni. rewrite Heq. apply in_map. exact Hc'.
  - apply (Hv c'); [right; exact Hc'|exact Hi].
Qed.

Lemma In_firstn : forall (A : Type) (l : list A) n x,
  In x (firstn n l) -> In x l.
Proof.
  intros A l n x H. rewrite <- (firstn_skipn n l). apply in_or_app.
  left. exact H.
Qed.

Lemma NoDup_firstn : forall (A : Type) (l : list A) n,
  NoDup l -> NoDup (firstn n l).
Proof.
  intros A l. induction l as [|x l IH]; intros [|n] H; simpl;
    try constructor.
  - inversion H; subst. intro Hi. apply In_firstn in Hi. contradiction.
  - inversion H; subst. apply IH. assumption.
Qed.

Lemma lidos_como_cards : forall cs, lidos (ate_parada (como_cards cs)) = cs.
Proof.
  induction cs as [|c cs IH]; simpl; [reflexivity|]. rewrite IH. reflexivity.
Qed.

(** C4. With a cap of at least one (the configuration sets
    [first_n = max(1, ...)]), the selected list has no link twice; every
    selected card has a link and comes before every other card read with
    the same link; the list has at most [first_n] entries; it is the first
    [first_n] cards of the page read before cancellation, without errors,
    without missing links and without repeated links; and selecting again
    from a list that is already link-distinct, such as the selection
    itself, returns that list up to the cap. *)
Theorem selecionar_C4 :
  forall (first_n : Z) (cards : list (bool * py candidato)),
    (1 <= first_n)%Z ->
    let sel := selecionar first_n cards in
    NoDup (map link_de sel)
    /\ (forall c, In c sel ->
        tem_link c = true
        /\ exists pre post,
             lidos (ate_parada cards) = pre ++ c :: post
             /\ forall c', In c' pre -> c_link c' <> c_link c)
    /\ (Z.of_nat (List.length sel) <= first_n)%Z
    /\ sel = firstn (Z.to_nat first_n)
               (sem_repetir [] (lidos (ate_parada cards)))
    /\ (forall cs, forallb tem_link cs = true -> NoDup (map link_de cs) ->
        selecionar first_n (como_cards cs) = firstn (Z.to_nat first_n) cs)
    /\ selecionar first_n (como_cards sel) = sel.
Proof.
  intros first_n cards Hn sel. subst sel.
  rewrite (selecionar_spec cards Hn).
  destruct (sem_repetir_facts (lidos (ate_parada cards)) []) as [Hnd Hin].
  assert (Hnd' : NoDup (map link_de
            (firstn (Z.to_nat first_n)
               (sem_repetir [] (lidos (ate_parada cards)))))).
  { rewrite <- firstn_map. apply NoDup_firstn. exact Hnd. }
  assert (Hall : forall cs, forallb tem_link cs = true ->
            NoDup (map link_de cs) ->
            selecionar first_n (como_cards cs) = firstn (Z.to_nat first_n) cs).
  { intros cs Hl Hd. rewrite (selecionar_spec (como_cards cs) Hn).
    rewrite lidos_como_cards. rewrite sem_repetir_id; auto. }
  split; [exact Hnd'|]. split.
  { intros c Hc. apply In_firstn in Hc. apply Hin in Hc.
    destruct Hc as (Ht & _ & Hpre). auto. }
  split.
  { pose proof (firstn_le_length (Z.to_nat first_n)
                  (sem_repetir [] (lidos (ate_parada cards)))). lia. }
  split; [reflexivity|]. split; [exact Hall|].
  rewrite Hall.
  - rewrite firstn_firstn. rewrite Nat.min_id. reflexivity.
  - apply forallb_forall. intros c Hc. apply In_firstn in Hc.
    apply Hin in Hc. tauto.
  - exact Hnd'.
Qed.

(** Two cards with the same link, then a third: the first and the third
    are selected. *)
Lemma selecionar_C4_witness :
  let a := {| c_titulo := lit "A"; c_link := Some (lit "https://x/1");
              c_patrocinado := false; c_nota_lista := None;
              c_avaliacoes_lista := None; c_preco_lista := None;
              c_preco_lista_num := None; c_preco_promo_lista := None;
              c_desc_lista := None; c_tipo_lista := lit "Clássico" |} in
  let b := {| c_titulo := lit "B"; c_link := Some (lit "https://x/1");
              c_patrocinado := true; c_nota_lista := None;
              c_avaliacoes_lista := None; c_preco_lista := None;
              c_preco_lista_num := None; c_preco_promo_lista := None;
              c_desc_lista := None; c_tipo_lista := lit "Clássico" |} in
  let c := {| c_titulo := lit "C"; c_link := Some (lit "https://x/2");
              c_patrocinado := false; c_nota_lista := None;
              c_avaliacoes_lista := None; c_preco_lista := None;
              c_preco_lista_num := None; c_preco_promo_lista := None;
              c_desc_lista := None; c_tipo_lista := lit "Clássico" |} in
  selecionar 5 (como_cards [a; b; c]) = [a; c]
  /\ NoDup (map link_de (selecionar 5 (como_cards [a; b; c]))).
Proof.
  intros a b c. split; [vm_compute; reflexivity|].
  apply (@selecionar_C4 5 (como_cards [a; b; c])). lia.
Defined.

(** ** The final ordering (C3) *)

Section Orders.
Context {A : Type}.
Variable c : A -> A -> comparison.
Hypothesis Hc : is_order c.

Lemma ord_refl : forall a, c a a = Eq.
Proof.
  intro a. pose proof (ord_sym Hc a a) as H.
  destruct (c a a); simpl in H; congruence.
Qed.

Lemma ord_eq_r : forall a b x, c a b = Eq -> c x a = c x b.
Proof.
  intros a b x H. rewrite (ord_sym Hc a x), (ord_sym Hc b x).
  rewrite (ord_eq Hc a b x H). reflexivity.
Qed.

Lemma ord_gt : forall a b x, c a b = Gt -> c b x = Gt -> c a x = Gt.
Proof.
  intros a b x H1 H2.
  assert (E1 : c b a = Lt) by (rewrite (ord_sym Hc a b), H1; reflexivity).
  assert (E2 : c x b = Lt) by (rewrite (ord_sym Hc b x), H2; reflexivity).
  rewrite (ord_sym Hc x a), (ord_lt Hc x b a E2 E1). reflexivity.
Qed.

(** Not after, twice, is not after. *)
Lemma ord_le_trans : forall a b x, c a b <> Gt -> c b x <> Gt -> c a x <> Gt.
Proof.
  intros a b x H1 H2 H3.
  destruct (c a b) eqn:E1; [| |congruence].
  - rewrite (ord_eq Hc a b x E1) in H3. congruence.
  - destruct (c b x) eqn:E2; [| |congruence].
    + rewrite <- (@ord_eq_r b x a E2) in H3. congruence.
    + rewrite (ord_lt Hc a b x E1 E2) in H3. discriminate.
Qed.
End Orders.

Lemma is_order_on : forall (A B : Type) (f : A -> B) (c : B -> B -> comparison),
  is_order c -> is_order (fun a b => c (f a) (f b)).
Proof.
  intros A B f c H. constructor; intros.
  - apply (ord_sym H).
  - apply (ord_eq H). assumption.
  - eapply (ord_lt H); eassumption.
Qed.

Lemma is_order_lex : forall (A : Type) (c1 c2 : A -> A -> comparison),
  is_order c1 -> is_order c2 -> is_order (lex c1 c2).
Proof.
  intros A c1 c2 H1 H2. constructor; unfold lex.
  - intros a b. rewrite (ord_sym H1 a b).
    destruct (c1 a b); simpl; auto. apply (ord_sym H2).
  - intros a b x. destruct (c1 a b) eqn:E; try discriminate.
    intro E2. rewrite (ord_eq H1 a b x E).
    destruct (c1 b x); auto. apply (ord_eq H2). exact E2.
  - intros a b x. destruct (c1 a b) eqn:E; try discriminate.
    + intro E2. rewrite (ord_eq H1 a b x E).
      destruct (c1 b x); auto. intro E3. eapply (ord_lt H2); eassumption.
    + intros _. destruct (c1 b x) eqn:E3; try discriminate.
      * intros _. rewrite <- (@ord_eq_r _ _ H1 b x a E3), E. reflexivity.
      * intros _. rewrite (ord_lt H1 a b x E E3). reflexivity.
Qed.

Lemma str_compare_order : is_order str_compare.
Proof.
  constructor.
  - induction a as [|x a IH]; intros [|y b]; simpl; auto.
    rewrite (N.compare_antisym x y).
    destruct (N.compare x y); simpl; auto.
  - induction a as [|x a IH]; intros [|y b] [|z s]; simpl; auto;
      try discriminate.
    destruct (N.compare x y) eqn:E; try discriminate.
    apply N.compare_eq in E. subst y. intro H.
    destruct (N.compare x z); auto.
  - induction a as [|x a IH]; intros [|y b] [|z s]; simpl; auto;
      try discriminate.
    destruct (N.compare x y) eqn:E1; try discriminate.
    + apply N.compare_eq in E1. subst y. intro H1.
      destruct (N.compare x z); auto. apply IH. exact H1.
    + intros _. destruct (N.compare y z) eqn:E2; try discriminate.
      * apply N.compare_eq in E2. subst z. rewrite E1. reflexivity.
      * intros _.
        assert (E3 : (x ?= z)%N = Lt) by (eapply N.lt_trans; eassumption).
        rewrite E3. reflexivity.
Qed.

Lemma cmp_total_desc_order : is_order cmp_total_desc.
Proof.
  constructor.
  - intros [a|] [b|]; simpl; auto. apply Z.compare_antisym.
  - intros [a|] [b|] [x|]; simpl; try discriminate; auto.
    intro H. apply Z.compare_eq in H. subst. reflexivity.
  - intros [a|] [b|] [x|]; simpl; try discriminate; auto.
    intros H1 H2. change (b < a)%Z in H1. change (x < b)%Z in H2.
    change (x < a)%Z. lia.
Qed.

Lemma chave_nota_not_nan : forall x f, chave_nota x = Some f -> is_nan f = false.
Proof.
  intros [g|] f H; simpl in H; [|discriminate].
  destruct (is_nan g) eqn:E; [discriminate|]. congruence.
Qed.

Lemma cmp_nota_desc_order : is_order cmp_nota_desc.
Proof.
  constructor; unfold cmp_nota_desc.
  - intros a b.
    destruct (chave_nota a) as [f|] eqn:Ea;
      destruct (chave_nota b) as [g|] eqn:Eb; simpl; auto.
    destruct (SFcompare_not_nan g f (chave_nota_not_nan _ Eb)
                (chave_nota_not_nan _ Ea)) as [o Ho].
    rewrite Ho, (SFcompare_sym _ _ Ho). reflexivity.
  - intros a b x.
    destruct (chave_nota a) as [f|] eqn:Ea;
      destruct (chave_nota b) as [g|] eqn:Eb;
      destruct (chave_nota x) as [h|] eqn:Ex; simpl; auto; try discriminate.
    destruct (SFcompare_not_nan g f (chave_nota_not_nan _ Eb)
                (chave_nota_not_nan _ Ea)) as [o Ho].
    rewrite Ho. intros ->.
    destruct (SFcompare_not_nan h g (chave_nota_not_nan _ Ex)
                (chave_nota_not_nan _ Eb)) as [o2 Ho2].
    rewrite Ho2, (SFcompare_Eq_r _ _ _ Ho2 Ho). reflexivity.
  - intros a b x.
    destruct (chave_nota a) as [f|] eqn:Ea;
      destruct (chave_nota b) as [g|] eqn:Eb;
      destruct (chave_nota x) as [h|] eqn:Ex; simpl; auto; try discriminate.
    destruct (SFcompare_not_nan g f (chave_nota_not_nan _ Eb)
                (chave_nota_not_nan _ Ea)) as [o Ho].
    rewrite Ho. intros ->.
    destruct (SFcompare_not_nan h g (chave_nota_not_nan _ Ex)
                (chave_nota_not_nan _ Eb)) as [o2 Ho2].
    rewrite Ho2. intros ->.
    rewrite (SFcompare_trans _ _ _ Ho2 Ho). reflexivity.
Qed.

Lemma cmp_registro_order : is_order cmp_registro.
Proof.
  unfold cmp_registro.
  apply is_order_lex;
    [apply (is_order_on termo_original str_compare_order)|].
  apply is_order_lex;
    [apply (is_order_on patrocinado str_compare_order)|].
  apply is_order_lex.
  - apply (is_order_on nota_media cmp_nota_desc_order).
  - apply (is_order_on n_avaliacoes cmp_total_desc_order).
Qed.

Lemma antes_total : forall a b,
  antes_ou_igual a b = false -> antes_ou_igual b a = true.
Proof.
  intros a b H. unfold antes_ou_igual in *.
  rewrite (ord_sym cmp_registro_order a b).
  destruct (cmp_registro a b); simpl; congruence.
Qed.

Lemma antes_trans : forall a b x,
  antes_ou_igual a b = true -> antes_ou_igual b x = true ->
  antes_ou_igual a x = true.
Proof.
  intros a b x H1 H2. unfold antes_ou_igual in *.
  pose proof (@ord_le_trans _ _ cmp_registro_order a b x) as H.
  destruct (cmp_registro a b), (cmp_registro b x), (cmp_registro a x);
    try reflexivity; try discriminate; exfalso; apply H; congruence.
Qed.

Lemma inserir_perm : forall x l, Permutation (inserir x l) (x :: l).
Proof.
  intros x l. induction l as [|y l IH]; simpl; [apply Permutation_refl|].
  destruct (antes_ou_igual x y); [apply Permutation_refl|].
  eapply Permutation_trans; [apply perm_skip; exact IH|apply perm_swap].
Qed.

Lemma sort_values_perm : forall l, Permutation (sort_values l) l.
Proof.
  induction l as [|x l IH]; simpl; [constructor|].
  eapply Permutation_trans; [apply inserir_perm|].
  apply perm_skip. exact IH.
Qed.

Lemma inserir_ordenado : forall x l, ordenado l -> ordenado (inserir x l).
Proof.
  intros x l H. unfold ordenado in *.
  induction H as [|y l Hs IH Hall]; simpl.
  - constructor; constructor.
  - destruct (antes_ou_igual x y) eqn:E.
    + constructor; [constructor; assumption|].
      constructor; [exact E|].
      rewrite Forall_forall in *. intros z Hz.
      eapply antes_trans; [exact E|apply Hall; exact Hz].
    + constructor; [exact IH|].
      apply antes_total in E.
      rewrite Forall_forall in *. intros z Hz.
      apply (Permutation_in _ (inserir_perm x l)) in Hz.
      destruct Hz as [<-|Hz]; [exact E|apply Hall; exact Hz].
Qed.

Lemma sort_values_ordenado : forall l, ordenado (sort_values l).
Proof.
  induction l as [|x l IH]; simpl; [constructor|].
  apply inserir_ordenado. exact IH.
Qed.

Lemma mesmas_chaves_gt : forall k x y,
  mesmas_chaves k x = true -> mesmas_chaves k y = true ->
  antes_ou_igual x y = true.
Proof.
  intros k x y H1 H2. unfold mesmas_chaves, antes_ou_igual in *.
  destruct (cmp_registro k x) eqn:E1; try discriminate.
  destruct (cmp_registro k y) eqn:E2; try discriminate.
  rewrite <- (ord_eq cmp_registro_order k x y E1), E2. reflexivity.
Qed.

Lemma inserir_filter : forall k x l,
  filter (mesmas_chaves k) (inserir x l) =
  if mesmas_chaves k x then x :: filter (mesmas_chaves k) l
  else filter (mesmas_chaves k) l.
Proof.
  intros k x l. induction l as [|y l IH]; simpl.
  - destruct (mesmas_chaves k x); reflexivity.
  - destruct (antes_ou_igual x y) eqn:E; simpl.
    + destruct (mesmas_chaves k x); reflexivity.
    + rewrite IH. destruct (mesmas_chaves k y) eqn:Ey; [|reflexivity].
      destruct (mesmas_chaves k x) eqn:Ex; [|reflexivity].
      rewrite (mesmas_chaves_gt _ _ _ Ex Ey) in E. discriminate.
Qed.

Lemma sort_values_stable : forall k l,
  filter (mesmas_chaves k) (sort_values l) = filter (mesmas_chaves k) l.
Proof.
  intros k l. induction l as [|x l IH]; simpl; [reflexivity|].
  rewrite inserir_filter, IH. reflexivity.
Qed.

(** The report keeps the sorted order: the rows of a term are contiguous
    in the sorted frame, and the terms are taken in order of appearance. *)

Lemma str_compare_eq : forall a b, str_compare a b = Eq <-> a = b.
Proof.
  induction a as [|x a IH]; intros [|y b]; simpl; split; intro H;
    try reflexivity; try discriminate.
  - destruct (N.compare x y) eqn:E; try discriminate.
    apply N.compare_eq in E. apply IH in H. congruence.
  - inversion H; subst. rewrite N.compare_refl. apply IH. reflexivity.
Qed.

Lemma antes_termo_le : forall a b, antes_ou_igual a b = true -> termo_le a b.
Proof.
  intros a b H. unfold antes_ou_igual, cmp_registro, lex, termo_le in *.
  destruct (str_compare (termo_original a) (termo_original b));
    congruence.
Qed.

Lemma ordenado_termo : forall l, ordenado l -> StronglySorted termo_le l.
Proof.
  intros l H. induction H as [|x l Hs IH Hall]; constructor; auto.
  rewrite Forall_forall in *. intros y Hy. apply antes_termo_le. auto.
Qed.

Lemma do_termo_eq : forall t r, do_termo t r = true <-> termo_original r = t.
Proof. intros. unfold do_termo. apply eqb_str_eq. Qed.

Lemma split_by_termo : forall l t,
  StronglySorted termo_le l ->
  (forall y, In y l -> str_compare t (termo_original y) <> Gt) ->
  filter (do_termo t) l ++ filter (fun r => negb (do_termo t r)) l = l.
Proof.
  intros l t H. induction H as [|y l Hs IH Hall]; intro Hb; simpl;
    [reflexivity|].
  destruct (do_termo t y) eqn:E; simpl.
  - f_equal. apply IH. intros z Hz. apply Hb. right. exact Hz.
  - assert (Hnone : forall z, In z l -> do_termo t z = false).
    { intros z Hz. destruct (do_termo t z) eqn:Ez; [|reflexivity]. exfalso.
      apply do_termo_eq in Ez. rewrite Forall_forall in Hall.
      pose proof (Hall z Hz) as Hyz. unfold termo_le in Hyz.
      rewrite Ez in Hyz.
      pose proof (Hb y (or_introl eq_refl)) as Hty.
      pose proof (ord_sym str_compare_order t (termo_original y)) as Hsym.
      destruct (str_compare t (termo_original y)) eqn:Ec.
      - apply str_compare_eq in Ec. symmetry in Ec.
        apply do_termo_eq in Ec. congruence.
      - simpl in Hsym. congruence.
      - congruence. }
    assert (Hf1 : filter (do_termo t) l = []).
    { clear - Hnone. induction l as [|z l IHl]; simpl; [reflexivity|].
      rewrite (Hnone z (or_introl eq_refl)). apply IHl.
      intros w Hw. apply Hnone. right. exact Hw. }
    assert (Hf2 : filter (fun r => negb (do_termo t r)) l = l).
    { clear - Hnone. induction l as [|z l IHl]; simpl; [reflexivity|].
      rewrite (Hnone z (or_introl eq_refl)). simpl. f_equal. apply IHl.
      intros w Hw. apply Hnone. right. exact Hw. }
    rewrite Hf1, Hf2. reflexivity.
Qed.

Lemma filter_comm : forall (A : Type) (f g : A -> bool) l,
  filter f (filter g l) = filter g (filter f l).
Proof.
  intros A f g l. induction l as [|x l IH]; simpl; [reflexivity|].
  destruct (f x) eqn:Ef, (g x) eqn:Eg; simpl; rewrite ?Ef, ?Eg, IH;
    reflexivity.
Qed.

Lemma filter_idem : forall (A : Type) (f : A -> bool) l,
  filter f (filter f l) = filter f l.
Proof.
  intros A f l. induction l as [|x l IH]; simpl; [reflexivity|].
  destruct (f x) eqn:Ef; simpl; rewrite ?Ef, IH; reflexivity.
Qed.

Lemma unique_filter : forall x l,
  filter (fun y => negb (eqb_str y x)) (unique l) =
  unique (filter (fun y => negb (eqb_str y x)) l).
Proof.
  intros x l. induction l as [|a l IH]; simpl; [reflexivity|].
  destruct (eqb_str a x) eqn:E; simpl.
  - apply eqb_str_eq in E. subst a. rewrite filter_idem. exact IH.
  - f_equal. rewrite filter_comm, IH. reflexivity.
Qed.

Lemma unique_in : forall l x, In x (unique l) -> In x l.
Proof.
  induction l as [|a l IH]; intros x H; simpl in *; [exact H|].
  destruct H as [H|H]; [left; exact H|].
  apply filter_In in H. right. apply IH. tauto.
Qed.

Lemma flat_map_ext_in : forall (A B : Type) (f g : A -> list B) l,
  (forall a, In a l -> f a = g a) -> flat_map f l = flat_map g l.
Proof.
  intros A B f g l H. induction l as [|a l IH]; simpl; [reflexivity|].
  rewrite (H a (or_introl eq_refl)), IH; [reflexivity|].
  intros b Hb. apply H. right. exact Hb.
Qed.

Lemma StronglySorted_filter : forall (A : Type) (R : A -> A -> Prop) f l,
  StronglySorted R l -> StronglySorted R (filter f l).
Proof.
  intros A R f l H. induction H as [|x l Hs IH Hall]; simpl; [constructor|].
  destruct (f x); [|exact IH]. constructor; [exact IH|].
  rewrite Forall_forall in *. intros y Hy. apply filter_In in Hy.
  apply Hall. tauto.
Qed.

Lemma agrupar : forall n l,
  (List.length l <= n)%nat -> StronglySorted termo_le l ->
  flat_map (fun t => filter (do_termo t) l) (unique (map termo_original l))
  = l.
Proof.
  induction n as [|n IH]; intros l Hlen Hs.
  - destruct l; [reflexivity|simpl in Hlen; lia].
  - destruct l as [|x l]; [reflexivity|].
    set (t := termo_original x).
    set (R := filter (fun r => negb (do_termo t r)) l).
    assert (HU : unique (map termo_original (x :: l))
                 = t :: unique (map termo_original R)).
    { simpl. fold t. f_equal. rewrite unique_filter. f_equal.
      unfold R. clear. induction l as [|y l IHl]; simpl; [reflexivity|].
      unfold do_termo at 1.
      destruct (eqb_str (termo_original y) t); simpl; rewrite IHl;
        reflexivity. }
    rewrite HU. cbn [flat_map].
    assert (Hrest : flat_map (fun s => filter (do_termo s) (x :: l))
                      (unique (map termo_original R)) = R).
    { rewrite (@flat_map_ext_in _ _ _ (fun s => filter (do_termo s) R)).
      - apply IH.
        + unfold R. pose proof (filter_length_le
            (fun r => negb (do_termo t r)) l). simpl in Hlen. lia.
        + unfold R. apply StronglySorted_filter.
          inversion Hs; assumption.
      - intros s Hin. apply unique_in in Hin. apply in_map_iff in Hin.
        destruct Hin as (r & Hr & Hin). unfold R in Hin.
        apply filter_In in Hin. destruct Hin as [_ Hnt].
        assert (Hst : eqb_str t s = false).
        { apply negb_true_iff in Hnt. unfold do_termo in Hnt.
          rewrite Hr in Hnt.
          destruct (eqb_str t s) eqn:E; [|reflexivity].
          apply eqb_str_eq in E. rewrite <- E in Hnt.
          rewrite eqb_str_refl in Hnt. discriminate. }
        assert (Hx : do_termo s x = false) by exact Hst.
        simpl. rewrite Hx. unfold R. rewrite filter_comm.
        clear - Hst. induction l as [|y l IHl]; simpl; [reflexivity|].
        destruct (do_termo s y) eqn:Ey; simpl.
        * assert (Hty : do_termo t y = false).
          { unfold do_termo in *. apply eqb_str_eq in Ey. rewrite Ey.
            destruct (eqb_str s t) eqn:E; [|reflexivity].
            apply eqb_str_eq in E. rewrite E in Hst.
            rewrite eqb_str_refl in Hst. discriminate. }
          rewrite Hty. simpl. f_equal. exact IHl.
        * destruct (negb (do_termo t y)); exact IHl. }
    rewrite Hrest.
    assert (HR : filter (fun r => negb (do_termo t r)) (x :: l) = R).
    { simpl. unfold do_termo at 1. fold t. rewrite eqb_str_refl.
      reflexivity. }
    rewrite <- HR. apply split_by_termo; [exact Hs|].
    intros y [<-|Hy].
    + fold t. rewrite (@ord_refl _ _ str_compare_order t). discriminate.
    + inversion Hs as [|? ? _ Hall]; subst. rewrite Forall_forall in Hall.
      apply Hall. exact Hy.
Qed.

Lemma map_reg_comparar : forall l lojas,
  map reg (comparar_precos_por_consulta l lojas) = l.
Proof.
  intros l lojas. rewrite comparar_map, map_map.
  rewrite <- (map_id l) at 2. apply map_ext. intro r.
  apply (comparar_um_spec lojas (nosso_preco_de l lojas) r).
Qed.

Lemma consolidar_order : forall todos lojas,
  map reg (consolidar todos lojas) = sort_values todos.
Proof.
  intros todos lojas. unfold consolidar.
  rewrite flat_map_concat_map, concat_map, map_map.
  rewrite <- flat_map_concat_map.
  rewrite (@flat_map_ext_in _ _ _
             (fun t => filter (do_termo t) (sort_values todos))).
  - apply (agrupar (n := List.length (sort_values todos))); [lia|].
    apply ordenado_termo. apply sort_values_ordenado.
  - intros t _. apply map_reg_comparar.
Qed.

Lemma cmp_total_desc_eq : forall x y, cmp_total_desc x y = Eq <-> x = y.
Proof.
  intros [a|] [b|]; simpl; split; intro H; try reflexivity;
    try discriminate.
  - apply Z.compare_eq in H. congruence.
  - inversion H; subst. apply Z.compare_refl.
Qed.


(** ** Opening a detail page *)

Lemma looks_like_antibot_hint (E : env) (tr : list event) (txt : option str) :
  body_text E (List.length tr) = Ret txt ->
  looks_like_antibot E tr
  = (Ret (has_hint (lower (or_empty txt))), tr ++ [EInnerText (Ret txt)]).
Proof.
  intros H. unfold looks_like_antibot. rewrite H. reflexivity.
Qed.

Lemma try_screenshot_passes (E : env) (tr : list event) :
  try_screenshot E tr = (Ret tt, tr ++ [EScreenshot]).
Proof.
  unfold try_screenshot, scatch, call.
  destruct (screenshot_result E (List.length tr)); reflexivity.
Qed.

Lemma after_settle_antibot (E : env) (attempt attempt_max : nat) (log : bool)
    (tr : list event) (txt : option str) :
  body_text E (List.length tr) = Ret txt ->
  has_hint (lower (or_empty txt)) = true ->
  after_settle E attempt attempt_max log tr
  = (Ret (Some false),
     tr ++ [EInnerText (Ret txt); EScreenshot]
        ++ (if log then [ELog LogAntibot] else [])).
Proof.
  intros Hb Hh. unfold after_settle, sbind.
  rewrite (looks_like_antibot_hint E tr Hb), Hh.
  rewrite try_screenshot_passes.
  destruct log; cbn [log_if emit sret];
    rewrite <- ?app_assoc; cbn [app]; rewrite ?app_nil_r; reflexivity.
Qed.

Lemma open_pdp_from_antibot (E : env) (link_ : str)
    (attempt k attempt_max : nat) (log : bool) (tr tr1 : list event)
    (txt : option str) :
  load_and_settle E link_ tr = (Ret tt, tr1) ->
  body_text E (List.length tr1) = Ret txt ->
  has_hint (lower (or_empty txt)) = true ->
  open_pdp_from E link_ attempt (S k) attempt_max log tr
  = (Ret false,
     tr1 ++ [EInnerText (Ret txt); EScreenshot]
         ++ (if log then [ELog LogAntibot] else [])).
Proof.
  intros Hl Hb Hh. cbn [open_pdp_from]. unfold sbind at 1.
  unfold tentativa, scatch. unfold sbind at 1. rewrite Hl.
  rewrite (after_settle_antibot E attempt attempt_max log tr1 Hb Hh).
  reflexivity.
Qed.

(** C8.  A detail-page visit whose body text, read after load and settle,
    holds one of the anti-automation phrases once lowered: whatever the
    attempt number, the attempts left and the fate of the screenshot,
    [open_pdp] reads the body, takes the one screenshot, logs the
    detection when it has a logger and returns [False] there -- its trace
    ends with these events, with no readiness probe, no reload and no
    further attempt.  The candidate loop that called it logs the failure
    and goes on with the candidates that remain, the buffer and the
    artifacts as they were. *)
Theorem open_pdp_antibot_C8 (E : env) (link_ : str)
    (attempt k attempt_max : nat) (log : bool) (tr tr1 : list event)
    (txt : option str) :
  load_and_settle E link_ tr = (Ret tt, tr1) ->
  body_text E (List.length tr1) = Ret txt ->
  has_hint (lower (or_empty txt)) = true ->
  open_pdp_from E link_ attempt (S k) attempt_max log tr
  = (Ret false,
     tr1 ++ [EInnerText (Ret txt); EScreenshot]
         ++ (if log then [ELog LogAntibot] else []))
  /\ forall (cfg : JobConfig) (termo consulta_ : str) (base : candidato)
       (rest : list candidato) (j total : nat) (w : world),
       link_de base = link_ ->
       stop_is_set E (List.length (trace w)) = false ->
       open_pdp E link_ 3 true
         (trace w ++ [ECheckStop NoCandidato false;
                      ELog (LogCandidato j total)])
       = open_pdp_from E link_ attempt (S k) 3 true tr ->
       processar_candidatos E cfg termo consulta_ (base :: rest) j total w
       = processar_candidatos E cfg termo consulta_ rest (S j) total
           {| trace := tr1 ++ [EInnerText (Ret txt); EScreenshot;
                               ELog LogAntibot; ELog LogFalhaPdp];
              todos := todos w; parcial := parcial w; final := final w |}.
Proof.
  intros Hl Hb Hh. split.
  - exact (open_pdp_from_antibot E link_ attempt k attempt_max log tr Hl Hb Hh).
  - intros cfg termo consulta_ base rest j total w Hlink Hstop Hopen.
    cbn [processar_candidatos].
    unfold sbind at 1. unfold lift at 1, check_stop. rewrite Hstop.
    cbn [trace todos parcial final].
    unfold sbind at 1.
    unfold self_log at 1, lift at 1, emit. cbn [trace todos parcial final].
    unfold sbind at 1. unfold lift at 1. cbn [trace todos parcial final].
    rewrite <- app_assoc. cbn [app].
    rewrite Hlink, Hopen.
    rewrite (open_pdp_from_antibot E link_ attempt k 3 true tr Hl Hb Hh).
    cbn [negb]. unfold sbind at 1.
    unfold self_log at 1, lift at 1, emit. cbn [trace todos parcial final].
    rewrite <- app_assoc. reflexivity.
Qed.

(** ** Cancellation *)

(** *** Summaries of a stretch of the trace *)

Lemma observed_app (a b : list event) :
  observed (a ++ b) = observed a || observed b.
Proof. apply existsb_app. Qed.

Lemma erro_app (a b : list event) : erro (a ++ b) = erro a || erro b.
Proof. apply existsb_app. Qed.

Lemma viu_app (a b : list event) : viu (a ++ b) = viu a || viu b.
Proof. apply existsb_app. Qed.

Lemma appended_app (a b : list event) :
  appended (a ++ b) = appended a ++ appended b.
Proof. apply flat_map_app. Qed.

Ltac ev_cases :=
  repeat match goal with
         | l : loop |- _ => destruct l
         | b : bool |- _ => destruct b
         | m : log_msg |- _ => destruct m
         end.

Lemma calm_app (a b : list event) :
  calm (a ++ b) = if observed a then calm a && forallb quiet b else calm b.
Proof.
  unfold calm. induction a as [|e a IH]; [reflexivity|].
  destruct e; ev_cases;
    cbn [app after_observed observed existsb orb];
    try exact IH.
  all: now rewrite forallb_app.
Qed.

Lemma viu_observed (evs : list event) : viu evs = true -> observed evs = true.
Proof.
  unfold viu, observed. rewrite !existsb_exists.
  intros (e & Hin & He). exists e. split; [exact Hin|].
  destruct e; ev_cases; try discriminate; reflexivity.
Qed.

Lemma inert_calado (evs : list event) :
  forallb inert evs = true -> forallb calado evs = true.
Proof.
  rewrite !forallb_forall. intros H e He. specialize (H e He).
  destruct e; ev_cases; try discriminate; reflexivity.
Qed.

Lemma inert_appended (evs : list event) :
  forallb inert evs = true -> appended evs = [].
Proof.
  induction evs as [|e evs IH]; [reflexivity|].
  cbn [forallb]. intros H. apply andb_true_iff in H as [He H].
  destruct e; try discriminate; cbn [appended flat_map app]; exact (IH H).
Qed.

Lemma calado_observed (evs : list event) :
  forallb calado evs = true -> observed evs = false.
Proof.
  induction evs as [|e evs IH]; [reflexivity|].
  cbn [forallb]. intros H. apply andb_true_iff in H as [He H].
  destruct e; try discriminate; cbn [observed existsb orb]; exact (IH H).
Qed.

Lemma calado_erro (evs : list event) :
  forallb calado evs = true -> erro evs = false.
Proof.
  induction evs as [|e evs IH]; [reflexivity|].
  cbn [forallb]. intros H. apply andb_true_iff in H as [He H].
  destruct e as [| | | | | | | | | | | | | | | | | |m|]; try discriminate;
    cbn [erro existsb orb]; try exact (IH H).
  destruct m; try discriminate; exact (IH H).
Qed.

Lemma unobserved_calm (evs : list event) :
  observed evs = false -> calm evs = true.
Proof.
  unfold calm. induction evs as [|e evs IH]; [reflexivity|].
  destruct e as [l s| | | | | | | | | | | | | | | | | | |];
    cbn [observed existsb orb after_observed]; try exact IH.
  destruct s; [discriminate | exact IH].
Qed.

Lemma quiet_appended (evs : list event) :
  forallb quiet evs = true -> appended evs = [].
Proof.
  induction evs as [|e evs IH]; [reflexivity|].
  cbn [forallb]. intros H. apply andb_true_iff in H as [He H].
  destruct e; try discriminate; cbn [appended flat_map app]; exact (IH H).
Qed.

Lemma quiet_calm (evs : list event) :
  forallb quiet evs = true -> calm evs = true.
Proof.
  unfold calm. induction evs as [|e evs IH]; [reflexivity|].
  cbn [forallb]. intros H. apply andb_true_iff in H as [He H].
  destruct e as [l s| | | | | | | | | | | | | | | | | | |];
    cbn [after_observed]; try exact (IH H).
  destruct s; [exact H | exact (IH H)].
Qed.

(** After a read of the flag as set, a calm trace has only quiet
    events. *)
Lemma calm_after (evs pre post : list event) (l : loop) :
  calm evs = true ->
  evs = pre ++ ECheckStop l true :: post ->
  Forall (fun e => quiet e = true) post.
Proof.
  intros Hc ->. revert Hc. induction pre as [|e pre IH].
  - unfold calm. cbn [app after_observed]. intros H.
    apply Forall_forall. now apply forallb_forall.
  - intros H.
    destruct e as [l' s| | | | | | | | | | | | | | | | | | |];
      try (apply IH; exact H).
    destruct s; [|apply IH; exact H].
    unfold calm in H. cbn [app after_observed] in H.
    rewrite forallb_app in H. apply andb_true_iff in H as [_ H].
    cbn [forallb] in H. apply andb_true_iff in H as [_ H].
    apply Forall_forall. now apply forallb_forall.
Qed.

(** *** Page computations that do not read the flag *)

Lemma blind_sret (A : Type) (a : A) : blind (sret a).
Proof. intros tr. exists []. now rewrite app_nil_r. Qed.

Lemma blind_pure (A : Type) (x : py A) : blind (fun tr => (x, tr)).
Proof. intros tr. exists []. now rewrite app_nil_r. Qed.

Lemma blind_answer_of (A : Type) (f : nat -> py A) : blind (answer_of f).
Proof. intros tr. exists []. now rewrite app_nil_r. Qed.

Lemma blind_emit (e : event) : inert e = true -> blind (emit e).
Proof. intros H tr. exists [e]. cbn. now rewrite H. Qed.

Lemma blind_call (e : event) (f : nat -> outcome) :
  inert e = true -> blind (call e f).
Proof. intros H tr. exists [e]. cbn. now rewrite H. Qed.

Lemma blind_sbind (A B : Type) (c : T A) (k : A -> T B) :
  blind c -> (forall a, blind (k a)) -> blind (sbind c k).
Proof.
  intros Hc Hk tr. unfold sbind.
  destruct (Hc tr) as (evs1 & E1 & I1).
  destruct (c tr) as [[a|e] tr1]; cbn [snd] in E1; subst tr1.
  - destruct (Hk a (tr ++ evs1)) as (evs2 & E2 & I2).
    exists (evs1 ++ evs2). rewrite E2, app_assoc, forallb_app, I1, I2.
    now split.
  - exists evs1. now split.
Qed.

Lemma blind_scatch (A : Type) (c h : T A) :
  blind c -> blind h -> blind (scatch c h).
Proof.
  intros Hc Hh tr. unfold scatch.
  destruct (Hc tr) as (evs1 & E1 & I1).
  destruct (c tr) as [[a|e] tr1]; cbn [snd] in E1; subst tr1.
  - exists evs1. now split.
  - destruct (Hh (tr ++ evs1)) as (evs2 & E2 & I2).
    exists (evs1 ++ evs2). rewrite E2, app_assoc, forallb_app, I1, I2.
    now split.
Qed.

Lemma blind_scatch_timeout (A : Type) (c h : T A) :
  blind c -> blind h -> blind (scatch_timeout c h).
Proof.
  intros Hc Hh tr. unfold scatch_timeout.
  destruct (Hc tr) as (evs1 & E1 & I1).
  destruct (c tr) as [[a|e] tr1]; cbn [snd] in E1; subst tr1.
  - exists evs1. now split.
  - destruct (Hh (tr ++ evs1)) as (evs2 & E2 & I2).
    destruct e; try (exists evs1; now split).
    exists (evs1 ++ evs2). rewrite E2, app_assoc, forallb_app, I1, I2.
    now split.
Qed.

Lemma blind_log_if (log : bool) (m : log_msg) :
  inert (ELog m) = true -> blind (log_if log m).
Proof.
  intros H. destruct log; [now apply blind_emit | apply blind_sret].
Qed.

Lemma blind_looks_like_antibot (E : env) : blind (looks_like_antibot E).
Proof.
  intros tr. exists [EInnerText (body_text E (List.length tr))].
  unfold looks_like_antibot. now split.
Qed.

Create HintDb blind.

#[local] Hint Resolve blind_sret blind_pure blind_answer_of blind_emit
  blind_call blind_sbind blind_scatch blind_scatch_timeout blind_log_if
  blind_looks_like_antibot : blind.
#[local] Hint Extern 1 (inert _ = true) => reflexivity : blind.
#[local] Hint Extern 2 (blind (if ?b then _ else _)) => destruct b : blind.
#[local] Hint Extern 2 (blind (match ?o with Some _ => _ | None => _ end)) =>
  destruct o : blind.

Lemma blind_wait_first (E : env) (sels : list str) (state : str)
    (timeout : Z) : blind (wait_first E sels state timeout).
Proof.
  induction sels as [|sel rest IH]; cbn [wait_first]; auto 6 with blind.
Qed.

#[local] Hint Resolve blind_wait_first : blind.

Lemma blind_wait_pdp_ready (E : env) : blind (wait_pdp_ready E).
Proof. unfold wait_pdp_ready. auto 8 with blind. Qed.

Lemma blind_load_and_settle (E : env) (link_ : str) :
  blind (load_and_settle E link_).
Proof. unfold load_and_settle, aceitar_cookies. auto 8 with blind. Qed.

Lemma blind_try_screenshot (E : env) : blind (try_screenshot E).
Proof. unfold try_screenshot. auto with blind. Qed.

#[local] Hint Resolve blind_wait_pdp_ready blind_load_and_settle
  blind_try_screenshot : blind.

Lemma blind_after_settle (E : env) (attempt attempt_max : nat) (log : bool) :
  blind (after_settle E attempt attempt_max log).
Proof. unfold after_settle. auto 12 with blind. Qed.

#[local] Hint Resolve blind_after_settle : blind.

Lemma blind_tentativa (E : env) (link_ : str) (attempt attempt_max : nat)
    (log : bool) : blind (tentativa E link_ attempt attempt_max log).
Proof. unfold tentativa. auto 8 with blind. Qed.

#[local] Hint Resolve blind_tentativa : blind.

Lemma blind_open_pdp_from (E : env) (link_ : str) (remaining : nat) :
  forall (attempt attempt_max : nat) (log : bool),
    blind (open_pdp_from E link_ attempt remaining attempt_max log).
Proof.
  induction remaining as [|k IH]; intros attempt attempt_max log;
    cbn [open_pdp_from]; auto 6 with blind.
Qed.

Lemma blind_open_pdp (E : env) (link_ : str) (attempt_max : nat) (log : bool) :
  blind (open_pdp E link_ attempt_max log).
Proof. apply blind_open_pdp_from. Qed.

Lemma blind_extrair_pdp (E : env) : blind (extrair_pdp E).
Proof. unfold extrair_pdp. auto 14 with blind. Qed.

(** [open_pdp] returns: every exception of an attempt is caught. *)
Lemma tentativa_returns (E : env) (link_ : str) (attempt attempt_max : nat)
    (log : bool) (tr : list event) :
  returns (fst (tentativa E link_ attempt attempt_max log tr)).
Proof.
  unfold tentativa, scatch.
  destruct (sbind _ _ tr) as [[a|e] tr1]; cbn [fst returns]; [exact I|].
  unfold sbind. destruct log; cbn; exact I.
Qed.

Lemma open_pdp_from_returns (E : env) (link_ : str) (remaining : nat) :
  forall (attempt attempt_max : nat) (log : bool) (tr : list event),
    returns (fst (open_pdp_from E link_ attempt remaining attempt_max log tr)).
Proof.
  induction remaining as [|k IH]; intros attempt attempt_max log tr;
    cbn [open_pdp_from]; [exact I|].
  unfold sbind at 1.
  pose proof (tentativa_returns E link_ attempt attempt_max log tr) as Hr.
  destruct (tentativa E link_ attempt attempt_max log tr) as [[[b|]|e] tr1];
    cbn [fst returns] in Hr |- *; try exact I; try contradiction.
  apply IH.
Qed.

(** *** Steps of the run that leave the artifacts alone *)

Lemma passa_weaken (ok ok' : event -> bool) (A : Type) (c : M A) :
  (forall evs, forallb ok evs = true -> forallb ok' evs = true) ->
  passa ok c -> passa ok' c.
Proof.
  intros Hw Hc w. destruct (Hc w) as (evs & H1 & H2 & H3 & H4 & H5).
  exists evs. repeat split; auto.
Qed.

Lemma passa_sret (ok : event -> bool) (A : Type) (a : A) : passa ok (sret a).
Proof.
  intros w. exists []. cbn. rewrite !app_nil_r. repeat split.
Qed.

Lemma passa_pure (ok : event -> bool) (A : Type) (x : py A) :
  passa ok (fun w : world => (x, w)).
Proof.
  intros w. exists []. cbn. rewrite !app_nil_r. repeat split.
Qed.

Lemma passa_get_todos (ok : event -> bool) : passa ok get_todos.
Proof.
  intros w. exists []. cbn. rewrite !app_nil_r. repeat split.
Qed.

Lemma passa_lift (A : Type) (c : T A) : blind c -> passa inert (lift c).
Proof.
  intros Hc w. destruct (Hc (trace w)) as (evs & H1 & H2).
  exists evs. unfold lift. destruct (c (trace w)) as [r tr].
  cbn [snd trace todos parcial final] in *.
  rewrite (inert_appended _ H2), app_nil_r. repeat split; auto.
Qed.

Lemma passa_sbind (ok : event -> bool) (A B : Type) (c : M A) (k : A -> M B) :
  passa ok c -> (forall a, passa ok (k a)) -> passa ok (sbind c k).
Proof.
  intros Hc Hk w. unfold sbind.
  destruct (Hc w) as (evs1 & T1 & D1 & P1 & F1 & O1).
  destruct (c w) as [[a|e] w1]; cbn [snd] in *.
  - destruct (Hk a w1) as (evs2 & T2 & D2 & P2 & F2 & O2).
    exists (evs1 ++ evs2).
    rewrite T2, T1, D2, D1, P2, P1, F2, F1, appended_app, forallb_app, O1, O2,
      !app_assoc.
    repeat split.
  - exists evs1. repeat split; auto.
Qed.

Lemma passa_scatch_timeout (ok : event -> bool) (A : Type) (c h : M A) :
  passa ok c -> passa ok h -> passa ok (scatch_timeout c h).
Proof.
  intros Hc Hh w. unfold scatch_timeout.
  destruct (Hc w) as (evs1 & T1 & D1 & P1 & F1 & O1).
  destruct (c w) as [[a|e] w1]; cbn [snd] in *.
  - exists evs1. repeat split; auto.
  - destruct (Hh w1) as (evs2 & T2 & D2 & P2 & F2 & O2).
    destruct e; try (exists evs1; repeat split; auto; fail).
    exists (evs1 ++ evs2).
    rewrite T2, T1, D2, D1, P2, P1, F2, F1, appended_app, forallb_app, O1, O2,
      !app_assoc.
    repeat split.
Qed.

Lemma passa_self_log (m : log_msg) :
  inert (ELog m) = true -> passa inert (self_log m).
Proof. intros H. apply passa_lift. now apply blind_emit. Qed.

Lemma passa_progress (cur total : nat) : passa inert (progress cur total).
Proof. apply passa_lift. now apply blind_emit. Qed.

Lemma passa_humanize (on : bool) : passa inert (humanize on).
Proof.
  destruct on; [apply passa_lift; now apply blind_emit | apply passa_sret].
Qed.

Lemma passa_append_todos (r : registro) : passa calado (append_todos r).
Proof.
  intros w. exists [EAppend r]. cbn. repeat split.
Qed.

Create HintDb passa.

#[local] Hint Resolve passa_sret passa_pure passa_get_todos passa_sbind
  passa_scatch_timeout passa_self_log passa_progress passa_humanize : passa.
#[local] Hint Extern 1 (inert _ = true) => reflexivity : passa.
#[local] Hint Extern 1 (passa inert (lift _)) =>
  apply passa_lift; auto 14 with blind : passa.
#[local] Hint Extern 2 (passa _ (if ?b then _ else _)) => destruct b : passa.

Lemma passa_inert_calado (A : Type) (c : M A) : passa inert c -> passa calado c.
Proof. apply passa_weaken. exact inert_calado. Qed.

(** *** The candidate loop *)

Section Cancelamento.

Variable E : env.
Hypothesis Hstay : stays_set E.

Lemma cand_ok_sret (A : Type) (a : A) : cand_ok E (sret a).
Proof.
  intros w. exists []. cbn. rewrite !app_nil_r. repeat split; discriminate.
Qed.

Lemma cand_ok_bind_passa (A B : Type) (c : M A) (k : A -> M B) :
  passa calado c -> (forall a, cand_ok E (k a)) -> cand_ok E (sbind c k).
Proof.
  intros Hc Hk w. unfold sbind.
  destruct (Hc w) as (evs1 & T1 & D1 & P1 & F1 & O1).
  pose proof (calado_observed _ O1) as Ob1.
  pose proof (calado_erro _ O1) as Er1.
  destruct (c w) as [[a|e] w1]; cbn [snd fst] in *.
  - destruct (Hk a w1) as (evs2 & T2 & D2 & P2 & F2 & Er2 & C2 & Ob2).
    exists (evs1 ++ evs2).
    split; [now rewrite T2, T1, <- app_assoc|].
    split; [now rewrite D2, D1, appended_app, <- app_assoc|].
    split; [congruence|]. split; [congruence|].
    split; [now rewrite erro_app, Er1, Er2|].
    split; [now rewrite calm_app, Ob1|].
    rewrite observed_app, Ob1. exact Ob2.
  - exists evs1. rewrite Ob1. repeat split; auto using unobserved_calm;
      discriminate.
Qed.

(** The flag read at the top of a loop: set, the loop is left; not set,
    the pass goes on. *)
Lemma cand_ok_check (A : Type) (l : loop) (X Y : M A) :
  parado E X -> cand_ok E Y ->
  (forall w, parcial (snd (X w)) = parcial w) ->
  (forall w, erro (skipn (List.length (trace w)) (trace (snd (X w)))) = false) ->
  cand_ok E (stop <~ lift (check_stop E l) ;; if stop then X else Y).
Proof.
  intros HX HY HP HE w. unfold sbind, lift, check_stop.
  cbn [trace todos parcial final].
  destruct (stop_is_set E (List.length (trace w))) eqn:Hs.
  - set (w1 := {| trace := trace w ++ [ECheckStop l true]; todos := todos w;
                  parcial := parcial w; final := final w |}).
    assert (Hs1 : stop_is_set E (List.length (trace w1)) = true).
    { apply (Hstay Hs). cbn. rewrite length_app. lia. }
    destruct (HX w1 Hs1) as (evs & T1 & Q1 & D1 & F1 & R1 & _).
    exists (ECheckStop l true :: evs).
    split; [rewrite T1; cbn [trace w1]; now rewrite <- app_assoc|].
    split.
    { rewrite D1. change (appended (ECheckStop l true :: evs))
        with (appended evs).
      now rewrite (quiet_appended _ Q1), app_nil_r. }
    split; [now rewrite HP|]. split; [now rewrite F1|].
    split.
    { specialize (HE w1). rewrite T1, skipn_app, Nat.sub_diag, skipn_all in HE.
      exact HE. }
    split; [exact Q1|].
    intros _. split; [|exact R1].
    apply (Hstay Hs). rewrite T1, length_app. cbn [trace w1].
    rewrite length_app. lia.
  - set (w1 := {| trace := trace w ++ [ECheckStop l false]; todos := todos w;
                  parcial := parcial w; final := final w |}).
    destruct (HY w1) as (evs & T1 & D1 & P1 & F1 & Er1 & C1 & Ob1).
    exists (ECheckStop l false :: evs).
    split; [rewrite T1; cbn [trace w1]; now rewrite <- app_assoc|].
    split; [now rewrite D1|]. split; [now rewrite P1|].
    split; [now rewrite F1|]. split; [exact Er1|]. split; [exact C1|].
    exact Ob1.
Qed.

Lemma parado_sret (A : Type) (a : A) : parado E (sret a).
Proof.
  intros w _. exists []. cbn. rewrite app_nil_r. repeat split; auto.
Qed.

Lemma cand_ok_processar_candidatos (cfg : JobConfig) (termo consulta_ : str)
    (selecionados : list candidato) :
  forall j total : nat,
    cand_ok E (processar_candidatos E cfg termo consulta_ selecionados j total).
Proof.
  induction selecionados as [|base rest IH]; intros j total;
    cbn [processar_candidatos].
  - apply cand_ok_sret.
  - apply cand_ok_check;
      [apply parado_sret | | reflexivity
      | intros w; cbn; now rewrite skipn_all].
    apply cand_ok_bind_passa;
      [apply passa_inert_calado; auto with passa | intros _].
    apply cand_ok_bind_passa;
      [apply passa_inert_calado, passa_lift, blind_open_pdp | intros ok].
    destruct ok; cbn [negb].
    + apply cand_ok_bind_passa;
        [apply passa_inert_calado; auto with passa | intros _].
      apply cand_ok_bind_passa;
        [apply passa_inert_calado; auto with passa | intros _].
      apply cand_ok_bind_passa;
        [apply passa_inert_calado, passa_lift, blind_extrair_pdp | intros d].
      apply cand_ok_bind_passa; [apply passa_append_todos | intros _].
      apply cand_ok_bind_passa;
        [apply passa_inert_calado, passa_lift; now apply blind_emit
        | intros _].
      apply IH.
    + apply cand_ok_bind_passa;
        [apply passa_inert_calado; auto with passa | intros _].
      apply IH.
Qed.

(** *** With the flag set *)

Lemma parado_emit (e : event) :
  quiet e = true -> parado E (lift (emit e)).
Proof.
  intros Hq w _. exists [e]. cbn. rewrite Hq. repeat split; auto.
Qed.

Lemma parado_self_log (m : log_msg) : parado E (self_log m).
Proof. now apply parado_emit. Qed.

Lemma parado_progress (cur total : nat) : parado E (progress cur total).
Proof. now apply parado_emit. Qed.

Lemma parado_bind (A B : Type) (c : M A) (k : A -> M B) :
  parado E c -> (forall a, parado E (k a)) -> parado E (sbind c k).
Proof.
  intros Hc Hk w Hs. unfold sbind.
  destruct (Hc w Hs) as (evs1 & T1 & Q1 & D1 & F1 & R1 & Fr1).
  destruct (c w) as [[a|e] w1]; cbn [fst snd returns] in *; [|contradiction].
  assert (Hs1 : stop_is_set E (List.length (trace w1)) = true).
  { apply (Hstay Hs). rewrite T1, length_app. lia. }
  destruct (Hk a w1 Hs1) as (evs2 & T2 & Q2 & D2 & F2 & R2 & Fr2).
  exists (evs1 ++ evs2).
  split; [now rewrite T2, T1, <- app_assoc|].
  split; [now rewrite forallb_app, Q1, Q2|].
  split; [congruence|]. split; [congruence|]. split; [exact R2|].
  auto.
Qed.

Lemma parado_check (A : Type) (l : loop) (X Y : M A) :
  parado E X ->
  parado E (stop <~ lift (check_stop E l) ;; if stop then X else Y).
Proof.
  intros HX w Hs. unfold sbind, lift, check_stop.
  cbn [trace todos parcial final]. rewrite Hs.
  set (w1 := {| trace := trace w ++ [ECheckStop l true]; todos := todos w;
                parcial := parcial w; final := final w |}).
  assert (Hs1 : stop_is_set E (List.length (trace w1)) = true).
  { apply (Hstay Hs). cbn. rewrite length_app. lia. }
  destruct (HX w1 Hs1) as (evs & T1 & Q1 & D1 & F1 & R1 & Fr1).
  exists (ECheckStop l true :: evs).
  split; [rewrite T1; cbn [trace w1]; now rewrite <- app_assoc|].
  split; [exact Q1|]. split; [exact D1|]. split; [exact F1|].
  split; [exact R1|]. intros Hx Hf. apply Fr1; assumption.
Qed.

Lemma parado_processar_candidatos (cfg : JobConfig) (termo consulta_ : str)
    (selecionados : list candidato) (j total : nat) :
  parado E (processar_candidatos E cfg termo consulta_ selecionados j total).
Proof.
  destruct selecionados as [|base rest]; cbn [processar_candidatos].
  - apply parado_sret.
  - apply parado_check, parado_sret.
Qed.

Lemma parado_run_termos (cfg : JobConfig) (termos : list str)
    (idx total : nat) : parado E (run_termos E cfg termos idx total).
Proof.
  destruct termos as [|termo rest]; cbn [run_termos].
  - apply parado_sret.
  - apply parado_check, parado_self_log.
Qed.

(** The card loop adds flag reads, card events and card errors. *)
Lemma selecionar_cards_spec (n : Z) (cards : list (py candidato)) :
  forall (i : nat) (vistos : list str) (sel : list candidato)
         (tr : list event) (r : py (list candidato)) (tr' : list event),
  selecionar_cards E n cards i vistos sel tr = (r, tr') ->
  exists evs,
    tr' = tr ++ evs /\
    returns r /\
    appended evs = [] /\ erro evs = false /\ viu evs = false /\
    calm evs = true /\
    (observed evs = true ->
     stop_is_set E (List.length (tr ++ evs)) = true) /\
    (stop_is_set E (List.length tr) = true -> forallb quiet evs = true).
Proof.
  induction cards as [|card rest IH]; intros i vistos sel tr r tr' Heq;
    cbn [selecionar_cards] in Heq.
  - inversion Heq; subst. exists []. cbn. rewrite app_nil_r.
    repeat split; auto; discriminate.
  - unfold sbind at 1 in Heq. unfold check_stop in Heq. cbv beta zeta in Heq.
    destruct (stop_is_set E (List.length tr)) eqn:Hs.
    + inversion Heq; subst.
      exists [ECheckStop NoCard true].
      split; [reflexivity|]. split; [exact I|].
      do 4 (split; [reflexivity|]).
      split; [|reflexivity].
      intros _. apply (Hstay Hs). rewrite length_app. lia.
    + assert (Hrec : forall i' vistos' sel' pre,
                 forallb inert pre = true ->
                 selecionar_cards E n rest i' vistos' sel'
                   ((tr ++ [ECheckStop NoCard false]) ++ ECard i :: pre)
                 = (r, tr') ->
                 exists evs,
                   tr' = tr ++ evs /\ returns r /\
                   appended evs = [] /\ erro evs = false /\
                   viu evs = false /\ calm evs = true /\
                   (observed evs = true ->
                    stop_is_set E (List.length (tr ++ evs)) = true) /\
                   (false = true -> forallb quiet evs = true)).
      { intros i' vistos' sel' pre Hpre Hrun.
        destruct (IH i' vistos' sel' _ _ _ Hrun)
          as (evs & T1 & R1 & A1 & E1 & V1 & C1 & O1 & _).
        exists ([ECheckStop NoCard false; ECard i] ++ pre ++ evs).
        pose proof (inert_calado _ Hpre) as Hc.
        split.
        { rewrite T1, <- !app_assoc. reflexivity. }
        split; [exact R1|].
        split.
        { rewrite !appended_app, A1, (inert_appended _ Hpre). reflexivity. }
        split.
        { now rewrite !erro_app, E1, (calado_erro _ Hc). }
        split.
        { rewrite !viu_app, V1.
          destruct (viu pre) eqn:Hv; [|reflexivity].
          apply viu_observed in Hv.
          now rewrite (calado_observed _ Hc) in Hv. }
        split.
        { rewrite calm_app. cbn [observed existsb orb].
          rewrite calm_app, (calado_observed _ Hc). exact C1. }
        split; [|discriminate].
        rewrite !observed_app, (calado_observed _ Hc).
        cbn [observed existsb orb]. intros H.
        specialize (O1 H). rewrite <- !app_assoc in O1. exact O1. }
      unfold sbind at 1 in Heq. cbn [emit] in Heq.
      destruct card as [base|e].
      * destruct (c_link base) as [l|].
        -- destruct (negb (truthy l) || existsb (eqb_str l) vistos).
           ++ apply (Hrec (S i) vistos sel []); [reflexivity | exact Heq].
           ++ destruct (n <=? Z.of_nat (List.length (sel ++ [base])))%Z.
              ** inversion Heq; subst.
                 exists [ECheckStop NoCard false; ECard i]. cbn.
                 rewrite <- app_assoc. repeat split; auto; discriminate.
              ** apply (Hrec (S i) (l :: vistos) (sel ++ [base]) []);
                   [reflexivity | exact Heq].
        -- apply (Hrec (S i) vistos sel []); [reflexivity | exact Heq].
      * unfold sbind at 1 in Heq. cbn [emit] in Heq.
        rewrite <- (app_assoc _ [ECard i] [ELog (LogErroCard i)]) in Heq.
        apply (Hrec (S i) vistos sel [ELog (LogErroCard i)]);
          [reflexivity | exact Heq].
Qed.

(** *** The Term loop *)

Lemma termo_ok_passa (A : Type) (c : M A) : passa inert c -> termo_ok E c.
Proof.
  intros Hc w. destruct (Hc w) as (evs & T1 & D1 & P1 & F1 & O1).
  pose proof (inert_calado _ O1) as Oc.
  pose proof (calado_observed _ Oc) as Ob.
  exists evs. split; [exact T1|]. split; [exact D1|]. split; [exact F1|].
  split; [now apply unobserved_calm|].
  split; [rewrite Ob; discriminate|].
  split.
  - intros _ Hv. apply viu_observed in Hv. congruence.
  - intros _ _ Hf. unfold fresh in *.
    rewrite D1, P1, (inert_appended _ O1), app_nil_r. exact Hf.
Qed.

Lemma termo_ok_sret (A : Type) (a : A) : termo_ok E (sret a).
Proof. apply termo_ok_passa, passa_sret. Qed.

Lemma termo_ok_bind_passa (A B : Type) (c : M A) (k : A -> M B) :
  passa inert c -> (forall a, termo_ok E (k a)) -> termo_ok E (sbind c k).
Proof.
  intros Hc Hk w. unfold sbind.
  destruct (termo_ok_passa Hc w) as (evs0 & T0 & D0 & F0 & C0 & Ob0 & V0 & Er0).
  destruct (Hc w) as (evs1 & T1 & D1 & P1 & F1 & O1).
  pose proof (inert_calado _ O1) as Oc.
  pose proof (calado_observed _ Oc) as Ob1.
  pose proof (calado_erro _ Oc) as Ee1.
  destruct (c w) as [[a|e] w1]; cbn [snd fst] in *.
  - destruct (Hk a w1) as (evs2 & T2 & D2 & F2 & C2 & Ob2 & V2 & Er2).
    exists (evs1 ++ evs2).
    split; [now rewrite T2, T1, <- app_assoc|].
    split; [now rewrite D2, D1, appended_app, <- app_assoc|].
    split; [congruence|].
    split; [now rewrite calm_app, Ob1|].
    split; [rewrite observed_app, Ob1; exact Ob2|].
    split.
    + intros Hx Hv. rewrite viu_app in Hv.
      destruct (viu evs1) eqn:Hv1.
      * apply viu_observed in Hv1. congruence.
      * apply V2; assumption.
    + intros Hx He Hf. rewrite erro_app, Ee1 in He. apply Er2; auto.
      unfold fresh in *.
      rewrite D1, P1, (inert_appended _ O1), app_nil_r. exact Hf.
  - exists evs0. repeat split; auto; apply Ob0; assumption.
Qed.

Lemma termo_ok_bind (A B : Type) (c : M A) (k : A -> M B) :
  termo_ok E c -> (forall a, termo_ok E (k a)) -> (forall a, parado E (k a)) ->
  termo_ok E (sbind c k).
Proof.
  intros Hc Hk Hp w. unfold sbind.
  destruct (Hc w) as (evs1 & T1 & D1 & F1 & C1 & Ob1 & V1 & Er1).
  destruct (c w) as [[a|e] w1]; cbn [snd fst] in *.
  - destruct (Hk a w1) as (evs2 & T2 & D2 & F2 & C2 & Ob2 & V2 & Er2).
    assert (Hq : observed evs1 = true ->
                 forallb quiet evs2 = true /\
                 returns (fst (k a w1)) /\
                 stop_is_set E (List.length (trace (snd (k a w1)))) = true /\
                 (excel_ok E -> fresh w1 -> fresh (snd (k a w1)))).
    { intros Ho. destruct (Ob1 Ho) as [Hs _].
      destruct (Hp a w1 Hs) as (evs & T3 & Q3 & D3 & F3 & R3 & Fr3).
      rewrite T2 in T3. apply app_inv_head in T3. subst evs.
      split; [exact Q3|]. split; [exact R3|]. split; [|exact Fr3].
      apply (Hstay Hs). rewrite T2, length_app. lia. }
    exists (evs1 ++ evs2).
    split; [now rewrite T2, T1, <- app_assoc|].
    split; [now rewrite D2, D1, appended_app, <- app_assoc|].
    split; [congruence|].
    split.
    { rewrite calm_app. destruct (observed evs1); [|exact C2].
      rewrite C1. apply Hq. reflexivity. }
    split.
    { rewrite observed_app. destruct (observed evs1); [|exact Ob2].
      intros _. split; apply Hq; reflexivity. }
    split.
    + intros Hx Hv. rewrite viu_app in Hv.
      destruct (viu evs1) eqn:Hv1.
      * apply Hq; auto. now apply viu_observed.
      * apply V2; assumption.
    + intros Hx He Hf. rewrite erro_app in He.
      apply orb_false_iff in He as [He1 He2]. auto.
  - exists evs1. repeat split; auto; apply Ob1; assumption.
Qed.

Lemma termo_ok_check_termo (Y : M unit) :
  termo_ok E Y ->
  termo_ok E (stop <~ lift (check_stop E NoTermo) ;;
              if stop then self_log LogInterrompido else Y).
Proof.
  intros HY w. unfold sbind, lift, check_stop.
  cbn [trace todos parcial final].
  destruct (stop_is_set E (List.length (trace w))) eqn:Hs.
  - exists [ECheckStop NoTermo true; ELog LogInterrompido].
    cbn. rewrite <- app_assoc, app_nil_r.
    split; [reflexivity|]. split; [reflexivity|]. split; [reflexivity|].
    split; [reflexivity|].
    split.
    { intros _. split; [|exact I]. apply (Hstay Hs).
      rewrite length_app. lia. }
    split; [discriminate|]. intros _ _ Hf. exact Hf.
  - set (w1 := {| trace := trace w ++ [ECheckStop NoTermo false];
                  todos := todos w; parcial := parcial w;
                  final := final w |}).
    destruct (HY w1) as (evs & T1 & D1 & F1 & C1 & Ob1 & V1 & Er1).
    exists (ECheckStop NoTermo false :: evs).
    split; [rewrite T1; cbn [trace w1]; now rewrite <- app_assoc|].
    split; [now rewrite D1|]. split; [now rewrite F1|].
    split; [exact C1|]. split; [exact Ob1|].
    split; [exact V1|]. intros Hx He Hf. apply Er1; auto.
Qed.

Lemma termo_ok_selecionar_cards (n : Z) (cards : list (py candidato))
    (i : nat) (vistos : list str) (sel : list candidato) :
  termo_ok E (lift (selecionar_cards E n cards i vistos sel)).
Proof.
  intros w. unfold lift.
  destruct (selecionar_cards E n cards i vistos sel (trace w)) as [r tr']
    eqn:Heq.
  destruct (selecionar_cards_spec _ _ _ _ _ _ Heq)
    as (evs & T1 & R1 & A1 & E1 & V1 & C1 & O1 & _).
  exists evs. cbn [fst snd trace todos parcial final].
  split; [exact T1|]. split; [now rewrite A1, app_nil_r|].
  split; [reflexivity|]. split; [exact C1|].
  split; [intros H; split; [rewrite T1; auto | exact R1]|].
  split; [intros _ H; congruence|].
  intros _ _ Hf. exact Hf.
Qed.

Lemma parado_selecionar_cards (n : Z) (cards : list (py candidato))
    (i : nat) (vistos : list str) (sel : list candidato) :
  parado E (lift (selecionar_cards E n cards i vistos sel)).
Proof.
  intros w Hs. unfold lift.
  destruct (selecionar_cards E n cards i vistos sel (trace w)) as [r tr']
    eqn:Heq.
  destruct (selecionar_cards_spec _ _ _ _ _ _ Heq)
    as (evs & T1 & R1 & A1 & E1 & V1 & C1 & O1 & Q1).
  exists evs. cbn [fst snd trace todos parcial final].
  split; [exact T1|]. split; [exact (Q1 Hs)|].
  split; [reflexivity|]. split; [reflexivity|]. split; [exact R1|].
  intros _ Hf. exact Hf.
Qed.

(** The checkpoint, step by step. *)
Lemma salvar_parcial_exact (w : world) :
  salvar_parcial E w
  = match todos w with
    | [] => (Ret tt, w)
    | _ :: _ =>
        match excel_result E (List.length (trace w)) with
        | Done =>
            (Ret tt,
             {| trace := trace w ++ [EWritePartial; ELog LogParcial];
                todos := todos w; parcial := Some (todos w);
                final := final w |})
        | o =>
            (match raise_of o with
             | Ret _ => Raise OtherError
             | Raise e => Raise e
             end,
             {| trace := trace w ++ [EWritePartial];
                todos := todos w; parcial := parcial w; final := final w |})
        end
    end.
Proof.
  unfold salvar_parcial, sbind, get_todos.
  destruct (todos w) as [|r rs] eqn:Et; [reflexivity|].
  unfold write_parcial, sbind, lift, call, self_log, lift, emit.
  cbn [trace todos parcial final].
  destruct (excel_result E (List.length (trace w)));
    cbn [raise_of trace todos parcial final];
    rewrite <- ?app_assoc, ?Et; reflexivity.
Qed.

Lemma parado_processar_selecionados (cfg : JobConfig) (termo consulta_ : str)
    (selecionados : list candidato) :
  parado E (processar_selecionados E cfg termo consulta_ selecionados).
Proof.
  intros w Hs. unfold processar_selecionados, scatch, sbind.
  destruct (parado_processar_candidatos cfg termo consulta_ selecionados
              1 (List.length selecionados) w Hs)
    as (evs1 & T1 & Q1 & D1 & F1 & R1 & _).
  destruct (processar_candidatos E cfg termo consulta_ selecionados 1
              (List.length selecionados) w) as [[[]|e] w1];
    cbn [fst snd returns] in *; [|contradiction].
  rewrite salvar_parcial_exact.
  destruct (todos w1) as [|r rs] eqn:Et.
  - exists evs1. cbn [fst snd].
    split; [exact T1|]. split; [exact Q1|]. split; [congruence|].
    split; [exact F1|]. split; [exact I|]. intros _ _. now left.
  - destruct (excel_result E (List.length (trace w1))) eqn:Ex;
      cbn [raise_of self_log lift emit fst snd trace todos parcial final].
    + exists (evs1 ++ [EWritePartial; ELog LogParcial]).
      split; [now rewrite T1, <- app_assoc|].
      split; [now rewrite forallb_app, Q1|].
      split; [congruence|]. split; [exact F1|]. split; [exact I|].
      intros _ _. right. reflexivity.
    + exists (evs1 ++ [EWritePartial; ELog LogErroPdps]).
      split; [now rewrite T1, <- !app_assoc|].
      split; [now rewrite forallb_app, Q1|].
      split; [congruence|]. split; [exact F1|]. split; [exact I|].
      intros Hx _. specialize (Hx (List.length (trace w1))). congruence.
    + exists (evs1 ++ [EWritePartial; ELog LogErroPdps]).
      split; [now rewrite T1, <- !app_assoc|].
      split; [now rewrite forallb_app, Q1|].
      split; [congruence|]. split; [exact F1|]. split; [exact I|].
      intros Hx _. specialize (Hx (List.length (trace w1))). congruence.
Qed.

Lemma termo_ok_processar_selecionados (cfg : JobConfig)
    (termo consulta_ : str) (selecionados : list candidato) :
  termo_ok E (processar_selecionados E cfg termo consulta_ selecionados).
Proof.
  intros w. unfold processar_selecionados, scatch, sbind.
  destruct (cand_ok_processar_candidatos cfg termo consulta_ selecionados
              1 (List.length selecionados) w)
    as (evs1 & T1 & D1 & P1 & F1 & Er1 & C1 & Ob1).
  destruct (processar_candidatos E cfg termo consulta_ selecionados 1
              (List.length selecionados) w) as [[[]|e] w1];
    cbn [fst snd returns] in *.
  - rewrite salvar_parcial_exact.
    destruct (todos w1) as [|r rs] eqn:Et.
    + exists evs1. cbn [fst snd].
      split; [exact T1|]. split; [congruence|]. split; [exact F1|].
      split; [exact C1|]. split; [exact Ob1|].
      split; intros; now left.
    + assert (Hobs : forall tail, observed tail = false ->
                forallb quiet tail = true ->
                calm (evs1 ++ tail) = true /\
                (observed (evs1 ++ tail) = true ->
                 stop_is_set E (List.length (trace w1 ++ tail)) = true)).
      { intros tail Ht Hq. rewrite calm_app, observed_app, Ht, orb_false_r.
        destruct (observed evs1).
        - split; [now rewrite C1, Hq|].
          intros _. destruct (Ob1 eq_refl) as [Hs _].
          apply (Hstay Hs). rewrite length_app. lia.
        - split; [now apply quiet_calm | discriminate]. }
      destruct (excel_result E (List.length (trace w1))) eqn:Ex;
        cbn [raise_of self_log lift emit fst snd trace todos parcial final].
      * exists (evs1 ++ [EWritePartial; ELog LogParcial]).
        destruct (Hobs [EWritePartial; ELog LogParcial] eq_refl eq_refl)
          as [Hc Ho].
        split; [now rewrite T1, <- app_assoc|].
        split; [now rewrite appended_app, app_nil_r|].
        split; [exact F1|]. split; [exact Hc|].
        split; [intros H; split; [exact (Ho H) | exact I]|].
        split; intros; right; reflexivity.
      * exists (evs1 ++ [EWritePartial; ELog LogErroPdps]).
        destruct (Hobs [EWritePartial; ELog LogErroPdps] eq_refl eq_refl)
          as [Hc Ho].
        split; [now rewrite T1, <- !app_assoc|].
        split; [now rewrite appended_app, app_nil_r|].
        split; [exact F1|]. split; [exact Hc|].
        split.
        { intros H; split; [|exact I].
          rewrite <- app_assoc. exact (Ho H). }
        split; intros Hx; specialize (Hx (List.length (trace w1)));
          congruence.
      * exists (evs1 ++ [EWritePartial; ELog LogErroPdps]).
        destruct (Hobs [EWritePartial; ELog LogErroPdps] eq_refl eq_refl)
          as [Hc Ho].
        split; [now rewrite T1, <- !app_assoc|].
        split; [now rewrite appended_app, app_nil_r|].
        split; [exact F1|]. split; [exact Hc|].
        split.
        { intros H; split; [|exact I].
          rewrite <- app_assoc. exact (Ho H). }
        split; intros Hx; specialize (Hx (List.length (trace w1)));
          congruence.
  - assert (Ho : observed evs1 = false).
    { destruct (observed evs1); [|reflexivity].
      destruct (Ob1 eq_refl) as [_ []]. }
    exists (evs1 ++ [ELog LogErroPdps]).
    cbn [self_log lift emit fst snd trace todos parcial final].
    split; [now rewrite T1, <- app_assoc|].
    split; [now rewrite appended_app, app_nil_r|].
    split; [exact F1|].
    split; [now rewrite calm_app, Ho|].
    split; [rewrite observed_app, Ho; discriminate|].
    split.
    + intros _ Hv. rewrite viu_app, orb_false_r in Hv.
      apply viu_observed in Hv. congruence.
    + intros _ He. rewrite erro_app, orb_true_r in He. discriminate.
Qed.

Lemma blind_aceitar_cookies : blind aceitar_cookies.
Proof. now apply blind_emit. Qed.

Lemma parado_continuar (cfg : JobConfig) (idx total : nat)
    (termo consulta_ : str) (selecionados : list candidato) :
  parado E
    match selecionados with
    | [] => progress idx total
    | _ :: _ =>
        self_log (LogProcessando (List.length selecionados)) ;;;
        processar_selecionados E cfg termo consulta_ selecionados ;;;
        progress idx total ;;;
        lift (emit ESleep)
    end.
Proof.
  destruct selecionados as [|base rest]; [apply parado_progress|].
  apply parado_bind; [apply parado_self_log | intros _].
  apply parado_bind; [apply parado_processar_selecionados | intros _].
  apply parado_bind; [apply parado_progress | intros _].
  now apply parado_emit.
Qed.

Lemma termo_ok_continuar (cfg : JobConfig) (idx total : nat)
    (termo consulta_ : str) (selecionados : list candidato) :
  termo_ok E
    match selecionados with
    | [] => progress idx total
    | _ :: _ =>
        self_log (LogProcessando (List.length selecionados)) ;;;
        processar_selecionados E cfg termo consulta_ selecionados ;;;
        progress idx total ;;;
        lift (emit ESleep)
    end.
Proof.
  destruct selecionados as [|base rest];
    [apply termo_ok_passa, passa_progress|].
  apply termo_ok_bind_passa; [now apply passa_self_log | intros _].
  apply termo_ok_bind; [apply termo_ok_processar_selecionados | |].
  - intros _. apply termo_ok_passa.
    apply passa_sbind; [apply passa_progress | intros _].
    apply passa_lift. now apply blind_emit.
  - intros _. apply parado_bind; [apply parado_progress | intros _].
    now apply parado_emit.
Qed.

Lemma termo_ok_processar_termo (cfg : JobConfig) (idx total : nat)
    (termo : str) : termo_ok E (processar_termo E cfg idx total termo).
Proof.
  unfold processar_termo.
  apply termo_ok_bind_passa; [apply passa_pure | intros consulta_].
  destruct (negb (truthy consulta_)).
  { apply termo_ok_passa.
    apply passa_sbind; [now apply passa_self_log | intros _].
    apply passa_progress. }
  apply termo_ok_bind_passa; [now apply passa_self_log | intros _].
  apply termo_ok_bind_passa; [now apply passa_self_log | intros _].
  apply termo_ok_bind_passa.
  { apply passa_scatch_timeout.
    - apply passa_sbind;
        [apply passa_lift; now apply blind_call | intros _].
      apply passa_sbind;
        [apply passa_lift, blind_aceitar_cookies | intros _].
      apply passa_sbind;
        [apply passa_lift; now apply blind_call | intros _].
      apply passa_sret.
    - apply passa_sbind; [now apply passa_self_log | intros _].
      apply passa_sbind; [apply passa_progress | intros _].
      apply passa_sret. }
  intros found_page. destruct (negb found_page); [apply termo_ok_sret|].
  apply termo_ok_bind_passa; [apply passa_humanize | intros _].
  apply termo_ok_bind_passa; [apply passa_humanize | intros _].
  apply termo_ok_bind_passa;
    [apply passa_lift; now apply blind_emit | intros _].
  apply termo_ok_bind_passa;
    [apply passa_lift, blind_answer_of | intros cards].
  apply termo_ok_bind_passa; [now apply passa_self_log | intros _].
  destruct cards as [|card rest]; [apply termo_ok_passa, passa_progress|].
  apply termo_ok_bind; [apply termo_ok_selecionar_cards | |].
  - intros selecionados. apply termo_ok_continuar.
  - intros selecionados. apply parado_continuar.
Qed.

Lemma termo_ok_run_termos (cfg : JobConfig) (termos : list str) :
  forall idx total : nat, termo_ok E (run_termos E cfg termos idx total).
Proof.
  induction termos as [|termo rest IH]; intros idx total; cbn [run_termos].
  - apply termo_ok_sret.
  - apply termo_ok_check_termo.
    apply termo_ok_bind; [apply termo_ok_processar_termo | |]; intros _.
    + apply IH.
    + apply parado_run_termos.
Qed.

(** *** The end of the run *)

(** Closing the browser and writing the report, step by step. *)
Lemma finalizar_exact (cfg : JobConfig) (total : nat) (w : world) :
  finalizar E cfg total w
  = match close_result E (List.length (trace w)) with
    | Done =>
        match todos w with
        | [] =>
            (Ret tt,
             {| trace := trace w ++ [EClose; ELog LogNenhum;
                                     EProgress total total];
                todos := todos w; parcial := parcial w; final := final w |})
        | _ :: _ =>
            match excel_result E (S (List.length (trace w))) with
            | Done =>
                (Ret tt,
                 {| trace := trace w ++ [EClose; EWriteFinal;
                                         ELog LogFinalizado;
                                         EProgress total total];
                    todos := todos w; parcial := parcial w;
                    final := Some (consolidar (todos w) (nossas_lojas cfg)) |})
            | TimedOut =>
                (Raise PlaywrightTimeout,
                 {| trace := trace w ++ [EClose; EWriteFinal];
                    todos := todos w; parcial := parcial w;
                    final := final w |})
            | Failed =>
                (Raise OtherError,
                 {| trace := trace w ++ [EClose; EWriteFinal];
                    todos := todos w; parcial := parcial w;
                    final := final w |})
            end
        end
    | TimedOut =>
        (Raise PlaywrightTimeout,
         {| trace := trace w ++ [EClose]; todos := todos w;
            parcial := parcial w; final := final w |})
    | Failed =>
        (Raise OtherError,
         {| trace := trace w ++ [EClose]; todos := todos w;
            parcial := parcial w; final := final w |})
    end.
Proof.
  unfold finalizar, sbind, lift, call, get_todos.
  cbn [trace todos parcial final].
  destruct (close_result E (List.length (trace w)));
    cbn [raise_of trace todos parcial final]; try reflexivity.
  destruct (todos w) as [|r rs] eqn:Et.
  - unfold self_log, progress, lift, emit. cbn [trace todos parcial final].
    rewrite <- !app_assoc, ?Et. reflexivity.
  - unfold write_final, sbind, lift, call, self_log, progress, lift, emit.
    cbn [trace todos parcial final].
    rewrite length_app, Nat.add_comm. cbn [List.length Nat.add].
    destruct (excel_result E (S (List.length (trace w))));
      cbn [raise_of trace todos parcial final];
      rewrite <- ?app_assoc, ?Et; reflexivity.
Qed.

Lemma run_fim (cfg : JobConfig) (evs tail : list event) (w2 w3 : world) :
  trace w2 = [ELaunch; ELog LogContexto] ++ evs ->
  todos w2 = appended evs ->
  calm evs = true ->
  (excel_ok E -> viu evs = true -> fresh w2) ->
  (excel_ok E -> erro evs = false -> fresh w2) ->
  forallb quiet tail = true -> forallb inert tail = true ->
  trace w3 = trace w2 ++ tail ->
  todos w3 = todos w2 -> parcial w3 = parcial w2 ->
  (final w3 = None \/
   final w3 = Some (consolidar (todos w2) (nossas_lojas cfg))) ->
  (observed evs = true -> excel_ok E -> close_ok E -> todos w2 <> [] ->
   final w3 <> None) ->
  calm (trace w3) = true /\
  todos w3 = appended (trace w3) /\
  (excel_ok E -> viu (trace w3) = true \/ erro (trace w3) = false ->
   fresh w3) /\
  (forall rows, final w3 = Some rows ->
                rows = consolidar (todos w3) (nossas_lojas cfg)) /\
  (observed (trace w3) = true -> excel_ok E -> close_ok E ->
   todos w3 <> [] -> final w3 <> None).
Proof.
  intros T2 D2 C2 V2 Er2 Qt It T3 D3 P3 F3 H5.
  pose proof (inert_calado _ It) as Ct.
  pose proof (calado_observed _ Ct) as Ot.
  pose proof (calado_erro _ Ct) as Et.
  assert (Vt : viu tail = false).
  { destruct (viu tail) eqn:Hv; [|reflexivity].
    apply viu_observed in Hv. congruence. }
  assert (Hfr : fresh w2 -> fresh w3).
  { unfold fresh. now rewrite D3, P3. }
  rewrite T3, T2.
  split.
  { rewrite calm_app.
    change (observed ([ELaunch; ELog LogContexto] ++ evs))
      with (observed evs).
    change (calm ([ELaunch; ELog LogContexto] ++ evs)) with (calm evs).
    destruct (observed evs); [now rewrite C2, Qt | now apply quiet_calm]. }
  split.
  { rewrite !appended_app, (inert_appended _ It), app_nil_r.
    cbn [appended flat_map app]. congruence. }
  split.
  { intros Hx H. apply Hfr.
    rewrite !viu_app, !erro_app, Vt, Et, !orb_false_r in H.
    change (viu [ELaunch; ELog LogContexto]) with false in H.
    change (erro [ELaunch; ELog LogContexto]) with false in H.
    cbn [orb] in H.
    destruct H as [H|H]; auto. }
  split.
  { intros rows Hr. destruct F3 as [F3|F3]; rewrite F3 in Hr;
      [discriminate|]. injection Hr as <-. now rewrite D3. }
  intros Ho Hx Hc Hn. apply H5; auto.
  - rewrite !observed_app, Ot, orb_false_r in Ho. exact Ho.
  - now rewrite <- D3.
Qed.

(** What a whole run leaves behind. *)
Lemma run_facts (cfg : JobConfig) (termos : py (list str)) (r : py unit)
    (w : world) :
  run E cfg termos mundo_inicial = (r, w) ->
  calm (trace w) = true /\
  todos w = appended (trace w) /\
  (excel_ok E -> viu (trace w) = true \/ erro (trace w) = false -> fresh w) /\
  (forall rows, final w = Some rows ->
                rows = consolidar (todos w) (nossas_lojas cfg)) /\
  (observed (trace w) = true -> excel_ok E -> close_ok E ->
   todos w <> [] -> final w <> None).
Proof.
  intros Hrun. unfold run, scatch in Hrun. unfold sbind at 1 in Hrun.
  assert (Htriv : forall tr,
             observed tr = false -> appended tr = [] -> 
             let w0 := {| trace := tr; todos := []; parcial := None;
                          final := None |} in
             calm (trace w0) = true /\
             todos w0 = appended (trace w0) /\
             (excel_ok E -> viu (trace w0) = true \/ erro (trace w0) = false ->
              fresh w0) /\
             (forall rows, final w0 = Some rows ->
                           rows = consolidar (todos w0) (nossas_lojas cfg)) /\
             (observed (trace w0) = true -> excel_ok E -> close_ok E ->
              todos w0 <> [] -> final w0 <> None)).
  { intros tr Ho Ha. cbn [trace todos final].
    split; [now apply unobserved_calm|]. split; [now rewrite Ha|].
    split; [intros _ _; now left|]. split; [discriminate|]. congruence. }
  destruct termos as [[|termo rest]|e].
  - cbn in Hrun. injection Hrun as _ <-. now apply Htriv.
  - unfold sbind at 1 in Hrun. unfold lift at 1, call in Hrun.
    cbn [trace todos parcial final mundo_inicial app List.length] in Hrun.
    destruct (launch_result E 0);
      [|cbn in Hrun; injection Hrun as _ <-; now apply Htriv ..].
    cbn [raise_of] in Hrun. unfold sbind at 1 in Hrun.
    unfold self_log at 1, lift at 1, emit in Hrun.
    cbn [trace todos parcial final app] in Hrun.
    set (w1 := {| trace := [ELaunch; ELog LogContexto]; todos := [];
                  parcial := None; final := None |}) in Hrun.
    unfold sbind at 1 in Hrun.
    destruct (termo_ok_run_termos cfg (termo :: rest) 1
                (S (List.length rest)) w1)
      as (evs & T2 & D2 & F2 & C2 & Ob2 & V2 & Er2).
    assert (Hf1 : fresh w1) by now left.
    destruct (run_termos E cfg (termo :: rest) 1 (S (List.length rest)) w1)
      as [[[]|e] w2]; cbn [fst snd] in *.
    + rewrite finalizar_exact in Hrun.
      assert (Hcase : todos w2 = [] \/ exists r0 rs, todos w2 = r0 :: rs).
      { destruct (todos w2) as [|r0 rs]; [now left|right; now exists r0, rs]. }
      destruct (close_result E (List.length (trace w2))) eqn:Hcl.
      * destruct Hcase as [Et|(r0 & rs & Et)]; rewrite Et in Hrun.
        -- injection Hrun as _ <-.
           apply (@run_fim cfg evs
                    [EClose; ELog LogNenhum;
                     EProgress (S (List.length rest)) (S (List.length rest))]
                    w2 _ T2 D2 C2 V2 (fun Hx He => Er2 Hx He Hf1)
                    eq_refl eq_refl);
             cbn [trace todos parcial final];
             [reflexivity | now rewrite Et | reflexivity | left; exact F2 | ].
           intros _ _ _ Hn. now rewrite Et in Hn.
        -- destruct (excel_result E (S (List.length (trace w2)))) eqn:Hex.
           ++ injection Hrun as _ <-.
              apply (@run_fim cfg evs
                       [EClose; EWriteFinal; ELog LogFinalizado;
                        EProgress (S (List.length rest))
                          (S (List.length rest))]
                       w2 _ T2 D2 C2 V2 (fun Hx He => Er2 Hx He Hf1)
                       eq_refl eq_refl);
                cbn [trace todos parcial final];
                [reflexivity | now rewrite Et | reflexivity | right | discriminate].
              now rewrite Et.
           ++ cbn in Hrun. injection Hrun as _ <-.
              apply (@run_fim cfg evs
                       [EClose; EWriteFinal; ELog LogFatal; EProgress 0 0]
                       w2 _ T2 D2 C2 V2 (fun Hx He => Er2 Hx He Hf1)
                       eq_refl eq_refl);
                cbn [trace todos parcial final];
                [now rewrite <- !app_assoc | now rewrite Et | reflexivity
                | left; exact F2 | ].
              intros _ Hx. specialize (Hx (S (List.length (trace w2)))).
              congruence.
           ++ cbn in Hrun. injection Hrun as _ <-.
              apply (@run_fim cfg evs
                       [EClose; EWriteFinal; ELog LogFatal; EProgress 0 0]
                       w2 _ T2 D2 C2 V2 (fun Hx He => Er2 Hx He Hf1)
                       eq_refl eq_refl);
                cbn [trace todos parcial final];
                [now rewrite <- !app_assoc | now rewrite Et | reflexivity
                | left; exact F2 | ].
              intros _ Hx. specialize (Hx (S (List.length (trace w2)))).
              congruence.
      * cbn in Hrun. injection Hrun as _ <-.
        apply (@run_fim cfg evs [EClose; ELog LogFatal; EProgress 0 0]
                 w2 _ T2 D2 C2 V2 (fun Hx He => Er2 Hx He Hf1)
                 eq_refl eq_refl);
          cbn [trace todos parcial final];
          [now rewrite <- !app_assoc | reflexivity | reflexivity
          | left; exact F2 | ].
        intros _ _ Hx. specialize (Hx (List.length (trace w2))). congruence.
      * cbn in Hrun. injection Hrun as _ <-.
        apply (@run_fim cfg evs [EClose; ELog LogFatal; EProgress 0 0]
                 w2 _ T2 D2 C2 V2 (fun Hx He => Er2 Hx He Hf1)
                 eq_refl eq_refl);
          cbn [trace todos parcial final];
          [now rewrite <- !app_assoc | reflexivity | reflexivity
          | left; exact F2 | ].
        intros _ _ Hx. specialize (Hx (List.length (trace w2))). congruence.
    + cbn in Hrun. injection Hrun as _ <-.
      apply (@run_fim cfg evs [ELog LogFatal; EProgress 0 0]
               w2 _ T2 D2 C2 V2 (fun Hx He => Er2 Hx He Hf1)
               eq_refl eq_refl);
        cbn [trace todos parcial final];
        [now rewrite <- !app_assoc | reflexivity | reflexivity
        | left; exact F2 | ].
      intros Ho. destruct (Ob2 Ho) as [_ []].
  - cbn in Hrun. injection Hrun as _ <-. now apply Htriv.
Qed.

End Cancelamento.

(** The card loop of the run is the card loop of the selection, with the
    flag as the observer sets it. *)
Lemma selecionar_cards_selecionar (E : env) (n : Z)
    (cards : list (py candidato)) :
  forall (i : nat) (vistos : list str) (sel : list candidato)
         (tr : list event),
  exists flags,
    List.length flags = List.length cards /\
    fst (selecionar_cards E n cards i vistos sel tr)
    = Ret (selecionar_from n (combine flags cards) vistos sel).
Proof.
  induction cards as [|card rest IH]; intros i vistos sel tr.
  - exists []. split; reflexivity.
  - cbn [selecionar_cards]. unfold sbind, check_stop, emit. cbv beta zeta.
    destruct (stop_is_set E (List.length tr)) eqn:Hs.
    + exists (true :: repeat false (List.length rest)).
      split; [cbn; now rewrite repeat_length | reflexivity].
    + assert (Hskip : forall i' vistos' sel' tr',
                 exists flags,
                   List.length flags = List.length (card :: rest) /\
                   fst (selecionar_cards E n rest i' vistos' sel' tr')
                   = Ret (selecionar_from n (combine (tl flags) rest)
                            vistos' sel') /\
                   hd true flags = false).
      { intros i' vistos' sel' tr'.
        destruct (IH i' vistos' sel' tr') as (flags & Hl & Hr).
        exists (false :: flags). cbn. now rewrite Hl, Hr. }
      destruct card as [base|e].
      * destruct (c_link base) as [l|] eqn:Hlink.
        -- destruct (negb (truthy l) || existsb (eqb_str l) vistos) eqn:Hd.
           ++ destruct (Hskip (S i) vistos sel
                          ((tr ++ [ECheckStop NoCard false]) ++ [ECard i]))
                as ([|b flags] & Hl & Hr & Hb); [discriminate|].
              cbn in Hb. subst b. exists (false :: flags).
              split; [exact Hl|]. cbn [combine selecionar_from tl] in *.
              now rewrite Hlink, Hd.
           ++ destruct (n <=? Z.of_nat (List.length (sel ++ [base])))%Z eqn:Hn.
              ** exists (false :: repeat false (List.length rest)).
                 split; [cbn; now rewrite repeat_length|].
                 cbn [combine selecionar_from]. now rewrite Hlink, Hd, Hn.
              ** destruct (Hskip (S i) (l :: vistos) (sel ++ [base])
                             ((tr ++ [ECheckStop NoCard false]) ++ [ECard i]))
                   as ([|b flags] & Hl & Hr & Hb); [discriminate|].
                 cbn in Hb. subst b. exists (false :: flags).
                 split; [exact Hl|]. cbn [combine selecionar_from tl] in *.
                 now rewrite Hlink, Hd, Hn.
        -- destruct (Hskip (S i) vistos sel
                       ((tr ++ [ECheckStop NoCard false]) ++ [ECard i]))
             as ([|b flags] & Hl & Hr & Hb); [discriminate|].
           cbn in Hb. subst b. exists (false :: flags).
           split; [exact Hl|]. cbn [combine selecionar_from tl] in *.
           now rewrite Hlink.
      * destruct (Hskip (S i) vistos sel
                    (((tr ++ [ECheckStop NoCard false]) ++ [ECard i])
                       ++ [ELog (LogErroCard i)]))
          as ([|b flags] & Hl & Hr & Hb); [discriminate|].
        cbn in Hb. subst b. exists (false :: flags).
        split; [exact Hl|]. cbn [combine selecionar_from tl] in *.
        exact Hr.
Qed.

(** A visit to a detail page never reads the flag: set or not, the
    visit runs to its end. *)
Lemma open_pdp_from_com_flag (E : env) (flag : nat -> bool) (link_ : str)
    (remaining : nat) :
  forall (attempt attempt_max : nat) (log : bool) (tr : list event),
    open_pdp_from (com_flag E flag) link_ attempt remaining attempt_max log tr
    = open_pdp_from E link_ attempt remaining attempt_max log tr.
Proof.
  induction remaining as [|k IH]; intros attempt attempt_max log tr;
    [reflexivity|].
  cbn [open_pdp_from]. unfold sbind.
  change (tentativa (com_flag E flag) link_ attempt attempt_max log tr)
    with (tentativa E link_ attempt attempt_max log tr).
  destruct (tentativa E link_ attempt attempt_max log tr) as [[[b|]|e] tr1];
    try reflexivity.
  apply IH.
Qed.

(** The final report holds the rows of the buffer. *)
Lemma consolidar_perm (rows : list registro) (lojas : list str) :
  Permutation (map reg (consolidar rows lojas)) rows.
Proof. rewrite consolidar_order. apply sort_values_perm. Qed.




(** A page that shows a CAPTCHA, in capitals, and whose screenshot
    fails: the first attempt ends the visit of the first candidate, and
    the candidate loop goes on with the second. *)
Lemma open_pdp_antibot_C8_witness :
  let corpo := "Resolva o CAPTCHA para continuar"%string in
  let E := env_exemplo 1000 1000 corpo Failed in
  let a := candidato_exemplo "Oleo A" "https://x/1" in
  let b := candidato_exemplo "Oleo B" "https://x/2" in
  let t := lit "oleo 5w30" in
  let tr := [ECheckStop NoCandidato false; ELog (LogCandidato 1 2)] in
  let tr2 := tr ++ [EGoto true (link_de a) (lit "load"); ECookies;
                    EWheel 300; EWheel 600;
                    EInnerText (Ret (Some (lit corpo))); EScreenshot;
                    ELog LogAntibot] in
  has_hint (lower (lit corpo)) = true /\
  open_pdp E (link_de a) 3 true tr = (Ret false, tr2) /\
  processar_candidatos E cfg_exemplo t t [a; b] 1 2 mundo_inicial
  = processar_candidatos E cfg_exemplo t t [b] 2 2
      {| trace := tr2 ++ [ELog LogFalhaPdp]; todos := []; parcial := None;
         final := None |}.
Proof.
  intros corpo E a b t tr tr2.
  assert (Hh : has_hint (lower (lit corpo)) = true) by (vm_compute; reflexivity).
  split; [exact Hh|].
  destruct (@open_pdp_antibot_C8 E (link_de a) 1 2 3 true tr
              (tr ++ [EGoto true (link_de a) (lit "load"); ECookies;
                      EWheel 300; EWheel 600])
              (Some (lit corpo)) eq_refl eq_refl Hh) as [H1 H2].
  split; [exact H1|].
  exact (H2 cfg_exemplo t t a [b] 1%nat 2%nat mundo_inicial eq_refl eq_refl
           eq_refl).
Defined.

(** * More of the program *)

(** ** The readiness probe: [wait_pdp_ready] *)

Lemma respostas_app (E : env) (a b : list event) :
  forall n, respostas E n (a ++ b)
            = respostas E n a ++ respostas E (n + List.length a) b.
Proof.
  induction a as [|e a IH]; intros n; cbn [app respostas List.length].
  - now rewrite Nat.add_0_r.
  - destruct e; rewrite IH, <- ?Nat.add_succ_comm; reflexivity.
Qed.

Lemma espera_app (a b : list event) : espera (a ++ b) = (espera a + espera b)%Z.
Proof.
  induction a as [|e a IH]; [reflexivity|].
  cbn [app espera fold_right]. fold (espera (a ++ b)). fold (espera a).
  rewrite IH. destruct e; lia.
Qed.

Lemma repeat_snoc (A : Type) (x : A) (n : nat) :
  repeat x n ++ [x] = repeat x (S n).
Proof. induction n as [|n IH]; [reflexivity|]. cbn. now rewrite IH. Qed.

(** One tier of the probe: the selectors are tried in order, and the
    tier stops at the first wait that does not time out. *)
Lemma wait_first_spec (E : env) (state : str) (timeout : Z)
    (sels : list str) :
  forall tr, exists evs k,
    snd (wait_first E sels state timeout tr) = tr ++ evs /\
    forallb is_wait evs = true /\
    (List.length evs <= List.length sels)%nat /\
    espera evs = (timeout * Z.of_nat (List.length evs))%Z /\
    match fst (wait_first E sels state timeout tr) with
    | Ret true =>
        respostas E (List.length tr) evs = repeat TimedOut k ++ [Done]
    | Ret false =>
        List.length evs = List.length sels /\
        respostas E (List.length tr) evs = repeat TimedOut (List.length sels)
    | Raise e =>
        e = OtherError /\
        respostas E (List.length tr) evs = repeat TimedOut k ++ [Failed]
    end.
Proof.
  induction sels as [|sel rest IH]; intros tr; cbn [wait_first].
  - exists [], 0%nat. cbn. rewrite app_nil_r. repeat split; lia.
  - unfold scatch_timeout, sbind, call.
    destruct (wait_result E sel state (List.length tr)) eqn:Hw;
      cbn [raise_of fst snd sret].
    + exists [EWait sel state timeout], 0%nat. cbn. rewrite Hw.
      repeat split; lia.
    + destruct (IH (tr ++ [EWait sel state timeout]))
        as (evs & k & T1 & W1 & L1 & S1 & R1).
      exists (EWait sel state timeout :: evs), (S k).
      rewrite length_app, Nat.add_comm in R1. cbn [List.length Nat.add] in R1.
      split; [rewrite T1, <- app_assoc; reflexivity|].
      split; [exact W1|]. split; [cbn; lia|].
      split.
      { cbn [espera fold_right List.length]. fold (espera evs). rewrite S1.
        lia. }
      cbn [respostas]. rewrite Hw.
      destruct (fst (wait_first E rest state timeout
                       (tr ++ [EWait sel state timeout]))) as [[|]|e].
      * cbn [repeat app]. now rewrite R1.
      * destruct R1 as [R1 R2]. split; [cbn; lia|].
        cbn [List.length repeat]. now rewrite R2.
      * destruct R1 as [R1 R2]. split; [exact R1|].
        cbn [repeat app]. now rewrite R2.
    + exists [EWait sel state timeout], 0%nat. cbn. rewrite Hw.
      repeat split; lia.
Qed.

Lemma wait_pdp_ready_facts (E : env) (tr : list event) :
  exists evs k,
    snd (wait_pdp_ready E tr) = tr ++ evs /\
    forallb is_wait evs = true /\
    (List.length evs <= 11)%nat /\
    (espera evs <= 63000)%Z /\
    match fst (wait_pdp_ready E tr) with
    | Ret true =>
        respostas E (List.length tr) evs = repeat TimedOut k ++ [Done]
    | Ret false =>
        List.length evs = 11%nat /\ espera evs = 63000%Z /\
        respostas E (List.length tr) evs = repeat TimedOut 11
    | Raise e =>
        e = OtherError /\
        respostas E (List.length tr) evs = repeat TimedOut k ++ [Failed]
    end.
Proof.
  unfold wait_pdp_ready, sbind.
  destruct (wait_first_spec E (lit "visible") 8000 [lit "h1.ui-pdp-title"] tr)
    as (evs1 & k1 & T1 & W1 & L1 & S1 & R1).
  destruct (wait_first E [lit "h1.ui-pdp-title"] (lit "visible") 8000 tr)
    as [[[|]|e1] tr1]; cbn [fst snd sret] in *.
  - exists evs1, k1. cbn [List.length] in L1.
    repeat split; auto; lia.
  - subst tr1. destruct R1 as [Le1 R1]. cbn [List.length] in Le1, R1.
    destruct (wait_first_spec E (lit "visible") 6000 PDP_READY_SELECTORS
                (tr ++ evs1)) as (evs2 & k2 & T2 & W2 & L2 & S2 & R2).
    change (List.length PDP_READY_SELECTORS) with 5%nat in *.
    rewrite length_app in R2.
    destruct (wait_first E PDP_READY_SELECTORS (lit "visible") 6000
                (tr ++ evs1)) as [[[|]|e2] tr2]; cbn [fst snd sret] in *.
    + exists (evs1 ++ evs2), (1 + k2)%nat.
      split; [now rewrite T2, app_assoc|].
      split; [now rewrite forallb_app, W1, W2|].
      split; [rewrite length_app; lia|].
      split; [rewrite espera_app; lia|].
      rewrite respostas_app, R1, R2. reflexivity.
    + subst tr2. destruct R2 as [Le2 R2].
      destruct (wait_first_spec E (lit "attached") 5000 PDP_READY_SELECTORS
                  ((tr ++ evs1) ++ evs2))
        as (evs3 & k3 & T3 & W3 & L3 & S3 & R3).
      change (List.length PDP_READY_SELECTORS) with 5%nat in *.
      rewrite !length_app in R3.
      assert (Hr12 : respostas E (List.length tr) (evs1 ++ evs2)
                     = repeat TimedOut 6).
      { rewrite respostas_app, R1, R2. reflexivity. }
      exists ((evs1 ++ evs2) ++ evs3), (6 + k3)%nat.
      split; [now rewrite T3, !app_assoc|].
      split; [now rewrite !forallb_app, W1, W2, W3|].
      split; [rewrite !length_app; lia|].
      split; [rewrite !espera_app; lia|].
      rewrite respostas_app, Hr12, length_app, Nat.add_assoc.
      destruct (fst (wait_first E PDP_READY_SELECTORS (lit "attached") 5000
                       ((tr ++ evs1) ++ evs2))) as [[|]|e3].
      * rewrite R3. reflexivity.
      * destruct R3 as [Le3 R3].
        split; [rewrite !length_app; lia|].
        split; [rewrite !espera_app; lia|].
        rewrite R3. reflexivity.
      * destruct R3 as [-> R3]. split; [reflexivity|].
        rewrite R3. reflexivity.
    + subst tr2. destruct R2 as [-> R2].
      exists (evs1 ++ evs2), (1 + k2)%nat.
      split; [now rewrite app_assoc|].
      split; [now rewrite forallb_app, W1, W2|].
      split; [rewrite length_app; lia|].
      split; [rewrite espera_app; lia|].
      split; [reflexivity|].
      rewrite respostas_app, R1, R2. reflexivity.
  - exists evs1, k1. cbn [List.length] in L1. destruct R1 as [-> R1].
    repeat split; auto; lia.
Qed.

(** [wait_pdp_ready] only waits for selectors: at most eleven waits, one
    after the other, whose timeouts add up to at most 63000 ms whatever
    [timeout_ms] it is given.  It returns [True] exactly when its last
    wait returned, every wait before it having timed out; it returns
    [False] only after all eleven timed out, 63000 ms of timeouts; a
    timeout never leaves it, and it raises only what a wait raised
    otherwise. *)
Theorem wait_pdp_ready_budget (E : env) (tr : list event) :
  exists evs k,
    snd (wait_pdp_ready E tr) = tr ++ evs /\
    forallb is_wait evs = true /\
    (List.length evs <= 11)%nat /\
    (espera evs <= 63000)%Z /\
    match fst (wait_pdp_ready E tr) with
    | Ret true =>
        respostas E (List.length tr) evs = repeat TimedOut k ++ [Done]
    | Ret false =>
        List.length evs = 11%nat /\ espera evs = 63000%Z /\
        respostas E (List.length tr) evs = repeat TimedOut 11
    | Raise e =>
        e = OtherError /\
        respostas E (List.length tr) evs = repeat TimedOut k ++ [Failed]
    end.
Proof. exact (wait_pdp_ready_facts E tr). Qed.

(** ** A visit to a detail page: [open_pdp] *)

Lemma peso_app (p : pesos) (a b : list event) :
  peso p (a ++ b) = (peso p a + peso p b)%nat.
Proof. unfold peso. now rewrite map_app, list_sum_app. Qed.

Lemma cota_weaken (p : pesos) (n m : nat) (A : Type) (c : T A) :
  cota p n c -> (n <= m)%nat -> cota p m c.
Proof.
  intros H Hle tr. destruct (H tr) as (evs & T1 & B1).
  exists evs. split; [exact T1 | lia].
Qed.

Lemma cota_sret (p : pesos) (A : Type) (a : A) : cota p 0 (sret a).
Proof. intros tr. exists []. cbn. now rewrite app_nil_r. Qed.

Lemma cota_emit (p : pesos) (e : event) : cota p (f_of p e) (emit e).
Proof. intros tr. exists [e]. cbn. split; [reflexivity | lia]. Qed.

Lemma cota_call (p : pesos) (e : event) (f : nat -> outcome) :
  cota p (f_of p e) (call e f).
Proof. intros tr. exists [e]. cbn. split; [reflexivity | lia]. Qed.

Lemma cota_sbind (p : pesos) (n m : nat) (A B : Type) (c : T A)
    (k : A -> T B) :
  cota p n c -> (forall a, cota p m (k a)) -> cota p (n + m) (sbind c k).
Proof.
  intros Hc Hk tr. unfold sbind.
  destruct (Hc tr) as (evs1 & T1 & B1).
  destruct (c tr) as [[a|e] tr1]; cbn [snd] in T1; subst tr1.
  - destruct (Hk a (tr ++ evs1)) as (evs2 & T2 & B2).
    exists (evs1 ++ evs2). rewrite T2, app_assoc, peso_app.
    split; [reflexivity | lia].
  - exists evs1. split; [reflexivity | lia].
Qed.

Lemma cota_scatch (p : pesos) (n m : nat) (A : Type) (c h : T A) :
  cota p n c -> cota p m h -> cota p (n + m) (scatch c h).
Proof.
  intros Hc Hh tr. unfold scatch.
  destruct (Hc tr) as (evs1 & T1 & B1).
  destruct (c tr) as [[a|e] tr1]; cbn [snd] in T1; subst tr1.
  - exists evs1. split; [reflexivity | lia].
  - destruct (Hh (tr ++ evs1)) as (evs2 & T2 & B2).
    exists (evs1 ++ evs2). rewrite T2, app_assoc, peso_app.
    split; [reflexivity | lia].
Qed.

Lemma cota_scatch_timeout (p : pesos) (n m : nat) (A : Type) (c h : T A) :
  cota p n c -> cota p m h -> cota p (n + m) (scatch_timeout c h).
Proof.
  intros Hc Hh tr. unfold scatch_timeout.
  destruct (Hc tr) as (evs1 & T1 & B1).
  destruct (c tr) as [[a|e] tr1]; cbn [snd] in T1; subst tr1.
  - exists evs1. split; [reflexivity | lia].
  - destruct (Hh (tr ++ evs1)) as (evs2 & T2 & B2).
    destruct e; try (exists evs1; split; [reflexivity | lia]).
    exists (evs1 ++ evs2). rewrite T2, app_assoc, peso_app.
    split; [reflexivity | lia].
Qed.

Lemma cota_if (p : pesos) (n m : nat) (A : Type) (b : bool) (x y : T A) :
  cota p n x -> cota p m y -> cota p (Nat.max n m) (if b then x else y).
Proof.
  intros Hx Hy. destruct b; eapply cota_weaken; eauto; lia.
Qed.

Lemma cota_log_if (p : pesos) (log : bool) (m : log_msg) :
  cota p (w_log p) (log_if log m).
Proof.
  destruct log; [apply (cota_emit p (ELog m))|].
  eapply cota_weaken; [apply cota_sret | lia].
Qed.

Lemma cota_looks_like_antibot (p : pesos) (E : env) :
  cota p (w_body p) (looks_like_antibot E).
Proof.
  intros tr. exists [EInnerText (body_text E (List.length tr))].
  unfold looks_like_antibot. cbn. split; [reflexivity | lia].
Qed.

Lemma cota_wait_first (p : pesos) (E : env) (state : str) (timeout : Z)
    (sels : list str) :
  cota p (List.length sels * w_wait p) (wait_first E sels state timeout).
Proof.
  induction sels as [|sel rest IH]; cbn [wait_first List.length Nat.mul].
  - apply cota_sret.
  - apply cota_scatch_timeout; [|exact IH].
    eapply cota_weaken;
      [eapply cota_sbind; [apply cota_call | intros _; apply cota_sret]|].
    cbn. lia.
Qed.

(** The bound of a step of a page computation, read off its shape. *)
Ltac cota_step :=
  lazymatch goal with
  | |- cota _ _ (sbind _ _) => eapply cota_sbind; [|intros ?]
  | |- cota _ _ (scatch _ _) => eapply cota_scatch
  | |- cota _ _ (scatch_timeout _ _) => eapply cota_scatch_timeout
  | |- cota _ _ (if _ then _ else _) => eapply cota_if
  | |- cota _ _ (sret _) => apply cota_sret
  | |- cota _ _ (emit _) => apply cota_emit
  | |- cota _ _ aceitar_cookies => apply (cota_emit _ ECookies)
  | |- cota _ _ (call _ _) => apply cota_call
  | |- cota _ _ (log_if _ _) => apply cota_log_if
  | |- cota _ _ (looks_like_antibot _) => apply cota_looks_like_antibot
  | |- cota _ _ (wait_first _ _ _ _) => apply cota_wait_first
  end.

Lemma cota_wait_pdp_ready (p : pesos) (E : env) :
  cota p (11 * w_wait p) (wait_pdp_ready E).
Proof.
  eapply cota_weaken; [unfold wait_pdp_ready; repeat cota_step|].
  change (List.length PDP_READY_SELECTORS) with 5%nat. cbn. lia.
Qed.

Lemma cota_tentativa (p : pesos) (E : env) (link_ : str)
    (attempt attempt_max : nat) (log : bool) :
  cota p (2 * w_goto p + w_cookies p + 2 * w_wheel p + w_body p + w_shot p
          + w_reload p + 22 * w_wait p + 2 * w_log p)
    (tentativa E link_ attempt attempt_max log).
Proof.
  eapply cota_weaken.
  - unfold tentativa, load_and_settle, after_settle, try_screenshot.
    repeat first [apply cota_wait_pdp_ready | cota_step].
  - cbn [f_of]. lia.
Qed.

Lemma cota_open_pdp_from (p : pesos) (E : env) (link_ : str)
    (remaining : nat) :
  forall (attempt attempt_max : nat) (log : bool),
    cota p (remaining *
            (2 * w_goto p + w_cookies p + 2 * w_wheel p + w_body p
             + w_shot p + w_reload p + 22 * w_wait p + 2 * w_log p))
      (open_pdp_from E link_ attempt remaining attempt_max log).
Proof.
  induction remaining as [|k IH]; intros attempt attempt_max log;
    cbn [open_pdp_from].
  - apply cota_sret.
  - change (S k * ?b)%nat with (b + k * b)%nat.
    apply cota_sbind; [apply cota_tentativa|].
    intros [b|]; [|apply IH].
    eapply cota_weaken; [apply cota_sret | lia].
Qed.

Lemma open_pdp_facts (E : env) (link_ : str) (attempt_max : nat) (log : bool)
    (tr : list event) :
  exists b evs,
    open_pdp E link_ attempt_max log tr = (Ret b, tr ++ evs) /\
    (forall p : pesos,
        (peso p evs
         <= attempt_max *
            (2 * w_goto p + w_cookies p + 2 * w_wheel p + w_body p
             + w_shot p + w_reload p + 22 * w_wait p + 2 * w_log p))%nat).
Proof.
  pose proof (open_pdp_from_returns E link_ attempt_max 1 attempt_max log tr)
    as Hr.
  unfold open_pdp.
  destruct (open_pdp_from E link_ 1 attempt_max attempt_max log tr)
    as [[b|e] tr'] eqn:Ho; cbn [fst returns] in Hr; [|contradiction].
  destruct (blind_open_pdp_from E link_ attempt_max 1 attempt_max log tr)
    as (evs & T1 & _).
  rewrite Ho in T1. cbn [snd] in T1. subst tr'.
  exists b, evs. split; [reflexivity|].
  intros p.
  destruct (cota_open_pdp_from p E link_ attempt_max 1 attempt_max log tr)
    as (evs' & T2 & B2).
  rewrite Ho in T2. cbn [snd] in T2. apply app_inv_head in T2. now subst evs'.
Qed.

(** [open_pdp] never raises, whatever the page does: it returns a bool.
    With [attempt_max] attempts it makes at most [2 * attempt_max]
    navigations, reads the body, reloads and takes a screenshot at most
    [attempt_max] times each, and waits for a selector at most
    [22 * attempt_max] times; with no attempt it returns [False] and
    leaves the page alone. *)
Theorem open_pdp_bounded (E : env) (link_ : str) (attempt_max : nat)
    (log : bool) (tr : list event) :
  exists b evs,
    open_pdp E link_ attempt_max log tr = (Ret b, tr ++ evs) /\
    (gotos evs <= 2 * attempt_max)%nat /\
    (body_reads evs <= attempt_max)%nat /\
    (reloads evs <= attempt_max)%nat /\
    (screenshots evs <= attempt_max)%nat /\
    (waits evs <= 22 * attempt_max)%nat /\
    (attempt_max = 0%nat -> b = false /\ evs = []).
Proof.
  destruct (open_pdp_facts E link_ attempt_max log tr) as (b & evs & Ho & Hp).
  exists b, evs. split; [exact Ho|].
  unfold gotos, body_reads, reloads, screenshots, waits.
  repeat (split; [eapply Nat.le_trans; [apply Hp|]; cbn; lia|]).
  intros ->. cbn in Ho. injection Ho as <- Ht.
  split; [reflexivity|].
  apply (app_inv_head tr). now rewrite app_nil_r.
Qed.

(** The last wait of a stretch of waits. *)
Lemma respostas_last (E : env) (evs : list event) (n : nat)
    (rs : list outcome) (o : outcome) :
  forallb is_wait evs = true ->
  respostas E n evs = rs ++ [o] ->
  exists pre sel st t,
    evs = pre ++ [EWait sel st t] /\
    wait_result E sel st (n + List.length pre) = o.
Proof.
  intros Hw Hr. destruct evs as [|e0 evs0] using rev_ind.
  - destruct rs; discriminate.
  - clear IHevs0. rewrite forallb_app in Hw.
    apply andb_true_iff in Hw as [_ Hw]. cbn in Hw.
    destruct e0 as [| | | | | |sel st t| | | | | | | | | | | | |];
      try discriminate.
    rewrite respostas_app in Hr. cbn [respostas] in Hr.
    apply app_inj_tail in Hr as [_ Hr].
    now exists evs0, sel, st, t.
Qed.

Lemma open_pdp_from_true (E : env) (link_ : str) (remaining : nat) :
  forall (attempt attempt_max : nat) (log : bool) (tr tr' : list event),
    open_pdp_from E link_ attempt remaining attempt_max log tr
    = (Ret true, tr') ->
    exists pre sel st t,
      tr' = pre ++ [EWait sel st t] /\
      wait_result E sel st (List.length pre) = Done.
Proof.
  assert (Hready : forall tr r tr',
             wait_pdp_ready E tr = (Ret true, tr') ->
             r = tr' ->
             exists pre sel st t,
               r = pre ++ [EWait sel st t] /\
               wait_result E sel st (List.length pre) = Done).
  { intros tr r tr' Hw ->.
    destruct (wait_pdp_ready_facts E tr) as (evs & k & T1 & W1 & _ & _ & R1).
    rewrite Hw in T1, R1. cbn [fst snd] in T1, R1.
    destruct (@respostas_last E evs (List.length tr) (repeat TimedOut k) Done
                W1 R1)
      as (pre & sel & st & t & -> & Hd).
    exists (tr ++ pre), sel, st, t.
    split; [now rewrite T1, app_assoc | now rewrite length_app]. }
  induction remaining as [|k IH]; intros attempt attempt_max log tr tr' Ho;
    cbn [open_pdp_from] in Ho; [discriminate|].
  unfold sbind at 1 in Ho.
  destruct (tentativa E link_ attempt attempt_max log tr) as [[[b|]|e] tr1]
    eqn:Ht; try discriminate; [|eapply IH; exact Ho].
  cbn [sret] in Ho. injection Ho as -> <-.
  unfold tentativa, scatch in Ht. unfold sbind at 1 in Ht.
  destruct (load_and_settle E link_ tr) as [[[]|e] tr2].
  - unfold after_settle in Ht. unfold sbind at 1 in Ht.
    destruct (looks_like_antibot E tr2) as [[[|]|e] tr3].
    + unfold sbind in Ht. rewrite try_screenshot_passes in Ht.
      destruct log; cbn in Ht; discriminate.
    + unfold sbind at 1 in Ht.
      destruct (wait_pdp_ready E tr3) as [[[|]|e] tr4] eqn:Hw1.
      * cbn [sret] in Ht. injection Ht as <-.
        eapply Hready; [exact Hw1 | reflexivity].
      * unfold sbind at 1 in Ht.
        destruct (scatch_timeout (call EReload (reload_result E)) (sret tt)
                    tr4) as [[[]|e] tr5];
          [|destruct log; cbn in Ht; discriminate].
        unfold sbind at 1 in Ht.
        destruct (wait_pdp_ready E tr5) as [[[|]|e] tr6] eqn:Hw2.
        -- cbn [sret] in Ht. injection Ht as <-.
           eapply Hready; [exact Hw2 | reflexivity].
        -- unfold sbind in Ht. rewrite try_screenshot_passes in Ht.
           destruct log; cbn in Ht; discriminate.
        -- destruct log; cbn in Ht; discriminate.
      * destruct log; cbn in Ht; discriminate.
    + destruct log; cbn in Ht; discriminate.
  - destruct log; cbn in Ht; discriminate.
Qed.

(** [open_pdp] reports a page ready only on the strength of a selector
    wait: when it returns [True], the last thing it did was a
    [wait_for_selector] that returned without timing out. *)
Theorem open_pdp_true_after_wait (E : env) (link_ : str) (attempt_max : nat)
    (log : bool) (tr tr' : list event) :
  open_pdp E link_ attempt_max log tr = (Ret true, tr') ->
  exists pre sel st t,
    tr' = pre ++ [EWait sel st t] /\
    wait_result E sel st (List.length pre) = Done.
Proof. apply open_pdp_from_true. Qed.

(** A product page that is ready at once. *)
Lemma open_pdp_true_after_wait_witness :
  let E := env_exemplo 1000 1000 "Produto" Done in
  exists pre sel st t,
    snd (open_pdp E (lit "https://x/1") 3 true [])
    = pre ++ [EWait sel st t] /\
    wait_result E sel st (List.length pre) = Done.
Proof.
  intros E.
  apply (@open_pdp_true_after_wait E (lit "https://x/1") 3 true []).
  vm_compute. reflexivity.
Defined.

(** ** What a run collects: [ScraperThread.run] *)

Lemma junta_weaken (Q Q' : registro -> Prop) (n m : nat) (A : Type)
    (c : M A) :
  (forall r, Q r -> Q' r) -> (n <= m)%nat -> junta Q n c -> junta Q' m c.
Proof.
  intros HQ Hle Hc w. destruct (Hc w) as (novos & D & F & L & Fi & Co).
  exists novos. repeat split; auto; [|lia].
  eapply Forall_impl; [|exact F]. exact HQ.
Qed.

Lemma junta_zero (Q : registro -> Prop) (n : nat) (A : Type) (c : M A) :
  junta Q 0 c -> junta Q n c.
Proof. apply junta_weaken; auto. lia. Qed.

Lemma junta_nada (Q : registro -> Prop) (A : Type) (c : M A) :
  (forall w, todos (snd (c w)) = todos w /\
             parcial (snd (c w)) = parcial w /\
             final (snd (c w)) = final w) ->
  junta Q 0 c.
Proof.
  intros H w. destruct (H w) as (D & P & F). exists [].
  rewrite app_nil_r. repeat split; auto.
  unfold coerente. now rewrite D, P.
Qed.

Lemma junta_sret (Q : registro -> Prop) (A : Type) (a : A) :
  junta Q 0 (sret a).
Proof. apply junta_nada. intros w. repeat split. Qed.

Lemma junta_lift (Q : registro -> Prop) (A : Type) (c : T A) :
  junta Q 0 (lift c).
Proof.
  apply junta_nada. intros w. unfold lift.
  destruct (c (trace w)) as [r tr]. repeat split.
Qed.

Lemma junta_humanize (Q : registro -> Prop) (on : bool) :
  junta Q 0 (humanize on).
Proof. destruct on; [apply junta_lift | apply junta_sret]. Qed.

Lemma junta_sbind (Q : registro -> Prop) (n m : nat) (A B : Type)
    (c : M A) (k : A -> M B) :
  junta Q n c -> (forall a, junta Q m (k a)) -> junta Q (n + m) (sbind c k).
Proof.
  intros Hc Hk w. unfold sbind.
  destruct (Hc w) as (n1 & D1 & F1 & L1 & Fi1 & C1).
  destruct (c w) as [[a|e] w1]; cbn [snd] in *.
  - destruct (Hk a w1) as (n2 & D2 & F2 & L2 & Fi2 & C2).
    exists (n1 ++ n2).
    split; [now rewrite D2, D1, app_assoc|].
    split; [now apply Forall_app|].
    split; [rewrite length_app; lia|].
    split; [congruence | auto].
  - exists n1. repeat split; auto. lia.
Qed.

(** A step that appends nothing, before or after one that may. *)
Lemma junta_pre (Q : registro -> Prop) (n : nat) (A B : Type)
    (c : M A) (k : A -> M B) :
  junta Q 0 c -> (forall a, junta Q n (k a)) -> junta Q n (sbind c k).
Proof. intros Hc Hk. exact (@junta_sbind Q 0 n A B c k Hc Hk). Qed.

Lemma junta_pos (Q : registro -> Prop) (n : nat) (A B : Type)
    (c : M A) (k : A -> M B) :
  junta Q n c -> (forall a, junta Q 0 (k a)) -> junta Q n (sbind c k).
Proof.
  intros Hc Hk.
  apply (@junta_weaken Q _ (n + 0)); [auto | lia |].
  exact (@junta_sbind Q n 0 A B c k Hc Hk).
Qed.

Lemma junta_scatch (Q : registro -> Prop) (n : nat) (A : Type) (c h : M A) :
  junta Q n c -> junta Q 0 h -> junta Q n (scatch c h).
Proof.
  intros Hc Hh w. unfold scatch.
  destruct (Hc w) as (n1 & D1 & F1 & L1 & Fi1 & C1).
  destruct (c w) as [[a|e] w1]; cbn [snd] in *.
  - exists n1. repeat split; auto.
  - destruct (Hh w1) as (n2 & D2 & F2 & L2 & Fi2 & C2).
    destruct n2; [|cbn in L2; lia]. rewrite app_nil_r in D2.
    exists n1. split; [congruence|]. repeat split; auto. congruence.
Qed.

Lemma junta_scatch_timeout (Q : registro -> Prop) (n : nat) (A : Type)
    (c h : M A) :
  junta Q n c -> junta Q 0 h -> junta Q n (scatch_timeout c h).
Proof.
  intros Hc Hh w. unfold scatch_timeout.
  destruct (Hc w) as (n1 & D1 & F1 & L1 & Fi1 & C1).
  destruct (c w) as [[a|e] w1]; cbn [snd] in *.
  - exists n1. repeat split; auto.
  - destruct (Hh w1) as (n2 & D2 & F2 & L2 & Fi2 & C2).
    destruct n2; [|cbn in L2; lia]. rewrite app_nil_r in D2.
    destruct e; try (exists n1; repeat split; auto; fail).
    exists n1. split; [congruence|]. repeat split; auto. congruence.
Qed.

(** What a pure step or a page step returned is known to what follows. *)
Lemma junta_bind_pure (Q : registro -> Prop) (n : nat) (A B : Type)
    (x : py A) (k : A -> M B) :
  (forall a, x = Ret a -> junta Q n (k a)) ->
  junta Q n (sbind (fun w : world => (x, w)) k).
Proof.
  intros Hk w. unfold sbind. destruct x as [a|e].
  - exact (Hk a eq_refl w).
  - exists []. cbn. rewrite app_nil_r. repeat split; auto. lia.
Qed.

Lemma junta_bind_lift (Q : registro -> Prop) (n : nat) (A B : Type)
    (c : T A) (P : A -> Prop) (k : A -> M B) :
  (forall tr a, fst (c tr) = Ret a -> P a) ->
  (forall a, P a -> junta Q n (k a)) ->
  junta Q n (sbind (lift c) k).
Proof.
  intros HP Hk w. unfold sbind, lift.
  specialize (HP (trace w)).
  destruct (c (trace w)) as [[a|e] tr]; cbn [fst] in HP.
  - destruct (Hk a (HP a eq_refl)
                {| trace := tr; todos := todos w; parcial := parcial w;
                   final := final w |})
      as (novos & D & F & L & Fi & Co).
    exists novos. repeat split; auto.
  - exists []. cbn. rewrite app_nil_r. repeat split; auto. lia.
Qed.

Lemma junta_append_todos (Q : registro -> Prop) (r : registro) :
  Q r -> junta Q 1 (append_todos r).
Proof.
  intros HQ w. exists [r]. cbn. repeat split; auto.
  unfold coerente. cbn. destruct (parcial w) as [p|]; [|auto].
  intros [Hp (q & Hq)]. split; [exact Hp|].
  exists (q ++ [r]). now rewrite Hq, app_assoc.
Qed.

Lemma junta_salvar_parcial (Q : registro -> Prop) (E : env) :
  junta Q 0 (salvar_parcial E).
Proof.
  intros w. exists []. rewrite app_nil_r, salvar_parcial_exact.
  destruct (todos w) as [|r rs] eqn:Et.
  - cbn. repeat split; auto.
  - destruct (excel_result E (List.length (trace w)));
      cbn [fst snd trace todos parcial final]; repeat split; auto;
      unfold coerente; cbn [parcial todos]; try (now rewrite Et).
    + discriminate.
    + exists []. now rewrite app_nil_r.
Qed.

(** The card loop returns cards with a link, at most the cap. *)
Lemma selecionar_cards_result (E : env) (n : Z) (cards : list (py candidato)) :
  forall (i : nat) (vistos : list str) (sel : list candidato)
         (tr : list event) (out : list candidato),
    Forall (fun c => tem_link c = true) sel ->
    (List.length sel < Z.to_nat (Z.max 1 n))%nat ->
    fst (selecionar_cards E n cards i vistos sel tr) = Ret out ->
    Forall (fun c => tem_link c = true) out /\
    (List.length out <= Z.to_nat (Z.max 1 n))%nat.
Proof.
  induction cards as [|card rest IH]; intros i vistos sel tr out Hf Hl Ho;
    cbn [selecionar_cards] in Ho.
  - injection Ho as <-. split; [exact Hf | lia].
  - unfold sbind, check_stop, emit in Ho. cbv beta zeta in Ho.
    destruct (stop_is_set E (List.length tr)).
    { injection Ho as <-. split; [exact Hf | lia]. }
    destruct card as [base|e]; [|eapply IH; eauto].
    destruct (c_link base) as [l|] eqn:Hlink; [|eapply IH; eauto].
    destruct (negb (truthy l) || existsb (eqb_str l) vistos) eqn:Hd;
      [eapply IH; eauto|].
    apply orb_false_iff in Hd as [Ht _]. apply negb_false_iff in Ht.
    assert (Hf' : Forall (fun c => tem_link c = true) (sel ++ [base])).
    { apply Forall_app. split; [exact Hf|]. constructor; [|constructor].
      unfold tem_link. now rewrite Hlink. }
    assert (Hl' : (List.length (sel ++ [base])
                   <= Z.to_nat (Z.max 1 n))%nat)
      by (rewrite length_app; cbn; lia).
    destruct (n <=? Z.of_nat (List.length (sel ++ [base])))%Z eqn:Hn.
    + injection Ho as <-. split; assumption.
    + apply Z.leb_gt in Hn. eapply IH; [exact Hf'| |exact Ho]. lia.
Qed.

Lemma junta_processar_candidatos (E : env) (cfg : JobConfig)
    (termo consulta_ : str) (selecionados : list candidato) :
  (if raw_queries cfg then Ret (strip termo) else title_to_user_query termo)
  = Ret consulta_ ->
  consulta_ <> [] ->
  Forall (fun c => tem_link c = true) selecionados ->
  forall j total : nat,
    junta (origem cfg termo) (List.length selecionados)
      (processar_candidatos E cfg termo consulta_ selecionados j total).
Proof.
  intros Hq Hne Hf. induction Hf as [|base rest Hb Hf IH]; intros j total;
    cbn [processar_candidatos List.length].
  - apply junta_sret.
  - apply junta_pre; [apply junta_lift | intros stop].
    destruct stop.
    { apply junta_zero, junta_sret. }
    apply junta_pre; [apply junta_lift | intros _].
    apply junta_pre; [apply junta_lift | intros ok].
    destruct ok; cbn [negb].
    + apply junta_pre; [apply junta_humanize | intros _].
      apply junta_pre; [apply junta_humanize | intros _].
      apply junta_pre; [apply junta_lift | intros d].
      change (S (List.length rest)) with (1 + List.length rest)%nat.
      apply junta_sbind.
      * apply junta_append_todos. unfold origem. cbn.
        split; [reflexivity|]. split; [exact Hq|]. split; [exact Hne|].
        split; [|discriminate].
        unfold tem_link in Hb. destruct (c_link base) as [l|];
          [|discriminate].
        exists l. split; [reflexivity|]. now destruct l.
      * intros _. apply junta_pre; [apply junta_lift | intros _]. apply IH.
    + apply junta_pre; [apply junta_lift | intros _].
      apply (@junta_weaken (origem cfg termo) _ (List.length rest));
        [auto | lia | apply IH].
Qed.

Lemma junta_progress (Q : registro -> Prop) (cur total : nat) :
  junta Q 0 (progress cur total).
Proof. apply junta_lift. Qed.

Lemma junta_self_log (Q : registro -> Prop) (m : log_msg) :
  junta Q 0 (self_log m).
Proof. apply junta_lift. Qed.

Lemma junta_processar_termo (E : env) (cfg : JobConfig) (idx total : nat)
    (termo : str) :
  junta (origem cfg termo) (cap_of cfg) (processar_termo E cfg idx total termo).
Proof.
  assert (H0 : forall (c : M unit),
             junta (origem cfg termo) 0 c ->
             junta (origem cfg termo) (cap_of cfg) c)
    by (intros c; apply junta_zero).
  unfold processar_termo.
  apply junta_bind_pure. intros consulta_ Hq.
  destruct (negb (truthy consulta_)) eqn:Ht.
  { apply H0. apply junta_pre; [apply junta_self_log | intros _].
    apply junta_progress. }
  assert (Hne : consulta_ <> []).
  { intros ->. discriminate. }
  apply junta_pre; [apply junta_self_log | intros _].
  apply junta_pre; [apply junta_self_log | intros _].
  apply junta_pre.
  { apply junta_scatch_timeout.
    - apply junta_pre; [apply junta_lift | intros _].
      apply junta_pre; [apply junta_lift | intros _].
      apply junta_pre; [apply junta_lift | intros _].
      apply junta_sret.
    - apply junta_pre; [apply junta_self_log | intros _].
      apply junta_pre; [apply junta_progress | intros _].
      apply junta_sret. }
  intros found_page. destruct (negb found_page); [apply H0, junta_sret|].
  apply junta_pre; [apply junta_humanize | intros _].
  apply junta_pre; [apply junta_humanize | intros _].
  apply junta_pre; [apply junta_lift | intros _].
  apply junta_pre; [apply junta_lift | intros cards].
  apply junta_pre; [apply junta_self_log | intros _].
  destruct cards as [|card rest]; [apply H0, junta_progress|].
  apply (@junta_bind_lift _ _ _ _ _
           (fun sel => Forall (fun c => tem_link c = true) sel /\
                       (List.length sel <= cap_of cfg)%nat)).
  { intros tr out Ho.
    apply (@selecionar_cards_result E (first_n cfg) (card :: rest) 1 [] [] tr);
      [constructor | cbn; lia | exact Ho]. }
  intros sel [Hf Hl].
  destruct sel as [|base sel']; [apply H0, junta_progress|].
  apply junta_pre; [apply junta_self_log | intros _].
  apply junta_pos.
  - unfold processar_selecionados.
    apply junta_scatch; [|apply junta_self_log].
    apply junta_pos; [|intros _; apply junta_salvar_parcial].
    apply (@junta_weaken (origem cfg termo) _
             (List.length (base :: sel')));
      [auto | exact Hl | apply (@junta_processar_candidatos E cfg termo consulta_ _ Hq Hne Hf)].
  - intros _. apply junta_pre; [apply junta_progress | intros _].
    apply junta_lift.
Qed.

Lemma junta_run_termos (E : env) (cfg : JobConfig) (termos : list str) :
  forall idx total : nat,
    junta (fun r => exists termo, In termo termos /\ origem cfg termo r)
      (List.length termos * cap_of cfg)
      (run_termos E cfg termos idx total).
Proof.
  induction termos as [|termo rest IH]; intros idx total;
    cbn [run_termos List.length Nat.mul].
  - apply junta_sret.
  - apply junta_pre; [apply junta_lift | intros stop].
    destruct stop.
    { apply junta_zero, junta_self_log. }
    apply junta_sbind.
    + apply (@junta_weaken (origem cfg termo) _ (cap_of cfg));
        [|lia|apply junta_processar_termo].
      intros r Hr. exists termo. split; [now left | exact Hr].
    + intros _.
      apply (@junta_weaken
               (fun r => exists t, In t rest /\ origem cfg t r) _
               (List.length rest * cap_of cfg));
        [|lia|apply IH].
      intros r (t & Hin & Hr). exists t. split; [now right | exact Hr].
Qed.

Lemma run_colhe (E : env) (cfg : JobConfig) (termos : py (list str)) :
  exists w,
    run E cfg termos mundo_inicial = (Ret tt, w) /\
    (exists pre cur total,
        trace w = pre ++ [EProgress cur total] /\
        (cur = 0%nat /\ total = 0%nat \/
         exists ts, termos = Ret ts /\ ts <> [] /\
                    cur = List.length ts /\ total = List.length ts)) /\
    (forall r, In r (todos w) ->
               exists ts termo,
                 termos = Ret ts /\ In termo ts /\ origem cfg termo r) /\
    (forall ts, termos = Ret ts ->
                (List.length (todos w) <= List.length ts * cap_of cfg)%nat) /\
    coerente w /\
    (forall rows, final w = Some rows ->
                  todos w <> [] /\
                  rows = consolidar (todos w) (nossas_lojas cfg)).
Proof.
  assert (Hvazio : forall tr pre,
             tr = pre ++ [EProgress 0 0] ->
             let w := {| trace := tr; todos := []; parcial := None;
                         final := None |} in
             (exists pre cur total,
                 trace w = pre ++ [EProgress cur total] /\
                 (cur = 0%nat /\ total = 0%nat \/
                  exists ts, termos = Ret ts /\ ts <> [] /\
                             cur = List.length ts /\ total = List.length ts)) /\
             (forall r, In r (todos w) ->
                        exists ts termo,
                          termos = Ret ts /\ In termo ts /\ origem cfg termo r) /\
             (forall ts, termos = Ret ts ->
                         (List.length (todos w)
                          <= List.length ts * cap_of cfg)%nat) /\
             coerente w /\
             (forall rows, final w = Some rows ->
                           todos w <> [] /\
                           rows = consolidar (todos w) (nossas_lojas cfg))).
  { intros tr pre -> w. cbn [trace todos parcial final w].
    split; [exists pre, 0%nat, 0%nat; split; [reflexivity | now left]|].
    split; [intros r []|]. split; [intros; cbn; lia|].
    split; [exact I | discriminate]. }
  unfold run, scatch. unfold sbind at 1.
  destruct termos as [[|termo rest]|e].
  - eexists. split; [reflexivity|].
    apply (Hvazio _ [ELog LogSemTermos]). reflexivity.
  - unfold sbind at 1. unfold lift at 1, call.
    cbn [trace todos parcial final mundo_inicial app List.length].
    destruct (launch_result E 0);
      [|eexists; split; [reflexivity|];
        apply (Hvazio _ [ELaunch; ELog LogFatal]); reflexivity ..].
    cbn [raise_of]. unfold sbind at 1.
    unfold self_log at 1, lift at 1, emit.
    cbn [trace todos parcial final app].
    set (w1 := {| trace := [ELaunch; ELog LogContexto]; todos := [];
                  parcial := None; final := None |}).
    set (n := S (List.length rest)).
    unfold sbind at 1.
    destruct (junta_run_termos E cfg (termo :: rest) 1 n w1)
      as (novos & D & F & L & Fi & Co).
    cbn [todos w1 app] in D. cbn [final w1] in Fi.
    specialize (Co I).
    assert (Hall : forall (w3 : world) pre cur total,
               trace w3 = pre ++ [EProgress cur total] ->
               (cur = 0%nat /\ total = 0%nat \/ cur = n /\ total = n) ->
               todos w3 = novos ->
               coerente w3 ->
               (final w3 = None \/
                novos <> [] /\
                final w3 = Some (consolidar novos (nossas_lojas cfg))) ->
               (exists pre cur total,
                   trace w3 = pre ++ [EProgress cur total] /\
                   (cur = 0%nat /\ total = 0%nat \/
                    exists ts, Ret (termo :: rest) = Ret ts /\ ts <> [] /\
                               cur = List.length ts /\
                               total = List.length ts)) /\
               (forall r, In r (todos w3) ->
                          exists ts t,
                            Ret (termo :: rest) = Ret ts /\ In t ts /\
                            origem cfg t r) /\
               (forall ts, Ret (termo :: rest) = Ret ts ->
                           (List.length (todos w3)
                            <= List.length ts * cap_of cfg)%nat) /\
               coerente w3 /\
               (forall rows, final w3 = Some rows ->
                             todos w3 <> [] /\
                             rows = consolidar (todos w3) (nossas_lojas cfg))).
    { intros w3 pre cur total Ht Hp Hd Hc Hfin.
      split.
      { exists pre, cur, total. split; [exact Ht|].
        destruct Hp as [Hp|[-> ->]]; [now left|right].
        exists (termo :: rest). repeat split. discriminate. }
      split.
      { intros r Hr. rewrite Hd in Hr.
        destruct (proj1 (Forall_forall _ _) F r Hr) as (t & Hin & Ho).
        now exists (termo :: rest), t. }
      split; [intros ts [= <-]; now rewrite Hd|].
      split; [exact Hc|].
      intros rows Hr. rewrite Hd.
      destruct Hfin as [Hn|[Hne Hs]]; rewrite Hr in *; [discriminate|].
      injection Hs as ->. now split. }
    destruct (run_termos E cfg (termo :: rest) 1 n w1) as [[[]|e] w2];
      cbn [fst snd] in *.
    + rewrite finalizar_exact.
      assert (Hcase : todos w2 = [] \/ exists r0 rs, todos w2 = r0 :: rs).
      { destruct (todos w2) as [|r0 rs]; [now left|right; now exists r0, rs]. }
      destruct (close_result E (List.length (trace w2))).
      * destruct Hcase as [Et|(r0 & rs & Et)]; rewrite Et.
        -- eexists. split; [reflexivity|].
           apply (Hall _ (trace w2 ++ [EClose; ELog LogNenhum]) n n);
             cbn [trace todos parcial final].
           ++ now rewrite <- app_assoc.
           ++ now right.
           ++ congruence.
           ++ unfold coerente in *. cbn [parcial todos]. now rewrite Et in Co.
           ++ left; exact Fi.
        -- destruct (excel_result E (S (List.length (trace w2)))).
           ++ eexists. split; [reflexivity|].
              apply (Hall _ (trace w2 ++ [EClose; EWriteFinal;
                                           ELog LogFinalizado]) n n);
                cbn [trace todos parcial final].
              ** now rewrite <- app_assoc.
              ** now right.
              ** congruence.
              ** unfold coerente in *. cbn [parcial todos]. now rewrite Et in Co.
              ** right. split; [congruence|]. now rewrite <- Et, D.
           ++ eexists. split; [reflexivity|].
              apply (Hall _ (trace w2 ++ [EClose; EWriteFinal; ELog LogFatal])
                       0%nat 0%nat);
                cbn [trace todos parcial final self_log progress lift emit
                       sbind snd].
              ** now rewrite <- !app_assoc.
              ** now left.
              ** congruence.
              ** unfold coerente in *. cbn [parcial todos]. now rewrite Et in Co.
              ** left; exact Fi.
           ++ eexists. split; [reflexivity|].
              apply (Hall _ (trace w2 ++ [EClose; EWriteFinal; ELog LogFatal])
                       0%nat 0%nat);
                cbn [trace todos parcial final self_log progress lift emit
                       sbind snd].
              ** now rewrite <- !app_assoc.
              ** now left.
              ** congruence.
              ** unfold coerente in *. cbn [parcial todos]. now rewrite Et in Co.
              ** left; exact Fi.
      * eexists. split; [reflexivity|].
        apply (Hall _ (trace w2 ++ [EClose; ELog LogFatal]) 0%nat 0%nat);
          cbn [trace todos parcial final self_log progress lift emit
                 sbind snd].
        -- now rewrite <- !app_assoc.
        -- now left.
        -- exact D.
        -- exact Co.
        -- left; exact Fi.
      * eexists. split; [reflexivity|].
        apply (Hall _ (trace w2 ++ [EClose; ELog LogFatal]) 0%nat 0%nat);
          cbn [trace todos parcial final self_log progress lift emit
                 sbind snd].
        -- now rewrite <- !app_assoc.
        -- now left.
        -- exact D.
        -- exact Co.
        -- left; exact Fi.
    + eexists. split; [reflexivity|].
      apply (Hall _ (trace w2 ++ [ELog LogFatal]) 0%nat 0%nat);
        cbn [trace todos parcial final self_log progress lift emit
               sbind snd].
      * now rewrite <- !app_assoc.
      * now left.
      * exact D.
      * exact Co.
      * left; exact Fi.
  - eexists. split; [reflexivity|].
    apply (Hvazio _ [ELog LogFatal]). reflexivity.
Qed.


(** A run collects at most [first_n] rows for each term, and one row for
    each term when [first_n] is below one. *)
Theorem run_cap (E : env) (cfg : JobConfig) (ts : list str) :
  (List.length (todos (snd (run E cfg (Ret ts) mundo_inicial)))
   <= List.length ts * Z.to_nat (Z.max 1 (first_n cfg)))%nat.
Proof.
  destruct (run_colhe E cfg (Ret ts)) as (w & Hr & _ & _ & Hc & _).
  rewrite Hr. exact (Hc ts eq_refl).
Qed.

(** Every row of the buffer comes from one of the terms: it carries the
    term, the query made from it (the stripped term with raw queries,
    what [title_to_user_query] returns otherwise), which is not empty, a
    link that is not empty, and a seller text. *)
Theorem run_provenance (E : env) (cfg : JobConfig) (ts : list str) :
  Forall (fun r => exists termo, In termo ts /\ origem cfg termo r)
    (todos (snd (run E cfg (Ret ts) mundo_inicial))).
Proof.
  destruct (run_colhe E cfg (Ret ts)) as (w & Hr & _ & Ho & _).
  rewrite Hr. apply Forall_forall. intros r Hin.
  destruct (Ho r Hin) as (ts' & termo & [= <-] & Hin' & Horig).
  now exists termo.
Qed.


(** ** The report, term by term *)

Lemma consolidar_bloco (rows : list registro) (lojas : list str)
    (c : comparado) :
  In c (consolidar rows lojas) ->
  In c (comparar_precos_por_consulta
          (filter (do_termo (termo_original (reg c))) (sort_values rows))
          lojas).
Proof.
  unfold consolidar. intros H. apply in_flat_map in H as (t & _ & Hc).
  assert (Ht : termo_original (reg c) = t).
  { assert (Hin : In (reg c)
                    (map reg (comparar_precos_por_consulta
                                (filter (do_termo t) (sort_values rows))
                                lojas)))
      by (apply in_map; exact Hc).
    rewrite map_reg_comparar in Hin. apply filter_In in Hin as [_ Hd].
    unfold do_termo in Hd. now apply eqb_str_eq in Hd. }
  now rewrite Ht.
Qed.


(** ** Counts read from text: [to_int] *)

Lemma flat_map_single (a b : char) (t : str) :
  flat_map (fun c => if c =? a then [b] else [c]) t
  = map (fun c => if c =? a then b else c) t.
Proof.
  induction t as [|c t IH]; [reflexivity|].
  cbn [flat_map map]. rewrite IH. now destruct (c =? a).
Qed.

Lemma count_norm (t : str) :
  lower (replace [8239] (lit " ") (replace [160] (lit " ") t))
  = map count_norm_char t.
Proof.
  rewrite !replace_single. change (lit " ") with [32].
  rewrite !flat_map_single. unfold lower. rewrite !map_map.
  apply map_ext. intros c. unfold count_norm_char.
  destruct (c =? 160) eqn:E1; [reflexivity|]. cbn [orb].
  now destruct (c =? 8239).
Qed.

Lemma count_norm_count_char (c : char) :
  is_count_char c = true -> count_norm_char c = c.
Proof.
  intros H. unfold count_norm_char, is_count_char, lower_char in *.
  assert (Hc : (48 <= c <= 57) \/ c = 46 \/ c = 44).
  { apply orb_true_iff in H as [H|H];
      [apply orb_true_iff in H as [H|H]|].
    - left. unfold is_digit, in_range in H.
      apply andb_true_iff in H as [H1 H2].
      apply N.leb_le in H1. apply N.leb_le in H2. lia.
    - right. left. now apply N.eqb_eq in H.
    - right. right. now apply N.eqb_eq in H. }
  assert (E1 : (c =? 160) = false) by (apply N.eqb_neq; lia).
  assert (E2 : (c =? 8239) = false) by (apply N.eqb_neq; lia).
  rewrite E1, E2. cbn [orb].
  assert (E3 : is_ascii_upper c = false).
  { unfold is_ascii_upper, in_range. apply andb_false_iff. left.
    apply N.leb_gt. lia. }
  assert (E4 : is_latin1_upper c = false).
  { unfold is_latin1_upper, in_range. apply andb_false_iff. left.
    apply andb_false_iff. left. apply N.leb_gt. lia. }
  rewrite E3, E4. cbn [orb].
  assert (E5 : (c =? 376) = false) by (apply N.eqb_neq; lia).
  assert (E6 : (c =? 924) = false) by (apply N.eqb_neq; lia).
  now rewrite E5, E6.
Qed.

Lemma count_norm_other (c : char) :
  is_count_char c = false -> is_count_char (count_norm_char c) = false.
Proof.
  intros H. unfold count_norm_char.
  destruct ((c =? 160) || (c =? 8239)) eqn:E; [reflexivity|].
  unfold lower_char.
  destruct (is_ascii_upper c || is_latin1_upper c) eqn:Eu.
  - unfold is_count_char, is_digit, in_range.
    assert (Hc : 65 <= c).
    { apply orb_true_iff in Eu as [Eu|Eu];
        unfold is_ascii_upper, is_latin1_upper, in_range in Eu;
        repeat (apply andb_true_iff in Eu as [Eu ?]);
        apply N.leb_le in Eu; lia. }
    assert ((c + 32 <=? 57) = false) by (apply N.leb_gt; lia).
    change (ch ".") with 46. change (ch ",") with 44.
    assert ((c + 32 =? 46) = false) by (apply N.eqb_neq; lia).
    assert ((c + 32 =? 44) = false) by (apply N.eqb_neq; lia).
    now rewrite H0, H1, H2, andb_false_r.
  - destruct (c =? 376); [reflexivity|]. destruct (c =? 924); [reflexivity|].
    exact H.
Qed.

Lemma count_norm_digit (c : char) :
  is_digit (count_norm_char c) = is_digit c.
Proof.
  destruct (is_count_char c) eqn:E.
  - now rewrite count_norm_count_char.
  - pose proof (count_norm_other c E) as H.
    unfold is_count_char in E, H.
    apply orb_false_iff in E as [E _]. apply orb_false_iff in E as [E _].
    apply orb_false_iff in H as [H _]. apply orb_false_iff in H as [H _].
    congruence.
Qed.

(** What the pattern accepts: a digit and a run of digits, points and
    commas, which is its group. *)
Lemma matches_re_count (prev : option char) (t next : str) (cs : list str) :
  matches re_count prev t next cs ->
  cs = [t] /\ exists c rest,
    t = c :: rest /\ is_digit c = true /\ forallb is_count_char rest = true.
Proof.
  cbn. intros (c1 & -> & t1 & t2 & c2 & c3 & -> & -> & (c & -> & Hc & ->)
               & Hrep & _ & _ & ->).
  split; [reflexivity|]. now exists c, t2.
Qed.

(** Without its points and commas, such a run is its digits. *)
Lemma count_run_digits (t : str) :
  forallb is_count_char t = true ->
  replace (lit ",") [] (replace (lit ".") [] t) = filter is_digit t.
Proof.
  intros H. change (lit ",") with [ch ","]. change (lit ".") with [ch "."].
  rewrite !replace_single.
  induction t as [|c t IH]; [reflexivity|].
  cbn [forallb] in H. apply andb_true_iff in H as [Hc H].
  cbn [flat_map filter].
  destruct (is_digit c) eqn:Ed.
  - destruct (digit_head_facts c Ed) as (_ & _ & _ & _ & _ & Hp & _).
    rewrite Hp. cbn [app flat_map].
    assert (Hcm : (c =? ch ",") = false).
    { apply N.eqb_neq. unfold is_digit, in_range in Ed.
      apply andb_true_iff in Ed as [E1 _]. apply N.leb_le in E1.
      change (ch ",") with 44. lia. }
    rewrite Hcm. cbn [app]. now rewrite IH.
  - unfold is_count_char in Hc. rewrite Ed in Hc. cbn [orb] in Hc.
    destruct (c =? ch ".") eqn:Ep.
    + cbn [app]. now apply IH.
    + cbn [orb app flat_map] in *. rewrite Hc. cbn [app]. now apply IH.
Qed.

Lemma filter_digits_all (t : str) : forallb is_digit (filter is_digit t) = true.
Proof.
  induction t as [|c t IH]; [reflexivity|]. cbn [filter].
  destruct (is_digit c) eqn:E; [cbn; now rewrite E|exact IH].
Qed.

(** [int] of a non-empty string of digits. *)
Lemma int_of_str_digits (c : char) (ds : str) :
  forallb is_digit (c :: ds) = true ->
  int_of_str (c :: ds)
  = if (List.length (c :: ds) <=? int_max_str_digits)%nat
    then Ret (Z.of_N (N_of_digits (map digit_val (c :: ds))))
    else Raise ValueError.
Proof.
  intros H. unfold int_of_str.
  rewrite strip_by_id.
  2:{ apply Forall_forall. intros x Hx.
      apply digit_not_float_space.
      exact (proj1 (forallb_forall _ _) H x Hx). }
  cbn [forallb] in H. apply andb_true_iff in H as [Hc Hd].
  destruct (digit_head_facts c Hc) as (Hm & Hp & _).
  cbn [parse_sign]. rewrite Hm, Hp. cbn [digitpart]. rewrite Hc.
  rewrite <- (app_nil_r ds) at 1. rewrite (digits_more_digits ds [] Hd).
  cbn [digits_more fst snd]. rewrite app_nil_r.
  cbn [List.length map]. rewrite length_map. reflexivity.
Qed.

Lemma to_int_found (t : str) (default : option Z) (m : rematch) :
  t <> [] ->
  search re_count (map count_norm_char t) = Some m ->
  exists c rest,
    m_text m = c :: rest /\ is_digit c = true /\
    forallb is_count_char rest = true /\
    to_int (Some t) default
    = if (List.length (filter is_digit (m_text m))
          <=? int_max_str_digits)%nat
      then Ret (Some (digits_value (m_text m)))
      else Ret default.
Proof.
  intros Ht Hs. pose proof (search_sound _ _ Hs) as [_ Hm].
  apply matches_re_count in Hm as (Hg & c & rest & Hc & Hd & Hr).
  exists c, rest. repeat split; auto.
  unfold to_int. destruct t as [|a t]; [contradiction|]. cbn [truthy negb].
  rewrite count_norm, Hs. unfold group. rewrite Hg. cbn [nth].
  assert (Hall : forallb is_count_char (m_text m) = true).
  { rewrite Hc. cbn [forallb]. rewrite Hr. unfold is_count_char.
    now rewrite Hd. }
  rewrite (count_run_digits _ Hall).
  unfold digits_value. rewrite Hc. cbn [filter]. rewrite Hd.
  rewrite int_of_str_digits
    by (cbn [forallb]; now rewrite Hd, filter_digits_all).
  destruct (_ <=? _)%nat; reflexivity.
Qed.

Lemma forallb_map_norm (t : str) :
  forallb (fun c => negb (is_digit c)) (map count_norm_char t)
  = forallb (fun c => negb (is_digit c)) t.
Proof.
  induction t as [|c t IH]; [reflexivity|].
  cbn [map forallb]. now rewrite count_norm_digit, IH.
Qed.

Lemma search_count_none (s : str) :
  forallb (fun c => negb (is_digit c)) s = true ->
  search re_count s = None.
Proof.
  intros H. destruct (search re_count s) as [m|] eqn:Hs; [|reflexivity].
  exfalso. pose proof (search_sound _ _ Hs) as [Heq Hm].
  apply matches_re_count in Hm as (_ & c & rest & Hc & Hd & _).
  rewrite Heq, Hc, !forallb_app in H. cbn [forallb] in H.
  rewrite Hd in H. cbn in H. now rewrite andb_false_r in H.
Qed.

Lemma to_int_facts :
  (forall s d, to_int s d = Ret d
               \/ exists n, (0 <= n)%Z /\ to_int s d = Ret (Some n))
  /\ (forall d, to_int None d = Ret d /\ to_int (Some []) d = Ret d)
  /\ (forall t d, forallb (fun c => negb (is_digit c)) t = true ->
                  to_int (Some t) d = Ret d).
Proof.
  split; [|split].
  - intros [t|] d; [|now left].
    destruct t as [|a t]; [now left|].
    destruct (search re_count (map count_norm_char (a :: t))) as [m|] eqn:Hs.
    + destruct (@to_int_found (a :: t) d m) as (c & rest & _ & _ & _ & ->);
        [discriminate | exact Hs |].
      destruct (_ <=? _)%nat; [right|now left].
      eexists. split; [|reflexivity]. unfold digits_value. lia.
    + left. unfold to_int. cbn [truthy negb]. now rewrite count_norm, Hs.
  - intros d. split; reflexivity.
  - intros t d H. destruct t as [|a t]; [reflexivity|].
    unfold to_int. cbn [truthy negb]. rewrite count_norm.
    rewrite search_count_none; [reflexivity|].
    now rewrite forallb_map_norm.
Qed.


(** A greedy star takes the whole run when the rest of the pattern
    accepts what follows it. *)
Lemma rep_star_run (R : Type) (p : char -> bool) (post : str)
    (k : option char -> str -> option R) :
  match post with [] => True | c :: _ => p c = false end ->
  forall (run : str) (prev : option char),
    forallb p run = true ->
    k (last_char prev run) post <> None ->
    rep p 0 None prev (run ++ post) k = k (last_char prev run) post.
Proof.
  intros Hpost run. induction run as [|c run IH]; intros prev Hrun Hk.
  - cbn [app last_char fold_left] in *.
    destruct post as [|c post]; [reflexivity|].
    cbn [rep]. now rewrite Hpost.
  - cbn [forallb] in Hrun. apply andb_true_iff in Hrun as [Hc Hrun].
    cbn [app rep room option_map Nat.pred]. rewrite Hc. cbn [andb].
    change (last_char prev (c :: run)) with (last_char (Some c) run) in *.
    rewrite (IH (Some c) Hrun Hk).
    destruct (k (last_char (Some c) run) post); [reflexivity|congruence].
Qed.

Lemma match_at_count_run (prev : option char) (c : char) (rest post : str) :
  is_digit c = true -> forallb is_count_char rest = true ->
  ends_count post ->
  match_at re_count prev (c :: rest ++ post) = Some (post, [c :: rest]).
Proof.
  intros Hc Hr Hp. unfold match_at, re_count, star.
  cbn [rmatch]. rewrite Hc.
  rewrite (@rep_star_run _ is_count_char post _ Hp rest (Some c) Hr);
    [|discriminate].
  cbn [app]. do 3 f_equal.
  exact (consumed_app (c :: rest) post).
Qed.

Lemma search_from_count_run (c : char) (rest post : str) :
  is_digit c = true -> forallb is_count_char rest = true ->
  ends_count post ->
  forall (pre : str) (prev : option char) (pre_rev : str),
    forallb (fun x => negb (is_digit x)) pre = true ->
    search_from re_count prev pre_rev (pre ++ c :: rest ++ post)
    = Some {| m_pre := rev pre_rev ++ pre; m_text := c :: rest;
              m_groups := [c :: rest]; m_post := post |}.
Proof.
  intros Hc Hr Hp pre. induction pre as [|a pre IH]; intros prev pre_rev Hpre.
  - cbn [app search_from]. rewrite (@match_at_count_run prev c rest post Hc Hr Hp).
    rewrite app_nil_r. f_equal. f_equal.
    exact (consumed_app (c :: rest) post).
  - cbn [forallb] in Hpre. apply andb_true_iff in Hpre as [Ha Hpre].
    apply negb_true_iff in Ha.
    cbn [app search_from].
    assert (Hno : match_at re_count prev (a :: pre ++ c :: rest ++ post)
                  = None).
    { unfold match_at, re_count. cbn [rmatch]. now rewrite Ha. }
    rewrite Hno, (IH (Some a) (a :: pre_rev) Hpre).
    cbn [rev]. now rewrite <- app_assoc.
Qed.

Lemma to_int_run (pre post : str) (c : char) (rest : str) (d : option Z) :
  forallb (fun x => negb (is_digit x)) pre = true ->
  is_digit c = true ->
  forallb is_count_char rest = true ->
  ends_count post ->
  (List.length (filter is_digit (c :: rest)) <= int_max_str_digits)%nat ->
  to_int (Some (pre ++ c :: rest ++ post)) d
  = Ret (Some (digits_value (c :: rest))).
Proof.
  intros Hpre Hc Hr Hp Hl.
  assert (Hrun : map count_norm_char (c :: rest) = c :: rest).
  { assert (Hall : forallb is_count_char (c :: rest) = true)
      by (cbn [forallb]; unfold is_count_char at 1; now rewrite Hc, Hr).
    clear - Hall. induction (c :: rest) as [|x l IH]; [reflexivity|].
    cbn [forallb] in Hall. apply andb_true_iff in Hall as [Hx Hall].
    cbn [map]. now rewrite count_norm_count_char, IH. }
  assert (Hs : search re_count
                 (map count_norm_char (pre ++ c :: rest ++ post))
               = Some {| m_pre := map count_norm_char pre;
                         m_text := c :: rest; m_groups := [c :: rest];
                         m_post := map count_norm_char post |}).
  { change (c :: rest ++ post) with ((c :: rest) ++ post).
    rewrite !map_app, Hrun. unfold search.
    apply (@search_from_count_run c rest (map count_norm_char post) Hc Hr).
    - destruct post as [|x post]; [exact I|]. cbn [map ends_count] in *.
      now apply count_norm_other.
    - now rewrite forallb_map_norm. }
  assert (Hne : pre ++ c :: rest ++ post <> [])
    by (destruct pre; discriminate).
  destruct (@to_int_found (pre ++ c :: rest ++ post) d _ Hne Hs)
    as (c' & rest' & _ & _ & _ & Hto).
  cbn [m_text] in Hto. apply Nat.leb_le in Hl. rewrite Hl in Hto.
  exact Hto.
Qed.



(** The digits [str] writes are the digits [int] reads. *)
Lemma str_of_uint_digits (u : Decimal.uint) :
  forallb is_digit (str_of_uint u) = true.
Proof. induction u; cbn [str_of_uint forallb]; try rewrite IHu; reflexivity. Qed.

Lemma fold_digits_acc (u : Decimal.uint) :
  forall p : positive,
    fold_left (fun a d => a * 10 + d) (map digit_val (str_of_uint u)) (Npos p)
    = Npos (Pos.of_uint_acc u p).
Proof.
  induction u; intros p; cbn [str_of_uint map fold_left Pos.of_uint_acc];
    try reflexivity;
    match goal with
    | |- fold_left _ _ ?a = N.pos (Pos.of_uint_acc _ ?q) =>
        replace a with (N.pos q) by (unfold digit_val, digit_char; lia)
    end; apply IHu.
Qed.

Lemma N_of_digits_uint (u : Decimal.uint) :
  N_of_digits (map digit_val (str_of_uint u)) = Pos.of_uint u.
Proof.
  unfold N_of_digits.
  induction u; cbn [str_of_uint map fold_left Pos.of_uint];
    try reflexivity; try exact IHu;
    match goal with
    | |- fold_left _ _ ?a = N.pos (Pos.of_uint_acc _ ?q) =>
        replace a with (N.pos q) by (unfold digit_val, digit_char; lia)
    end; apply fold_digits_acc.
Qed.

Lemma filter_all (A : Type) (p : A -> bool) (l : list A) :
  forallb p l = true -> filter p l = l.
Proof.
  induction l as [|x l IH]; [reflexivity|]. cbn [forallb filter].
  intros H. apply andb_true_iff in H as [Hx H]. now rewrite Hx, IH.
Qed.

Lemma str_of_Z_shape (n : Z) :
  (0 <= n)%Z ->
  exists c rest,
    str_of_Z n = c :: rest /\ is_digit c = true /\
    forallb is_count_char rest = true /\
    filter is_digit (str_of_Z n) = str_of_Z n /\
    digits_value (str_of_Z n) = n.
Proof.
  intros Hn. destruct n as [|p|p]; [| |lia].
  - exists (digit_char 0), []. repeat split.
  - assert (Hd : forallb is_digit (str_of_Z (Z.pos p)) = true)
      by apply str_of_uint_digits.
    assert (Hv : digits_value (str_of_Z (Z.pos p)) = Z.pos p).
    { unfold digits_value. rewrite (filter_all _ _ Hd). cbn [str_of_Z].
      rewrite N_of_digits_uint, DecimalPos.Unsigned.of_to. reflexivity. }
    destruct (str_of_Z (Z.pos p)) as [|c rest] eqn:Es.
    + cbn in Hv. discriminate.
    + exists c, rest. cbn [forallb] in Hd.
      apply andb_true_iff in Hd as [Hc Hr].
      split; [reflexivity|]. split; [exact Hc|].
      split.
      { clear - Hr. induction rest as [|x l IH]; [reflexivity|].
        cbn [forallb] in *. apply andb_true_iff in Hr as [Hx Hr].
        unfold is_count_char at 1. now rewrite Hx, IH. }
      split; [|exact Hv].
      apply filter_all. cbn [forallb]. now rewrite Hc, Hr.
Qed.



(** ** The extractors: cards and detail pages *)

Lemma strip_strip (s : str) : strip (strip s) = strip s.
Proof. apply strip_id; [apply strip_head | apply strip_last]. Qed.

Lemma strip_of_stripped (t : option str) (s : str) :
  strip_of t = Ret s -> strip s = s.
Proof.
  destruct t as [x|]; [|discriminate]. cbn. intros [= <-]. apply strip_strip.
Qed.

Lemma to_int_natural (s : option str) (d : option Z) (r : option Z) (n : Z) :
  (forall k, d = Some k -> (0 <= k)%Z) ->
  to_int s d = Ret r -> r = Some n -> (0 <= n)%Z.
Proof.
  intros Hd Hr ->. destruct (proj1 to_int_facts s d) as [H|(k & Hk & H)];
    rewrite H in Hr; injection Hr as Hr.
  - now apply Hd.
  - congruence.
Qed.

Lemma avaliacoes_de_natural (card : element) (n : Z) :
  snd (avaliacoes_de card) = Some n -> (0 <= n)%Z.
Proof.
  unfold avaliacoes_de.
  destruct (query_selector card _) as [[rv|]|e]; try discriminate.
  destruct (query_selector rv (lit ".poly-reviews__rating")) as [nota_txt|e];
    [|discriminate].
  cbv zeta.
  destruct (query_selector rv (lit ".poly-reviews__total")) as [[tot|]|e];
    try discriminate.
  destruct (inner_text tot) as [t|e]; cbn [bind]; [|discriminate].
  destruct (to_int t None) as [total|e] eqn:Ht; [|discriminate].
  cbn [snd]. intros H.
  apply (@to_int_natural t None total n); auto. discriminate.
Qed.

Lemma tipo_de_values (card : element) :
  tipo_de card = lit "Clássico" \/ tipo_de card = lit "Premium".
Proof.
  unfold tipo_de.
  destruct (query_selector card _) as [[inst|]|e]; auto.
  destruct (inner_text inst) as [t|e]; auto.
  destruct (contains _ _); auto.
Qed.

Lemma titulo_de_stripped (title_el : option element) (t : str) :
  titulo_de title_el = Ret t -> strip t = t.
Proof.
  destruct title_el as [el|]; cbn.
  - destruct (inner_text el) as [x|e]; cbn; [|discriminate].
    destruct (strip_of x) as [s|e]; cbn; [|discriminate].
    intros [= <-]. apply strip_strip.
  - intros [= <-]. reflexivity.
Qed.

(** What [extrair_dados_card] returns.  The promotion price is the price
    text itself, and the numeric price is that text parsed; the title
    has no white space around it; the listing type is "Clássico" or
    "Premium"; the review count is not negative; a card without a title
    element has an empty title and no link, so that the selection passes
    it.  Only the three title look-ups can make it raise: every other
    look-up is inside a [try]. *)
Theorem extrair_dados_card_facts (card : element) :
  let title_query :=
    query_selector card (lit "a.poly-component__title, a.ui-search-link") in
  match extrair_dados_card card with
  | Ret base =>
      c_preco_promo_lista base = c_preco_lista base /\
      parse_preco_texto_to_float (c_preco_lista base)
      = Ret (c_preco_lista_num base) /\
      strip (c_titulo base) = c_titulo base /\
      (c_tipo_lista base = lit "Clássico"
       \/ c_tipo_lista base = lit "Premium") /\
      (forall n, c_avaliacoes_lista base = Some n -> (0 <= n)%Z) /\
      (title_query = Ret None ->
       c_titulo base = [] /\ c_link base = None /\ tem_link base = false)
  | Raise e =>
      title_query = Raise e \/
      exists el, title_query = Ret (Some el) /\
                 (inner_text el = Raise e \/
                  inner_text el = Ret None \/
                  get_attribute el (lit "href") = Raise e)
  end.
Proof.
  cbv zeta. unfold extrair_dados_card.
  destruct (query_selector card
              (lit "a.poly-component__title, a.ui-search-link"))
    as [title_el|e]; cbn [bind]; [|now left].
  destruct (titulo_de title_el) as [titulo_|e] eqn:Ht; cbn [bind].
  - destruct (link_do_titulo title_el) as [link_|e] eqn:Hl; cbn [bind].
    + rewrite parse_preco_spec. cbn [bind].
      cbn [c_preco_promo_lista c_preco_lista c_preco_lista_num c_titulo
             c_tipo_lista c_avaliacoes_lista c_link].
      split; [reflexivity|]. split; [apply parse_preco_spec|].
      split; [exact (titulo_de_stripped _ Ht)|].
      split; [apply tipo_de_values|].
      split; [apply avaliacoes_de_natural|].
      intros [= ->]. cbn in Ht, Hl. injection Ht as <-. injection Hl as <-.
      repeat split.
    + right. destruct title_el as [el|]; [|discriminate].
      exists el. split; [reflexivity|]. right. right. exact Hl.
  - right. destruct title_el as [el|]; [|discriminate].
    exists el. split; [reflexivity|]. cbn in Ht.
    destruct (inner_text el) as [[x|]|e']; cbn in Ht;
      [discriminate | right; now left | left; now injection Ht as ->].
Qed.

Lemma extrair_vendedor_stripped (page : element) :
  strip (extrair_vendedor_pdp page) = extrair_vendedor_pdp page.
Proof.
  unfold extrair_vendedor_pdp.
  destruct (query_selector page
              (lit "button.ui-pdp-seller__link-trigger-button"))
    as [el|e]; cbn [bind]; [|reflexivity].
  assert (Hsecond :
            strip
              match
                (el2 <- query_selector page (lit "a.ui-pdp-media__action") ;;
                 match el2 with
                 | Some e => t <- inner_text e ;; Ret (Some (strip (or_empty t)))
                 | None => Ret None
                 end)
              with
              | Ret (Some s) => s
              | _ => NAO_ENCONTRADO
              end
            = match
                (el2 <- query_selector page (lit "a.ui-pdp-media__action") ;;
                 match el2 with
                 | Some e => t <- inner_text e ;; Ret (Some (strip (or_empty t)))
                 | None => Ret None
                 end)
              with
              | Ret (Some s) => s
              | _ => NAO_ENCONTRADO
              end).
  { destruct (query_selector page (lit "a.ui-pdp-media__action"))
      as [[e2|]|e]; cbn [bind]; try reflexivity.
    destruct (inner_text e2) as [t|e]; cbn [bind]; [|reflexivity].
    apply strip_strip. }
  destruct el as [e1|]; cbn [bind]; [|exact Hsecond].
  destruct (query_selector_all e1 (lit "span")) as [spans|e]; cbn [bind];
    [|reflexivity].
  destruct spans as [|s0 [|s1 rest]]; cbn [bind]; try exact Hsecond.
  destruct (inner_text s1) as [t|e]; cbn [bind]; [|reflexivity].
  destruct (strip_of t) as [s|e] eqn:Hs; cbn [bind]; [|reflexivity].
  exact (strip_of_stripped _ Hs).
Qed.

Lemma extrair_vendidos_natural (page : element) (v : str) :
  extrair_vendidos_pdp page = Ret v ->
  (exists n, (0 <= n)%Z /\ v = str_of_Z n) /\
  (query_selector page (lit "span.ui-pdp-subtitle") = Ret None ->
   v = lit "0").
Proof.
  unfold extrair_vendidos_pdp.
  destruct (query_selector page (lit "span.ui-pdp-subtitle")) as [el|e];
    cbn [bind]; [|discriminate].
  destruct (match el with
            | Some e => t <- inner_text e ;; strip_of t
            | None => Ret []
            end) as [txt|e] eqn:Htxt; cbn [bind]; [|discriminate].
  destruct (proj1 to_int_facts (Some txt) (Some 0%Z)) as [H|(k & Hk & H)];
    rewrite H; cbn [bind str_of_count]; intros [= <-].
  - split; [exists 0%Z; split; [lia | reflexivity]|]. reflexivity.
  - split; [now exists k|]. intros [= ->]. injection Htxt as <-.
    cbn in H. now injection H as <-.
Qed.

Lemma extrair_avaliacoes_natural (page : element) (n : Z) :
  snd (extrair_avaliacoes_pdp page) = Some n -> (0 <= n)%Z.
Proof.
  unfold extrair_avaliacoes_pdp.
  destruct (query_selector page
    (lit "span.ui-review-summary__rating, .ui-pdp-review__rating__summary"))
    as [nota_el|e]; [|intros H; cbn [snd] in H; congruence].
  match goal with
  | |- snd (match ?c with Ret _ => _ | Raise _ => _ end) = _ -> _ =>
      destruct c as [nota|e]; [|intros H; cbn [snd] in H; congruence]
  end.
  destruct (query_selector page
    (lit "span.ui-review-summary__average, .ui-review-capabilities__count"))
    as [[tot|]|e]; try (intros H; cbn [snd] in H; congruence).
  destruct (inner_text tot) as [t|e]; cbn [bind];
    [|intros H; cbn [snd] in H; congruence].
  destruct (to_int t None) as [total|e] eqn:Ht;
    [|intros H; cbn [snd] in H; congruence].
  cbn [snd]. intros H.
  apply (@to_int_natural t None total n); auto. discriminate.
Qed.

(** What the four extractors of the detail page return.  The numeric
    price is the price text parsed; the seller text has no white space
    around it; the sold count is a natural number written in decimal,
    "0" when the page has no subtitle; the review count is not negative.
    The seller and the reviews never raise: the extraction raises only
    what the price or the sold-count look-ups raise. *)
Theorem extrair_pagina_facts (page : element) :
  match extrair_pagina page with
  | Ret d =>
      parse_preco_texto_to_float (preco_pdp_txt d) = Ret (preco_pdp_num d) /\
      strip (pdp_vendedor d) = pdp_vendedor d /\
      (exists n, (0 <= n)%Z /\ pdp_vendidos d = str_of_Z n) /\
      (query_selector page (lit "span.ui-pdp-subtitle") = Ret None ->
       pdp_vendidos d = lit "0") /\
      (forall n, total_pdp d = Some n -> (0 <= n)%Z)
  | Raise e =>
      parse_preco_pdp page = Raise e \/ extrair_vendidos_pdp page = Raise e
  end.
Proof.
  unfold extrair_pagina.
  destruct (parse_preco_pdp page) as [[txt num]|e] eqn:Hp; cbn [bind];
    [|now left].
  destruct (extrair_vendidos_pdp page) as [v|e] eqn:Hv; cbn [bind];
    [|now right].
  cbn [preco_pdp_txt preco_pdp_num pdp_vendedor pdp_vendidos total_pdp
         fst snd].
  split.
  { unfold parse_preco_pdp in Hp.
    destruct (first_present page _) as [el|e]; cbn [bind] in Hp;
      [|discriminate].
    destruct (match el with Some e => _ | None => Ret None end)
      as [preco_txt|e]; cbn [bind] in Hp; [|discriminate].
    rewrite parse_preco_spec in Hp. cbn [bind] in Hp.
    injection Hp as <- <-. apply parse_preco_spec. }
  split; [apply extrair_vendedor_stripped|].
  destruct (extrair_vendidos_natural page Hv) as [Hn H0].
  split; [exact Hn|]. split; [exact H0|].
  apply extrair_avaliacoes_natural.
Qed.

(** ** The query has no white space around it *)

(** Whatever the title, the query [title_to_user_query] returns is its
    own [strip]: no return path leaves white space at either end. *)
Theorem title_to_user_query_stripped (title_ : str) :
  exists q, title_to_user_query title_ = Ret q /\ strip q = q.
Proof.
  unfold title_to_user_query.
  destruct (truthy (strip title_)); cbn [negb].
  2: { exists []. split; reflexivity. }
  destruct (brand_of (upper (strip title_))) as [brand up].
  destruct (capacidade_ret up) as [cap ->]. cbn [bind].
  destruct (search re_code up) as [m|].
  - eexists. split; [reflexivity|]. apply strip_strip.
  - match goal with
    | |- context [if ?b then _ else _] => destruct b
    end; eexists; (split; [reflexivity|]); apply strip_strip.
Qed.

(** ** The scroll loop *)

Lemma human_scroll_loop_spec (R : rolagem) (total_px lo hi j : Z) :
  (j < lo)%Z ->
  (forall i, lo <= passo R i <= hi)%Z ->
  (forall i, - j <= tremor R i <= j)%Z ->
  forall (fuel i : nat) (scrolled : Z) (calls : list Z),
    (total_px - scrolled <= Z.of_nat fuel * (lo - j))%Z ->
    exists more scrolled',
      human_scroll_loop R total_px fuel i scrolled calls
      = Some (calls ++ more, scrolled') /\
      Forall (fun s => lo - j <= s <= hi + j)%Z more /\
      (scrolled <= scrolled')%Z /\
      (scrolled < total_px -> scrolled' < total_px + (hi + j))%Z /\
      ((total_px <= scrolled)%Z -> scrolled' = scrolled /\ more = []) /\
      (more = [] \/
       (Z.of_nat (List.length more) - 1) * (lo - j) < total_px - scrolled)%Z /\
      ((total_px <= scrolled')%Z \/
       exists k s e, In s more /\ roda R k s = Raise e).
Proof.
  intros Hj Hp Ht fuel.
  induction fuel as [|fuel IH]; intros i scrolled calls Hf; cbn [human_scroll_loop].
  - destruct (Z.ltb_spec scrolled total_px) as [Hlt|Hge]; [cbn in Hf; lia|].
    exists [], scrolled. rewrite app_nil_r.
    repeat split; auto; try lia.
  - destruct (Z.ltb_spec scrolled total_px) as [Hlt|Hge].
    2: { exists [], scrolled. rewrite app_nil_r.
         repeat split; auto; try lia. }
    cbv zeta. specialize (Hp i). specialize (Ht i).
    set (step := (passo R i + tremor R i)%Z) in *.
    assert (Hs : (lo - j <= step <= hi + j)%Z) by (unfold step; lia).
    destruct (roda R i step) as [u|e] eqn:Hr.
    + destruct (IH (S i) (scrolled + step)%Z (calls ++ [step]))
        as (more & s' & Hl & Hall & Hle & Hover & Hstop & Hcount & Hend).
      { nia. }
      exists (step :: more), s'. rewrite Hl, <- app_assoc.
      split; [reflexivity|]. split; [now constructor|].
      split; [lia|]. split.
      { intros _. destruct (Z.lt_ge_cases (scrolled + step) total_px) as [H|H].
        - now apply Hover.
        - destruct (Hstop H) as [-> _]. lia. }
      split; [lia|]. split.
      { right. destruct Hcount as [->|Hc]; [cbn; lia|].
        cbn [List.length]. nia. }
      destruct Hend as [H|(k & s & e & Hin & H)]; [now left|].
      right. exists k, s, e. split; [now right | exact H].
    + exists [step], scrolled. split; [reflexivity|].
      split; [now repeat constructor|]. split; [lia|]. split; [lia|].
      split; [lia|]. split; [right; cbn; lia|].
      right. exists i, step, e. split; [now left | exact Hr].
Qed.

(** [human_scroll] ends, and close to its target.  When every drawn step
    is in [lo, hi], every jitter in [-j, j] and [j < lo], the loop needs
    no more than [total_px / (lo - j)] passes (rounded up): it returns
    whenever it is given that many.  Every wheel call is by a positive
    amount between [lo - j] and [hi + j]; the pixels counted stay below
    [total_px + hi + j]; a target that is not positive makes no call; and
    the loop stops short of the target only when a wheel call raised. *)
Theorem human_scroll_bounded (R : rolagem) (total_px lo hi j : Z)
    (fuel : nat) :
  (j < lo)%Z ->
  (forall i, lo <= passo R i <= hi)%Z ->
  (forall i, - j <= tremor R i <= j)%Z ->
  (total_px <= Z.of_nat fuel * (lo - j))%Z ->
  exists calls scrolled,
    human_scroll R total_px fuel = Some (calls, scrolled) /\
    Forall (fun s => 0 < lo - j <= s /\ s <= hi + j)%Z calls /\
    (Z.of_nat (List.length calls) * (lo - j)
     < Z.max 0 total_px + (lo - j))%Z /\
    (0 <= scrolled < Z.max 0 total_px + (hi + j))%Z /\
    ((total_px <= 0)%Z -> calls = []) /\
    ((total_px <= scrolled)%Z \/
     exists k s e, In s calls /\ roda R k s = Raise e).
Proof.
  intros Hj Hp Ht Hf. unfold human_scroll.
  pose proof (Hp 0%nat) as Hp0. pose proof (Ht 0%nat) as Ht0.
  destruct (Z.leb_spec total_px 0) as [Hle|Hgt].
  - exists [], 0%Z. split; [reflexivity|]. split; [constructor|].
    cbn [List.length]. repeat split; auto; lia.
  - destruct (@human_scroll_loop_spec R total_px lo hi j Hj Hp Ht fuel
                0%nat 0%Z [])
      as (more & s' & Hl & Hall & Hge & Hover & _ & Hcount & Hend);
      [lia|].
    exists more, s'. cbn [app] in Hl. split; [exact Hl|]. split.
    { eapply Forall_impl; [|exact Hall]. cbv beta. intros; lia. }
    split; [destruct Hcount as [->|Hc]; cbn [List.length]; lia|].
    split; [specialize (Hover Hgt); lia|].
    split; [lia | exact Hend].
Qed.

(** The defaults of the source, towards 1000 pixels, with a wheel that
    never fails. *)
Lemma human_scroll_bounded_witness :
  let R := {| passo := fun _ => 200%Z;
              tremor := fun i => if Nat.even i then 30%Z else (-30)%Z;
              roda := fun _ _ => Ret tt |} in
  exists calls scrolled,
    human_scroll R 1000 12 = Some (calls, scrolled) /\
    Forall (fun s => 0 < 120 - 30 <= s /\ s <= 300 + 30)%Z calls /\
    (Z.of_nat (List.length calls) * (120 - 30)
     < Z.max 0 1000 + (120 - 30))%Z /\
    (0 <= scrolled < Z.max 0 1000 + (300 + 30))%Z /\
    ((1000 <= 0)%Z -> calls = []) /\
    ((1000 <= scrolled)%Z \/
     exists k s e, In s calls /\ roda R k s = Raise e).
Proof.
  intros R.
  apply (@human_scroll_bounded R 1000 120 300 30 12).
  - lia.
  - intros i. cbn. lia.
  - intros i. cbn. destruct (Nat.even i); lia.
  - cbn. lia.
Defined.

(** ** The terms of the sheet *)

Lemma termos_da_coluna_clean (col : list cell) :
  Forall (fun t => truthy t = true /\ strip t = t /\ lower t <> lit "nan")
    (termos_da_coluna col).
Proof.
  induction col as [|[|texto] rest IH]; cbn [termos_da_coluna];
    [constructor | exact IH |].
  cbv zeta.
  destruct (truthy (strip texto)) eqn:Ht; cbn [andb]; [|exact IH].
  destruct (eqb_str (lower (strip texto)) (lit "nan")) eqn:Hn; cbn [negb];
    [exact IH|].
  constructor; [|exact IH].
  split; [exact Ht|]. split; [apply strip_strip|].
  intros H. apply eqb_str_eq in H. congruence.
Qed.

Lemma termos_da_coluna_kept (ts : list str) :
  Forall (fun t => truthy t = true /\ strip t = t /\ lower t <> lit "nan") ts ->
  termos_da_coluna (map Valor ts) = ts.
Proof.
  induction 1 as [|t ts (Ht & Hs & Hn) _ IH]; [reflexivity|].
  cbn [map termos_da_coluna]. cbv zeta. rewrite Hs, Ht. cbn [andb].
  destruct (eqb_str (lower t) (lit "nan")) eqn:He.
  - apply eqb_str_eq in He. contradiction.
  - cbn [negb]. now rewrite IH.
Qed.

